(** * AccountBalancing_CLI: the ledger of [main.cpp], embedded and verified

    The program keeps a [Book] (a set of user names and a vector of expenses),
    folds the expenses into a net balance per user ([computeNet]) and derives
    settlement transactions by greedy matching of the largest creditor with
    the largest debtor ([settle]).  Amounts are C++ [double]s.

    The embedding is written once, over a small arithmetic interface
    ([Arith]), and read at two number types:
    - [float], Rocq's primitive binary64 numbers: the program as it runs.
      What is proved of the program is proved at this type, or at every
      type of the interface;
    - [Qc], the rationals: the numbers that the doubles stand for. The
      program does not compute with them. The same text read at [Qc] is the
      reference against which a run in binary64 is measured: when no
      addition and no subtraction of [computeNet] rounds ([no_rounding]),
      the balances in binary64 stand for ([value]) the balances at [Qc],
      and facts such as "addition is commutative, so order does not matter"
      carry over to the run. *)

From Stdlib Require Import ZArith QArith Qcanon Qcabs Floats Ascii String Lqa.
From stdpp Require Import gmap strings list fin_maps sorting.

Set Warnings "-inexact-float,-clear-no-such-hyp".

(** ** Arithmetic of amounts *)

(** The operations [main.cpp] applies to a [double]. [a > b] is [b < a]. *)
Class Arith (R : Type) := {
  r_zero : R;                      (* 0.0 *)
  r_add : R → R → R;               (* a + b *)
  r_sub : R → R → R;               (* a - b *)
  r_neg : R → R;                   (* -a *)
  r_div : R → R → R;               (* a / b *)
  r_fabs : R → R;                  (* fabs(a) *)
  r_lt : R → R → bool;             (* a < b *)
  r_of_size : nat → R;             (* static_cast<double>(n), n a size_t *)
  EPS : R;                         (* static constexpr double EPS = 1e-6 *)
  SHARE_TOL : R;                   (* the literal 0.01 of addExpenseExact *)
  NOISE : R                        (* the literal 1e-9 of computeNet *)
}.

Definition r_gt `{Arith R} (a b : R) : bool := r_lt b a.

(** [std::min(a, b)] returns [b] when [b < a] and [a] otherwise. *)
Definition r_min `{Arith R} (a b : R) : R := if r_lt b a then b else a.

(** binary64: every operation is the IEEE 754 one of the primitive floats;
    a [size_t] is converted by rounding the integer to nearest. *)
#[export] Instance double_arith : Arith float := {|
  r_zero := 0%float;
  r_add := PrimFloat.add;
  r_sub := PrimFloat.sub;
  r_neg := PrimFloat.opp;
  r_div := PrimFloat.div;
  r_fabs := PrimFloat.abs;
  r_lt := PrimFloat.ltb;
  r_of_size := λ n, SF2Prim (binary_normalize prec emax (Z.of_nat n) 0 false);
  EPS := 1e-6%float;
  SHARE_TOL := 0.01%float;
  NOISE := 1e-9%float
|}.

Definition Qc_ltb (a b : Qc) : bool :=
  match (a ?= b)%Qc with Lt => true | _ => false end.

(** The rationals. This is not the arithmetic of the program, which is
    [double_arith]: it is the arithmetic of the numbers that the doubles
    stand for, in which sums of balances are stated, and to which a run of
    the program that does not round is related by [no_rounding] and [value]
    below. Division by zero, which [double] answers with an infinity or a
    NaN, is [0] here ([Qcdiv]). *)
#[export] Instance exact_arith : Arith Qc := {|
  r_zero := 0%Qc;
  r_add := Qcplus;
  r_sub := Qcminus;
  r_neg := Qcopp;
  r_div := Qcdiv;
  r_fabs := Qcabs;
  r_lt := Qc_ltb;
  r_of_size := λ n, Q2Qc (inject_Z (Z.of_nat n));
  EPS := Q2Qc (1 # 1000000);
  SHARE_TOL := Q2Qc (1 # 100);
  NOISE := Q2Qc (1 # 1000000000)
|}.

(** ** Data model *)

(** [std::map<string,double>] is a [gmap string R]; [m[k]] creates the entry
    with value [0.0] when it is absent. *)
Definition map_at `{Arith R} (m : gmap string R) (k : string) : R :=
  default r_zero (m !! k).

(** [m[k] += v] *)
Definition map_add `{Arith R} (k : string) (v : R) (m : gmap string R) : gmap string R :=
  <[k := r_add (map_at m k) v]> m.

(** [m[k] -= v] *)
Definition map_sub `{Arith R} (k : string) (v : R) (m : gmap string R) : gmap string R :=
  <[k := r_sub (map_at m k) v]> m.


(** Iteration over a [std::map] visits the entries by increasing key
    (byte-wise lexicographic order of [std::string]). *)
Definition entry_le {A} (x y : string * A) : Prop := String.leb x.1 y.1 = true.

#[export] Instance entry_le_dec {A} (x y : string * A) : Decision (entry_le x y).
Proof. unfold entry_le. apply _. Defined.

Definition items {A} (m : gmap string A) : list (string * A) :=
  merge_sort entry_le (map_to_list m).

Record Expense (R : Type) := mkExpense {
  payer : string;
  amount : R;
  shares : gmap string R          (* participant -> share amount *)
}.
Arguments mkExpense {R}.
Arguments payer {R}.
Arguments amount {R}.
Arguments shares {R}.

Record Book (R : Type) := mkBook {
  users : gset string;            (* unordered_set<string> users *)
  expenses : list (Expense R)     (* vector<Expense> expenses *)
}.
Arguments mkBook {R}.
Arguments users {R}.
Arguments expenses {R}.

Definition empty_book {R} : Book R := mkBook ∅ [].

(** The values [err] is set to, one constructor per assignment in the source,
    with the data the message is built from. *)
Inductive error (R : Type) :=
| UnknownPayer (p : string)          (* "Unknown payer: " + payer *)
| NoParticipants                     (* "No participants." *)
| UnknownParticipant (p : string)    (* "Unknown participant: " + name *)
| NoShares                           (* "No shares provided." *)
| BadToken (t : string)              (* "Bad token '" + t + "', expected name:amount" *)
| ShareSum (sumShares amt : R)       (* "Share sum (..) != amount (..)" *)
| CannotOpenWrite                    (* "Cannot open file for writing." *)
| CannotOpenRead                     (* "Cannot open file for reading." *)
| CorruptUsers                       (* "Corrupt file (USERS)." *)
| CorruptExpenses                    (* "Corrupt file (EXPENSES)." *)
| CorruptHeader                      (* "Corrupt expense header." *)
| CorruptSharesTag                   (* "Corrupt shares tag." *)
| CorruptShareEntry.                 (* "Corrupt share entry." *)
Arguments UnknownPayer {R}.
Arguments NoParticipants {R}.
Arguments UnknownParticipant {R}.
Arguments NoShares {R}.
Arguments BadToken {R}.
Arguments ShareSum {R}.
Arguments CannotOpenWrite {R}.
Arguments CannotOpenRead {R}.
Arguments CorruptUsers {R}.
Arguments CorruptExpenses {R}.
Arguments CorruptHeader {R}.
Arguments CorruptSharesTag {R}.
Arguments CorruptShareEntry {R}.

(** The error kinds of the specification. *)
Inductive error_kind :=
| UnknownUser | EmptyParticipants | EmptyShares | MalformedToken
| ShareMismatch | CorruptPersistedState | FileNotOpened.

Definition kind_of {R} (e : error R) : error_kind :=
  match e with
  | UnknownPayer _ | UnknownParticipant _ => UnknownUser
  | NoParticipants => EmptyParticipants
  | NoShares => EmptyShares
  | BadToken _ => MalformedToken
  | ShareSum _ _ => ShareMismatch
  | CannotOpenWrite | CannotOpenRead => FileNotOpened
  | CorruptUsers | CorruptExpenses | CorruptHeader
  | CorruptSharesTag | CorruptShareEntry => CorruptPersistedState
  end.

(** The exceptions [std::stod] throws. Nothing in [main.cpp] catches them. *)
Inductive exception := invalid_argument | out_of_range.

(** How a call of a [Book] member ends, with the store it leaves behind:
    [Done] is [return true], [Fail] is [return false] with [err] set,
    [Throw] is an exception leaving the call, [Hang] is a loop that never
    exits. *)
Inductive outcome (R : Type) :=
| Done (b : Book R)
| Fail (e : error R) (b : Book R)
| Throw (x : exception) (b : Book R)
| Hang (b : Book R).
Arguments Done {R}.
Arguments Fail {R}.
Arguments Throw {R}.
Arguments Hang {R}.

Definition store_after {R} (o : outcome R) : Book R :=
  match o with Done b | Fail _ b | Throw _ b | Hang b => b end.

Definition failed {R} (o : outcome R) : Prop :=
  match o with Fail _ _ => True | _ => False end.

Section Ledger.
Context {R : Type} `{Arith R}.

Definition hasUser (b : Book R) (u : string) : bool := bool_decide (u ∈ users b).

Definition addUser (b : Book R) (u : string) : Book R :=
  mkBook ({[u]} ∪ users b) (expenses b).

(** [expenses.push_back(e)] *)
Definition push_expense (b : Book R) (e : Expense R) : Book R :=
  mkBook (users b) (expenses b ++ [e]).

(** The first participant that is not a user, if any (the first loop of
    [addExpenseEqual]). *)
Fixpoint first_unknown (b : Book R) (ps : list string) : option string :=
  match ps with
  | [] => None
  | p :: ps' => if hasUser b p then first_unknown b ps' else Some p
  end.

(** [for ... e.shares[participants[i]] += share] *)
Definition equal_shares (share : R) (ps : list string) : gmap string R :=
  foldl (λ sh p, map_add p share sh) ∅ ps.

Definition addExpenseEqual (b : Book R) (payer : string) (amount : R)
    (participants : list string) : outcome R :=
  if negb (hasUser b payer) then Fail (UnknownPayer payer) b
  else match participants with
  | [] => Fail NoParticipants b
  | _ =>
    match first_unknown b participants with
    | Some p => Fail (UnknownParticipant p) b
    | None =>
      let share := r_div amount (r_of_size (length participants)) in
      let e := mkExpense payer amount (equal_shares share participants) in
      Done (push_expense b e)
    end
  end.

(** ** Balance engine *)

(** The body of the loop over the expenses: credit the payer, then debit each
    participant. *)
Definition apply_expense (net : gmap string R) (e : Expense R) : gmap string R :=
  foldl (λ net kv, map_sub kv.1 kv.2 net) (map_add (payer e) (amount e) net)
        (items (shares e)).

(** [if (fabs(x) < 1e-9) x = 0.0] *)
Definition clamp (x : R) : R := if r_lt (r_fabs x) NOISE then r_zero else x.

(** The balances before the final clamping loop. *)
Definition raw_net (b : Book R) : gmap string R :=
  foldl apply_expense (gset_to_gmap r_zero (users b)) (expenses b).

Definition computeNet (b : Book R) : gmap string R := clamp <$> raw_net b.

(** ** Settlement solver *)

(** [struct Node { string name; double amt; }] *)
Record Node := mkNode { name : string; amt : R }.

(** A settlement transaction [make_tuple(from, to, amount)]. *)
Definition Txn : Type := string * string * R.

Definition CmpCred (a b : Node) : bool := r_lt (amt a) (amt b).
Definition CmpDebt (a b : Node) : bool := r_gt (amt a) (amt b).

(** [std::priority_queue<Node, vector<Node>, Cmp>] holds a multiset of nodes,
    kept here as a list; [top()] is an element that [Cmp] puts below no other
    one. Which of several equal elements comes first is left open by the C++
    standard; this model takes the earliest in the list. *)

(** The greatest element of [x :: q] and the other elements. *)
Fixpoint pq_extract (cmp : Node → Node → bool) (x : Node) (q : list Node) : Node * list Node :=
  match q with
  | [] => (x, [])
  | y :: q' =>
    if cmp x y then let '(m, r) := pq_extract cmp y q' in (m, x :: r)
    else let '(m, r) := pq_extract cmp x q' in (m, y :: r)
  end.

(** [top()] followed by [pop()]; [None] on an empty queue. *)
Definition pq_pop (cmp : Node → Node → bool) (q : list Node) : option (Node * list Node) :=
  match q with
  | [] => None
  | x :: q' => Some (pq_extract cmp x q')
  end.

Definition pq_push (x : Node) (q : list Node) : list Node := q ++ [x].

(** The state of the matching loop: the two queues and [txns]. *)
Definition settle_state : Type := list Node * list Node * list Txn.

(** One iteration of [while (!C.empty() && !D.empty())], for the popped
    creditor [c] and debtor [d]. *)
Definition settle_step (c d : Node) (C D : list Node) (txns : list Txn) : settle_state :=
  let pay := r_min (amt c) (r_neg (amt d)) in
  let txns' := if r_gt pay EPS then txns ++ [(name d, name c, pay)] else txns in
  let c' := mkNode (name c) (r_sub (amt c) pay) in
  let d' := mkNode (name d) (r_add (amt d) pay) in
  let C' := if r_gt (amt c') EPS then pq_push c' C else C in
  let D' := if r_lt (amt d') (r_neg EPS) then pq_push d' D else D in
  (C', D', txns').

(** [-EPS <= x <= EPS] as the program tests it: [x] is neither [> EPS] (a
    creditor) nor [< -EPS] (a debtor). *)
Definition within_eps (x : R) : bool := negb (r_gt x EPS) && negb (r_lt x (r_neg EPS)).

(** The loop condition, the two [top()]/[pop()] pairs and the body: [None]
    when one of the queues is empty. *)
Definition settle_iter (C D : list Node) (txns : list Txn) : option settle_state :=
  match pq_pop CmpCred C, pq_pop CmpDebt D with
  | Some (c, C'), Some (d, D') => Some (settle_step c d C' D' txns)
  | _, _ => None
  end.

(** The loop, run for at most [fuel] iterations: [Some] of the state in which
    the loop condition is false, [None] when the fuel does not suffice. *)
Fixpoint settle_loop (fuel : nat) (C D : list Node) (txns : list Txn) : option settle_state :=
  match settle_iter C D txns with
  | None => Some (C, D, txns)
  | Some (C', D', txns') =>
    match fuel with
    | 0 => None
    | S fuel' => settle_loop fuel' C' D' txns'
    end
  end.

(** The vectors [cred] and [debt] filled from a balance mapping. *)
Definition creditors (net : gmap string R) : list Node :=
  omap (λ kv, if r_gt kv.2 EPS then Some (mkNode kv.1 kv.2) else None) (items net).

Definition debtors (net : gmap string R) : list Node :=
  omap (λ kv, if r_gt kv.2 EPS then None
              else if r_lt kv.2 (r_neg EPS) then Some (mkNode kv.1 kv.2) else None)
       (items net).

(** The solver on a balance mapping. Each iteration removes a node for good
    (see [settle_loop_total]), so as many iterations as there are nodes
    suffice. *)
Definition settle_net (net : gmap string R) : option settle_state :=
  let cred := creditors net in
  let debt := debtors net in
  settle_loop (length cred + length debt) cred debt [].

Definition settle (b : Book R) : option (list Txn) :=
  (λ st, st.2) <$> settle_net (computeNet b).

(** Applying a transaction to a balance mapping the way [settle] itself keeps
    its books ([d.amt += pay] for the payer [from = d.name], [c.amt -= pay] for
    the payee [to = c.name]). *)
Definition apply_txn (bal : gmap string R) (t : Txn) : gmap string R :=
  let '(from, to, pay) := t in
  map_sub to pay (map_add from pay bal).

(** Applying a transaction the other way round: the amount is subtracted from
    the balance of [from] and added to the balance of [to]. *)
Definition apply_txn_reversed (bal : gmap string R) (t : Txn) : gmap string R :=
  let '(from, to, pay) := t in
  map_add to pay (map_sub from pay bal).

Definition all_within_eps (bal : gmap string R) : bool :=
  forallb (λ kv, within_eps kv.2) (map_to_list bal).

End Ledger.

Arguments Node R : clear implicits.
Arguments Txn R : clear implicits.
Arguments settle_state R : clear implicits.

(** What the matching loop needs from the arithmetic. An amount minus
    itself, and an amount plus its negation, lie within [EPS] of zero as the
    program tests it; paying [min(c, -d)] takes a creditor [c] no lower than
    zero and a debtor [d] no higher; a debtor owes more than [EPS] and nobody
    is creditor and debtor at once. All of it holds for binary64. *)
Class SettleLaws (R : Type) `{Arith R} : Prop := {
  sub_self_within : ∀ x : R, within_eps (r_sub x x) = true;
  add_neg_within : ∀ x : R, within_eps (r_add x (r_neg x)) = true;
  creditor_not_overpaid :
    ∀ c d : R, r_lt (r_sub c (r_min c (r_neg d))) (r_neg EPS) = false;
  debtor_not_overpaid :
    ∀ c d : R, r_gt (r_add d (r_min c (r_neg d))) EPS = false;
  debtor_owes : ∀ d : R, r_lt d (r_neg EPS) = true → r_gt (r_neg d) EPS = true;
  creditor_not_debtor : ∀ x : R, r_gt x EPS = true → r_lt x (r_neg EPS) = false
}.

(** Not below zero: a NaN, a zero, or a positive number or infinity. *)
Definition sf_not_neg (x : spec_float) : bool :=
  match x with
  | S754_finite true _ _ | S754_infinity true => false
  | _ => true
  end.

(** Not above zero. *)
Definition sf_not_pos (x : spec_float) : bool :=
  match x with
  | S754_finite false _ _ | S754_infinity false => false
  | _ => true
  end.

(** ** Example ledgers *)

(** Users A, B and C; A pays 90, split equally among the three. *)
Definition book_abc : Book float :=
  store_after
    (addExpenseEqual (addUser (addUser (addUser empty_book "A") "B") "C")
       "A" 90%float ["A"; "B"; "C"]).

(** One user and no expense: everybody is settled. *)
Definition book_idle : Book float := addUser empty_book "A".

(** ** Text to number: [strtod] and [std::stod]

    [std::stod(str)] calls [strtod]; it throws [invalid_argument] when no
    conversion is performed and [out_of_range] when [strtod] sets [ERANGE].
    [strtod] skips white space, takes an optional sign and then the longest
    prefix that is a decimal number, a hexadecimal number, [inf]/[infinity]
    or [nan]/[nan(...)]; what follows the number is ignored. The value is
    rounded to nearest, ties to even. [ERANGE] is set on overflow and, as
    glibc does, on a result that is tiny and not exact. *)

Definition is_space (c : ascii) : bool :=
  let n := N_of_ascii c in
  (n =? 32)%N || ((9 <=? n)%N && (n <=? 13)%N).

Definition digit_of (c : ascii) : option Z :=
  let n := Z.of_N (N_of_ascii c) in
  if (48 <=? n)%Z && (n <=? 57)%Z then Some (n - 48)%Z else None.

Definition hexdigit_of (c : ascii) : option Z :=
  let n := Z.of_N (N_of_ascii c) in
  if (48 <=? n)%Z && (n <=? 57)%Z then Some (n - 48)%Z
  else if (97 <=? n)%Z && (n <=? 102)%Z then Some (n - 87)%Z
  else if (65 <=? n)%Z && (n <=? 70)%Z then Some (n - 55)%Z
  else None.

Definition to_lower (c : ascii) : ascii :=
  let n := N_of_ascii c in
  if (65 <=? n)%N && (n <=? 90)%N then ascii_of_N (n + 32) else c.

Fixpoint skip_space (s : string) : string :=
  match s with
  | String c s' => if is_space c then skip_space s' else s
  | EmptyString => s
  end.

(** The digits at the front of [s] in base [base], added to [acc]: the value,
    the number of digits read, and the rest of [s]. *)
Fixpoint read_digits (dig : ascii → option Z) (base acc : Z) (n : nat) (s : string)
    : Z * nat * string :=
  match s with
  | String c s' =>
    match dig c with
    | Some d => read_digits dig base (acc * base + d)%Z (S n) s'
    | None => (acc, n, s)
    end
  | EmptyString => (acc, n, s)
  end.

(** [s] without the prefix [kw] (lower case), compared ignoring case. *)
Fixpoint strip_keyword (kw s : string) : option string :=
  match kw, s with
  | EmptyString, _ => Some s
  | String k kw', String c s' =>
    if Ascii.eqb k (to_lower c) then strip_keyword kw' s' else None
  | String _ _, EmptyString => None
  end.

(** An optional sign: whether it is [-], and the rest. *)
Definition read_sign (s : string) : bool * string :=
  match s with
  | String "+" s' => (false, s')
  | String "-" s' => (true, s')
  | _ => (false, s)
  end.

(** An optional exponent part [e[+-]digits] with marker [mark] (lower case):
    its value and the rest; the marker is not consumed unless digits follow. *)
Definition read_exponent (mark : ascii) (s : string) : Z * string :=
  match s with
  | String c s1 =>
    if Ascii.eqb (to_lower c) mark then
      let '(neg, s2) := read_sign s1 in
      match read_digits digit_of 10 0 0 s2 with
      | (_, 0, _) => (0%Z, s)
      | (v, S _, s3) => (if neg then (- v)%Z else v, s3)
      end
    else (0%Z, s)
  | EmptyString => (0%Z, s)
  end.

(** A number [num / den * 2 ^ e2] read from the text, before rounding. *)
Record ratio := mkRatio { r_num : Z; r_den : Z; r_e2 : Z }.

(** [digits[.digits]] in base [base] followed by an exponent with marker
    [mark]: mantissa [m] with [nf] digits after the point, exponent [ex] and
    the rest; [None] when there is no digit. *)
Definition read_mantissa (dig : ascii → option Z) (base : Z) (mark : ascii) (s : string)
    : option (Z * nat * Z * string) :=
  let '(ip, ni, s1) := read_digits dig base 0 0 s in
  let '(m, nf, s2) :=
    match s1 with
    | String "." s1' => read_digits dig base ip 0 s1'
    | _ => (ip, 0, s1)
    end in
  match ni + nf with
  | 0 => None
  | S _ => let '(ex, s3) := read_exponent mark s2 in Some (m, nf, ex, s3)
  end.

Definition read_decimal (s : string) : option (ratio * string) :=
  match read_mantissa digit_of 10 "e" s with
  | None => None
  | Some (m, nf, ex, rest) =>
    let e10 := (ex - Z.of_nat nf)%Z in
    Some (if (0 <=? e10)%Z then mkRatio (m * 10 ^ e10) 1 0
          else mkRatio m (10 ^ (- e10)) 0, rest)
  end.

Definition read_hex (s : string) : option (ratio * string) :=
  match s with
  | String "0" (String x s') =>
    if Ascii.eqb (to_lower x) "x" then
      match read_mantissa hexdigit_of 16 "p" s' with
      | None => None
      | Some (m, nf, ex, rest) => Some (mkRatio m 1 (ex - 4 * Z.of_nat nf), rest)
      end
    else None
  | _ => None
  end.

(** [nan] with its optional [(n-char-sequence)]. *)
Fixpoint skip_nchars (s : string) : option string :=
  match s with
  | String c s' =>
    if Ascii.eqb c ")" then Some s'
    else
      let n := N_of_ascii (to_lower c) in
      if ((48 <=? n)%N && (n <=? 57)%N) || ((97 <=? n)%N && (n <=? 122)%N)
         || (n =? 95)%N
      then skip_nchars s' else None
  | EmptyString => None
  end.

Definition read_nan_tail (s : string) : string :=
  match s with
  | String "(" s' => match skip_nchars s' with Some r => r | None => s end
  | _ => s
  end.

Definition binary64 (m e : Z) (sign : bool) : spec_float :=
  binary_normalize prec emax m e sign.

(** Rounding to 53 bits with an exponent that never underflows or overflows,
    to tell whether a value is tiny. *)
Definition binary_wide (m e : Z) : spec_float :=
  binary_normalize prec (2 ^ 62) m e false.

(** [q] with a sticky bit: an integer [m'] and an exponent such that
    [m' * 2 ^ e'] rounds like [num / den * 2 ^ e2] at every precision up to
    some 1000 bits below the leading one, and whether it is that number. *)
Definition scaled (q : ratio) : Z * Z * bool :=
  if (r_den q =? 1)%Z then (r_num q, r_e2 q, true)
  else
    let s := (1080 + Z.log2 (r_den q) + 1)%Z in
    let '(d, r) := Z.div_eucl (r_num q * 2 ^ s) (r_den q) in
    if (r =? 0)%Z then (2 * d, r_e2 q - s - 1, true)%Z
    else (2 * d + 1, r_e2 q - s - 1, false)%Z.

(** Whether the float [x] is the number [m * 2 ^ e] ([m] not negative). *)
Definition sf_is (x : spec_float) (m e : Z) : bool :=
  match x with
  | S754_zero _ => (m =? 0)%Z
  | S754_finite _ mx ex =>
    if (e <=? ex)%Z then (Z.pos mx * 2 ^ (ex - e) =? m)%Z
    else (Z.pos mx =? m * 2 ^ (e - ex))%Z
  | _ => false
  end.

(** Smaller in magnitude than the least normal number [2 ^ -1022]. *)
Definition sf_tiny (x : spec_float) : bool :=
  match x with
  | S754_zero _ => true
  | S754_finite _ _ ex => (ex <? -1074)%Z
  | _ => false
  end.

(** The value [strtod] returns for [sign] and [q], and whether it sets
    [ERANGE]. *)
Definition round_ratio (sign : bool) (q : ratio) : spec_float * bool :=
  if (r_num q =? 0)%Z then (S754_zero sign, false)
  else
    let '(m, e, exact) := scaled q in
    let x := binary64 (cond_Zopp sign m) e sign in
    let inexact := negb (exact && sf_is x m e) in
    let overflow := match x with S754_infinity _ => true | _ => false end in
    (x, overflow || (sf_tiny (binary_wide m e) && inexact)).

Inductive strtod_result :=
| NoConversion
| Converted (x : spec_float) (erange : bool) (rest : string).

Definition strtod (s : string) : strtod_result :=
  let '(sign, s1) := read_sign (skip_space s) in
  match strip_keyword "infinity" s1 with
  | Some rest => Converted (S754_infinity sign) false rest
  | None =>
  match strip_keyword "inf" s1 with
  | Some rest => Converted (S754_infinity sign) false rest
  | None =>
  match strip_keyword "nan" s1 with
  | Some rest => Converted S754_nan false (read_nan_tail rest)
  | None =>
  match read_hex s1 with
  | Some (q, rest) => let '(x, er) := round_ratio sign q in Converted x er rest
  | None =>
  match read_decimal s1 with
  | Some (q, rest) => let '(x, er) := round_ratio sign q in Converted x er rest
  | None => NoConversion
  end end end end end.

(** What [std::stod] does: a value or an exception. *)
Inductive stod_result (R : Type) :=
| StodValue (v : R)
| StodThrows (x : exception).
Arguments StodValue {R}.
Arguments StodThrows {R}.

(** Number types that [std::stod] produces. *)
Class Stod (R : Type) := stod : string → stod_result R.

#[export] Instance double_stod : Stod float := λ s,
  match strtod s with
  | NoConversion => StodThrows invalid_argument
  | Converted _ true _ => StodThrows out_of_range
  | Converted x false _ => StodValue (SF2Prim x)
  end.

(** The amounts of a list of named amounts added up in list order, from
    [0.0]. *)
Definition list_total {R : Type} `{Arith R} (l : list (string * R)) : R :=
  foldl (λ acc kv, r_add acc kv.2) r_zero l.

(** [sum(m.values())]: the values added up in key order. *)
Definition sum_values {R : Type} `{Arith R} (m : gmap string R) : R :=
  list_total (items m).

(** ** Exact-split expenses *)

(** [pos = t.find(':')], [t.substr(0, pos)] and [t.substr(pos + 1)]: the
    text before and after the first colon; [None] when there is none. *)
Fixpoint split_colon (t : string) : option (string * string) :=
  match t with
  | EmptyString => None
  | String c t' =>
    if Ascii.eqb c ":" then Some (EmptyString, t')
    else match split_colon t' with
         | Some (n, v) => Some (String c n, v)
         | None => None
         end
  end.

Section Exact.
Context {R : Type} `{Arith R} `{Stod R}.

(** How the loop over the tokens ends. *)
Inductive tokens_result :=
| TokensOk (sh : gmap string R) (sumShares : R)
| TokensFail (e : error R)
| TokensThrow (x : exception).

(** The loop over the tokens of [addExpenseExact], from [e.shares = sh] and
    [sumShares = sum]. *)
Fixpoint exact_tokens (b : Book R) (tokens : list string)
    (sh : gmap string R) (sum : R) : tokens_result :=
  match tokens with
  | [] => TokensOk sh sum
  | t :: tokens' =>
    match split_colon t with
    | None => TokensFail (BadToken t)
    | Some (name, text) =>
      match stod text with
      | StodThrows x => TokensThrow x
      | StodValue s =>
        if negb (hasUser b name) then TokensFail (UnknownParticipant name)
        else exact_tokens b tokens' (map_add name s sh) (r_add sum s)
      end
    end
  end.

Definition addExpenseExact (b : Book R) (payer : string) (amount : R)
    (tokens : list string) : outcome R :=
  if negb (hasUser b payer) then Fail (UnknownPayer payer) b
  else match tokens with
  | [] => Fail NoShares b
  | _ =>
    match exact_tokens b tokens ∅ r_zero with
    | TokensFail e => Fail e b
    | TokensThrow x => Throw x b
    | TokensOk sh sumShares =>
      if r_gt (r_fabs (r_sub sumShares amount)) SHARE_TOL
      then Fail (ShareSum sumShares amount) b
      else Done (push_expense b (mkExpense payer amount sh))
    end
  end.

(** The tokens read as the specification describes them: each one a name and
    a decimal amount. [None] when a token has no colon or no number after
    it. *)
Fixpoint token_shares (tokens : list string) : option (list (string * R)) :=
  match tokens with
  | [] => Some []
  | t :: tokens' =>
    match split_colon t with
    | Some (name, text) =>
      match stod text, token_shares tokens' with
      | StodValue s, Some l => Some ((name, s) :: l)
      | _, _ => None
      end
    | None => None
    end
  end.

(** [sum(tokenShares)]: the shares added up in token order, from [0.0]. *)
Definition share_sum (l : list (string * R)) : R := list_total l.

(** The shares of an expense built from the tokens: equal names add up. *)
Definition exact_shares (l : list (string * R)) : gmap string R :=
  foldl (λ sh p, map_add p.1 p.2 sh) ∅ l.

(** [abs(sum - amount) > 0.01] *)
Definition share_mismatch (sum amount : R) : bool :=
  r_gt (r_fabs (r_sub sum amount)) SHARE_TOL.

End Exact.

(** ** Ledgers the operations can build *)

Inductive reachable {R : Type} `{Arith R} `{Stod R} : Book R → Prop :=
| reach_empty : reachable empty_book
| reach_addUser b u : reachable b → reachable (addUser b u)
| reach_equal b p a ps b' :
    reachable b → addExpenseEqual b p a ps = Done b' → reachable b'
| reach_exact b p a ts b' :
    reachable b → addExpenseExact b p a ts = Done b' → reachable b'.


(** Users A and B, no expense. *)
Definition book_ab : Book float := addUser (addUser empty_book "A") "B".


(** Users A and B; A pays 100 and B's exact share is given as 100.005. *)
Definition book_mismatch : Book float :=
  store_after (addExpenseExact book_ab "A" 100%float ["B:100.005"]).




(** ** Invariant of the matching loop

    [net] is the balance mapping [settle] starts from; the balances obtained
    by applying the transactions emitted so far are those the loop tracks in
    its nodes, and whoever has left the queues is within [EPS] of zero. *)
Record settle_inv {R : Type} `{Arith R} (net : gmap string R)
    (C D : list (Node R)) (txns : list (Txn R)) : Prop := {
  inv_nodup : NoDup (name <$> (C ++ D));
  inv_tracked :
    ∀ n, n ∈ C ++ D → foldl apply_txn net txns !! name n = Some (amt n);
  inv_left :
    ∀ u y, foldl apply_txn net txns !! u = Some y → u ∉ name <$> (C ++ D) →
           within_eps y = true;
  inv_cred : ∀ n, n ∈ C → r_gt (amt n) EPS = true;
  inv_debt : ∀ n, n ∈ D → r_lt (amt n) (r_neg EPS) = true;
  inv_started :
    ∀ n, n ∈ C ++ D → ∃ x, net !! name n = Some x ∧ within_eps x = false;
  inv_untouched :
    ∀ u x, net !! u = Some x → within_eps x = true →
           foldl apply_txn net txns !! u = Some x;
  inv_dom : dom (foldl apply_txn net txns) = dom net
}.

(** ** Text output: what [operator<<] writes *)

Definition digit_char (d : N) : ascii := ascii_of_N (48 + d).

(** The decimal digits of [n] put in front of [acc]; [fuel] bounds their
    number. *)
Fixpoint show_digits (fuel : nat) (n : N) (acc : string) : string :=
  match fuel with
  | 0 => acc
  | S fuel' =>
    let acc' := String (digit_char (n mod 10)) acc in
    if (n <? 10)%N then acc' else show_digits fuel' (n / 10) acc'
  end.

(** [out << n] for an unsigned integer. *)
Definition show_N (n : N) : string :=
  show_digits (S (N.to_nat (N.log2 n))) n EmptyString.

(** [m * 2 ^ e * 100] rounded to the nearest integer, ties to even. *)
Definition hundredths (m : positive) (e : Z) : N :=
  match e with
  | Z0 => N.pos m * 100
  | Z.pos p => N.pos m * 2 ^ N.pos p * 100
  | Z.neg p =>
    let d := (2 ^ N.pos p)%N in
    let q := (N.pos m * 100 / d)%N in
    let r := (N.pos m * 100 mod d)%N in
    match (2 * r ?= d)%N with
    | Lt => q
    | Gt => (q + 1)%N
    | Eq => if N.even q then q else (q + 1)%N
    end
  end%N.

(** [out << x] for a [double] after [out.setf(ios::fixed)] and
    [setprecision(2)], as [printf("%.2f")] writes it, for every [x] that is
    not a NaN. For a NaN the program writes nan or -nan after the sign bit
    of the NaN, which [spec_float] does not have: the text given here is the
    one for a NaN without sign, and what is proved of printed balances
    below is proved of balances that are not NaN. *)
Definition show_fixed2 (x : float) : string :=
  match Prim2SF x with
  | S754_nan => "nan"
  | S754_infinity s => if s then "-inf" else "inf"
  | S754_zero s => if s then "-0.00" else "0.00"
  | S754_finite s m e =>
    let h := hundredths m e in
    (if s then "-" else "") +:+ show_N (h / 100) +:+ "." +:+
    String (digit_char (h / 10 mod 10)) (String (digit_char (h mod 10)) EmptyString)
  end.

Definition newline : string := String (ascii_of_N 10) EmptyString.

(** What a loop writes that writes [f x] for each [x] of [l] in turn. *)
Fixpoint write_all {A} (f : A → string) (l : list A) : string :=
  match l with
  | [] => EmptyString
  | x :: l' => f x +:+ write_all f l'
  end.

(** The lines [save] writes for one expense. *)
Definition show_share (kv : string * float) : string :=
  kv.1 +:+ " " +:+ show_fixed2 kv.2 +:+ newline.

Definition show_expense (e : Expense float) : string :=
  "PAYER " +:+ payer e +:+ " AMT " +:+ show_fixed2 (amount e) +:+ newline +:+
  "SHARES " +:+ show_N (N.of_nat (size (shares e))) +:+ newline +:+
  write_all show_share (items (shares e)).

Definition show_user (u : string) : string := u +:+ newline.

(** The text [save] writes. An [unordered_set] is visited in an order the
    standard leaves open; here it is that of [elements]. *)
Definition save_text (b : Book float) : string :=
  "USERS " +:+ show_N (N.of_nat (size (users b))) +:+ newline +:+
  write_all show_user (elements (users b)) +:+
  "EXPENSES " +:+ show_N (N.of_nat (length (expenses b))) +:+ newline +:+
  write_all show_expense (expenses b).

(** [save]: [opened] tells whether the file could be opened for writing; the
    result is the outcome and the text written, if any. The store is not
    touched. *)
Definition save (b : Book float) (opened : bool) : outcome float * option string :=
  if opened then (Done b, Some (save_text b))
  else (Fail CannotOpenWrite b, None).

(** ** Text input: what [operator>>], [getline] and [ignore] read

    In [load] every failed read ends the call, and a read that succeeds
    leaves the stream good, or at the end of the file with nothing left to
    read. The stream is therefore modelled by the text that is left: a read
    on the empty text fails, as it does on a stream whose [eofbit] or
    [failbit] is set. *)

(** [in >> word]: white space is skipped, then the characters up to the next
    white space are taken. *)
Fixpoint take_word (s : string) : string * string :=
  match s with
  | EmptyString => (EmptyString, EmptyString)
  | String c s' =>
    if is_space c then (EmptyString, s)
    else let '(w, rest) := take_word s' in (String c w, rest)
  end.

Definition read_word (s : string) : option (string * string) :=
  match skip_space s with
  | EmptyString => None
  | s' => Some (take_word s')
  end.

(** [in >> n] for a [size_t]: an optional sign and decimal digits; a value
    above [2^64 - 1] fails, and a minus sign negates modulo [2^64]. *)
Definition read_size (s : string) : option (N * string) :=
  match skip_space s with
  | EmptyString => None
  | s1 =>
    let '(neg, s2) := read_sign s1 in
    match read_digits digit_of 10 0 0 s2 with
    | (_, 0, _) => None
    | (v, S _, rest) =>
      if (v <? 2 ^ 64)%Z
      then Some (Z.to_N (if neg then (- v) mod 2 ^ 64 else v), rest)
      else None
    end
  end.

Definition is_digit (c : ascii) : bool :=
  match digit_of c with Some _ => true | None => false end.

(** The characters [in >> x] takes for a [double] after the sign and the
    leading zeros: digits, one point, one exponent mark with its sign.
    [mant], [dec] and [sci] tell whether a digit, the point and the exponent
    mark have been seen. The result is the text taken and the text left. *)
Fixpoint float_chars (s : string) (mant dec sci : bool) : string * string :=
  match s with
  | EmptyString => (EmptyString, EmptyString)
  | String c s' =>
    if is_digit c then
      let '(a, r) := float_chars s' true dec sci in (String c a, r)
    else if Ascii.eqb c "." && negb dec && negb sci then
      let '(a, r) := float_chars s' mant true sci in (String c a, r)
    else if Ascii.eqb (to_lower c) "e" && negb sci && mant then
      match s' with
      | String c2 s'' =>
        if Ascii.eqb c2 "+" || Ascii.eqb c2 "-" then
          let '(a, r) := float_chars s'' mant dec true in
          (String "e" (String c2 a), r)
        else
          let '(a, r) := float_chars s' mant dec true in (String "e" a, r)
      | EmptyString => (String "e" EmptyString, EmptyString)
      end
    else (EmptyString, s)
  end.

(** Leading zeros are taken as one. *)
Fixpoint skip_zeros (s : string) : bool * string :=
  match s with
  | String c s' => if Ascii.eqb c "0" then (true, snd (skip_zeros s')) else (false, s)
  | EmptyString => (false, s)
  end.

(** [in >> x] for a [double]: the characters above are collected and given
    to [strtod], which has to use all of them; an infinite result fails. *)
Definition read_double (s : string) : option (float * string) :=
  match skip_space s with
  | EmptyString => None
  | s1 =>
    let '(sign, s2) :=
      match s1 with
      | String c s' =>
        if Ascii.eqb c "+" || Ascii.eqb c "-"
        then (String c EmptyString, s') else (EmptyString, s1)
      | EmptyString => (EmptyString, s1)
      end in
    let '(zero, s3) := skip_zeros s2 in
    let '(chars, rest) := float_chars s3 zero false false in
    match strtod (sign +:+ (if zero then "0" else "") +:+ chars) with
    | Converted (S754_infinity _) _ _ => None
    | Converted x _ EmptyString => Some (SF2Prim x, rest)
    | _ => None
    end
  end.

(** [in.ignore(max, '\n')]: the text after the first newline. *)
Fixpoint ignore_line (s : string) : string :=
  match s with
  | EmptyString => EmptyString
  | String c s' => if Ascii.eqb c (ascii_of_N 10) then s' else ignore_line s'
  end.

(** The characters up to the first newline, and the text after it. *)
Fixpoint take_line (s : string) : string * string :=
  match s with
  | EmptyString => (EmptyString, EmptyString)
  | String c s' =>
    if Ascii.eqb c (ascii_of_N 10) then (EmptyString, s')
    else let '(l, rest) := take_line s' in (String c l, rest)
  end.

(** The empty lines at the front of the text removed: what the iterations of
    the loop over the users do that read an empty [u] and do not count. *)
Fixpoint skip_empty_lines (s : string) : string :=
  match s with
  | String c s' => if Ascii.eqb c (ascii_of_N 10) then skip_empty_lines s' else s
  | EmptyString => s
  end.

(** The loop [for (i = 0; i < n; ++i)] over the user lines. At the end of
    the text [getline] fails and leaves [u] empty, the iteration does not
    count, and the loop never ends: [None]. *)
Fixpoint read_users (n : nat) (s : string) (us : gset string)
    : option (gset string * string) :=
  match n with
  | 0 => Some (us, s)
  | S n' =>
    match skip_empty_lines s with
    | EmptyString => None
    | s1 => let '(u, rest) := take_line s1 in read_users n' rest ({[u]} ∪ us)
    end
  end.

(** The loop over the [m] share lines of an expense: [None] for a corrupt
    entry. *)
Fixpoint read_shares (m : nat) (s : string) (sh : gmap string float)
    : option (gmap string float * string) :=
  match m with
  | 0 => Some (sh, s)
  | S m' =>
    match read_word s with
    | None => None
    | Some (name, s1) =>
      match read_double s1 with
      | None => None
      | Some (x, s2) => read_shares m' s2 (<[name := x]> sh)
      end
    end
  end.

(** The loop over the [n] expenses, from the store [b]. *)
Fixpoint read_expenses (n : nat) (s : string) (b : Book float) : outcome float :=
  match n with
  | 0 => Done b
  | S n' =>
    match read_word s with
    | None => Fail CorruptHeader b
    | Some (tag1, s1) =>
    match read_word s1 with
    | None => Fail CorruptHeader b
    | Some (payer, s2) =>
    match read_word s2 with
    | None => Fail CorruptHeader b
    | Some (tag2, s3) =>
    match read_double s3 with
    | None => Fail CorruptHeader b
    | Some (amt, s4) =>
      if negb (String.eqb tag1 "PAYER" && String.eqb tag2 "AMT")
      then Fail CorruptHeader b
      else
        match read_word s4 with
        | None => Fail CorruptSharesTag b
        | Some (tag3, s5) =>
        match read_size s5 with
        | None => Fail CorruptSharesTag b
        | Some (m, s6) =>
          if negb (String.eqb tag3 "SHARES") then Fail CorruptSharesTag b
          else
            match read_shares (N.to_nat m) s6 ∅ with
            | None => Fail CorruptShareEntry b
            | Some (sh, s7) =>
              read_expenses n' s7 (push_expense b (mkExpense payer amt sh))
            end
        end end
    end end end end
  end.

(** [load] on the text of the file. *)
Definition load_text (text : string) : outcome float :=
  let cleared : Book float := mkBook ∅ [] in
  match read_word text with
  | None => Fail CorruptUsers cleared
  | Some (tag, s1) =>
  match read_size s1 with
  | None => Fail CorruptUsers cleared
  | Some (n, s2) =>
    if negb (String.eqb tag "USERS") then Fail CorruptUsers cleared
    else
      match read_users (N.to_nat n) (ignore_line s2) ∅ with
      | None => Hang cleared
      | Some (us, s3) =>
        let b1 : Book float := mkBook us [] in
        match read_word s3 with
        | None => Fail CorruptExpenses b1
        | Some (tag', s4) =>
        match read_size s4 with
        | None => Fail CorruptExpenses b1
        | Some (k, s5) =>
          if negb (String.eqb tag' "EXPENSES") then Fail CorruptExpenses b1
          else read_expenses (N.to_nat k) s5 b1
        end end
      end
  end end.

(** [load]: [file] is the text of the file, [None] when it cannot be opened
    for reading. *)
Definition load (b : Book float) (file : option string) : outcome float :=
  match file with
  | None => Fail CannotOpenRead b
  | Some text => load_text text
  end.

(** Users A, B and C; A pays 10, split equally among the three. *)
Definition book_thirds : Book float :=
  store_after
    (addExpenseEqual (addUser book_ab "C") "A" 10%float ["A"; "B"; "C"]).


(** ** Ledgers that survive [save] and [load] *)

Fixpoint no_space (w : string) : bool :=
  match w with
  | EmptyString => true
  | String c w' => negb (is_space c) && no_space w'
  end.

(** A name [in >> name] reads back: not empty, no white space. *)
Definition is_word (w : string) : bool :=
  match w with EmptyString => false | _ => no_space w end.

Fixpoint no_newline (u : string) : bool :=
  match u with
  | EmptyString => true
  | String c u' => negb (Ascii.eqb c (ascii_of_N 10)) && no_newline u'
  end.

(** A user name [getline] reads back: not empty, on one line. *)
Definition is_line (u : string) : bool :=
  match u with EmptyString => false | _ => no_newline u end.

(** An amount that is read back as it was from its two decimals. *)
Definition two_decimal (x : float) : Prop :=
  read_double (show_fixed2 x) = Some (x, EmptyString).

Definition storable_share (kv : string * float) : Prop :=
  is_word kv.1 = true ∧ two_decimal kv.2.

Definition storable_expense (e : Expense float) : Prop :=
  is_word (payer e) = true ∧ two_decimal (amount e) ∧
  (N.of_nat (size (shares e)) < 2 ^ 64)%N ∧
  Forall storable_share (items (shares e)).

Definition storable (b : Book float) : Prop :=
  Forall (λ u, is_line u = true) (elements (users b)) ∧
  (N.of_nat (size (users b)) < 2 ^ 64)%N ∧
  (N.of_nat (length (expenses b)) < 2 ^ 64)%N ∧
  Forall storable_expense (expenses b).

(** One share line read: [e.shares[name] = s]. *)
Definition put_share (sh : gmap string float) (kv : string * float) : gmap string float :=
  <[kv.1 := kv.2]> sh.

(** Users A and B; A pays 12.50, of which B owes 7.25 and A 5.25. *)
Definition book_cents : Book float :=
  store_after (addExpenseExact book_ab "A" 12.5%float ["B:7.25"; "A:5.25"]).

(** ** Referential integrity and accumulated shares *)

(** Every payer and every participant of every expense is a user. *)
Definition well_formed {R : Type} (b : Book R) : Prop :=
  Forall (λ e, payer e ∈ users b ∧ dom (shares e) ⊆ users b) (expenses b).

(** How often [p] is named in [ps]. *)
Definition occurrences (p : string) (ps : list string) : nat :=
  length (filter (λ q, q = p) ps).

(** [x] added [k] times to [a], one addition after the other. *)
Definition added_up {R : Type} `{Arith R} (k : nat) (x a : R) : R :=
  Nat.iter k (λ acc, r_add acc x) a.

(** The amounts that [l] gives for the name [p], added to [a] in list
    order. *)
Definition named_total {R : Type} `{Arith R} (p : string) (l : list (string * R)) (a : R) : R :=
  foldl (λ acc kv, if decide (kv.1 = p) then r_add acc kv.2 else acc) a l.

(** Users A and B; A pays 1e-10 for B. *)
Definition book_tiny : Book float :=
  store_after (addExpenseEqual book_ab "A" 1e-10%float ["B"]).

(** ** Who pays whom *)

(** [u] goes to [cred]: the balance is [> EPS]. *)
Definition is_creditor {R : Type} `{Arith R} (net : gmap string R) (u : string) : Prop :=
  ∃ x, net !! u = Some x ∧ r_gt x EPS = true.

(** [u] goes to [debt]: the balance is not [> EPS] and is [< -EPS]. *)
Definition is_debtor {R : Type} `{Arith R} (net : gmap string R) (u : string) : Prop :=
  ∃ y, net !! u = Some y ∧ r_gt y EPS = false ∧ r_lt y (r_neg EPS) = true.

(** A transaction from a debtor to a creditor of [net], of more than
    [EPS]. *)
Definition sound_txn {R : Type} `{Arith R} (net : gmap string R) (t : Txn R) : Prop :=
  is_debtor net t.1.1 ∧ is_creditor net t.1.2 ∧ r_gt t.2 EPS = true.

(** ** Balances in closed form *)

(** What [u] paid: the amounts of the expenses whose payer [u] is. *)
Definition paid {R : Type} `{Arith R} (u : string) (es : list (Expense R)) : R :=
  foldr (λ e acc, r_add (if decide (payer e = u) then amount e else r_zero) acc) r_zero es.

(** What [u] owes: the shares of [u] in the expenses. *)
Definition owed {R : Type} `{Arith R} (u : string) (es : list (Expense R)) : R :=
  foldr (λ e acc, r_add (map_at (shares e) u) acc) r_zero es.

(** A token that [addExpenseExact] accepts for the ledger [b]: a name that is
    a user, a colon, and a text that [stod] converts. *)
Definition good_token {R : Type} `{Stod R} (b : Book R) (t : string) : Prop :=
  ∃ name text v, split_colon t = Some (name, text) ∧
                 stod text = StodValue v ∧ name ∈ users b.

(** ** The order of binary64 numbers *)

(** An integer that orders the binary64 numbers other than NaN as [<]
    does: [m * 2 ^ e] is scaled by [2 ^ 1074], which makes every finite number
    an integer, and the infinities lie outside all of these. *)
Definition sf_key (x : spec_float) : Z :=
  match x with
  | S754_zero _ | S754_nan => 0
  | S754_infinity s => cond_Zopp s (2 ^ 2100)
  | S754_finite s m e => cond_Zopp s (Z.pos m * 2 ^ (e + 1074))
  end.

Definition not_nan (n : Node float) : Prop := Prim2SF (amt n) ≠ S754_nan.

(** ** The command interpreter: [printBalances], [printTxns], [help], [main] *)

(** [m * 2 ^ e * k] rounded to the nearest integer, ties to even. *)
Definition scaled_units (k : N) (m : positive) (e : Z) : N :=
  match e with
  | Z0 => N.pos m * k
  | Z.pos p => N.pos m * 2 ^ N.pos p * k
  | Z.neg p =>
    let d := (2 ^ N.pos p)%N in
    let q := (N.pos m * k / d)%N in
    let r := (N.pos m * k mod d)%N in
    match (2 * r ?= d)%N with
    | Lt => q
    | Gt => (q + 1)%N
    | Eq => if N.even q then q else (q + 1)%N
    end
  end%N.

(** The last [n] decimal digits of [v], with leading zeros, in front of
    [acc]. *)
Fixpoint fixed_digits (n : nat) (v : N) (acc : string) : string :=
  match n with
  | 0 => acc
  | S n' => fixed_digits n' (v / 10) (String (digit_char (v mod 10)) acc)
  end.

(** [std::to_string(double)], which is [printf("%f")]: six decimals. The sign
    of a NaN is left out, as in [show_fixed2]. *)
Definition to_string (x : float) : string :=
  match Prim2SF x with
  | S754_nan => "nan"
  | S754_infinity s => if s then "-inf" else "inf"
  | S754_zero s => if s then "-0.000000" else "0.000000"
  | S754_finite s m e =>
    let h := scaled_units 1000000 m e in
    (if s then "-" else "") +:+ show_N (h / 1000000) +:+ "." +:+
    fixed_digits 6 (h mod 1000000) EmptyString
  end.

(** The text [err] is set to. *)
Definition err_text (e : error float) : string :=
  match e with
  | UnknownPayer p => "Unknown payer: " +:+ p
  | NoParticipants => "No participants."
  | UnknownParticipant p => "Unknown participant: " +:+ p
  | NoShares => "No shares provided."
  | BadToken t => "Bad token '" +:+ t +:+ "', expected name:amount"
  | ShareSum s a =>
    "Share sum (" +:+ to_string s +:+ ") != amount (" +:+ to_string a +:+ ")"
  | CannotOpenWrite => "Cannot open file for writing."
  | CannotOpenRead => "Cannot open file for reading."
  | CorruptUsers => "Corrupt file (USERS)."
  | CorruptExpenses => "Corrupt file (EXPENSES)."
  | CorruptHeader => "Corrupt expense header."
  | CorruptSharesTag => "Corrupt shares tag."
  | CorruptShareEntry => "Corrupt share entry."
  end.

Fixpoint spaces (n : nat) : string :=
  match n with
  | 0 => EmptyString
  | S n' => String " " (spaces n')
  end.

(** [cout << setw(w) << left << s]: [s] followed by the spaces that fill it up
    to [w] characters; a longer [s] is written as it is. *)
Definition left_in (w : nat) (s : string) : string :=
  s +:+ spaces (w - String.length s).

(** One line of [printBalances]: a balance within [EPS] of zero is written
    as 0.0. *)
Definition show_balance (kv : string * float) : string :=
  "  " +:+ left_in 12 kv.1 +:+ " : " +:+
  show_fixed2 (if r_lt (r_fabs kv.2) EPS then 0%float else kv.2) +:+ newline.

Definition printBalances (net : gmap string float) : string :=
  "Balances (+ receive, - pay)" +:+ newline +:+ write_all show_balance (items net).

Definition show_txn (t : Txn float) : string :=
  "  " +:+ t.1.1 +:+ " -> " +:+ t.1.2 +:+ " : " +:+ show_fixed2 t.2 +:+ newline.

Definition printTxns (txns : list (Txn float)) : string :=
  match txns with
  | [] => "Everyone is settled." +:+ newline
  | _ => "Settlement transactions:" +:+ newline +:+ write_all show_txn txns
  end.

(** What [help] writes. *)
Definition help_text : string :=
  write_all (λ l, l +:+ newline)
    ["Commands:";
     "  add-user <name>";
     "  add-expense equal <payer> <amount> <p1> <p2> ...";
     "  add-expense exact <payer> <amount> <name1:share1> <name2:share2> ...";
     "  balances";
     "  settle";
     "  save <file>";
     "  load <file>";
     "  help";
     "  exit"].

(** [while (ss >> p) parts.push_back(p)]: the words of the text. Every word
    read takes a character at least, so as many iterations as the text has
    characters suffice (see [read_words_fuel_enough]). *)
Fixpoint read_words_fuel (fuel : nat) (s : string) : list string :=
  match fuel with
  | 0 => []
  | S fuel' =>
    match read_word s with
    | None => []
    | Some (w, rest) => w :: read_words_fuel fuel' rest
    end
  end.

Definition read_words (s : string) : list string :=
  read_words_fuel (String.length s) s.

(** The lines that successive calls of [getline(cin, line)] return: the
    pieces between the newlines, without a last piece that is empty. *)
Fixpoint split_lines (s : string) : list string :=
  match s with
  | EmptyString => []
  | String c s' =>
    if Ascii.eqb c (ascii_of_N 10) then EmptyString :: split_lines s'
    else match split_lines s' with
         | [] => [String c EmptyString]
         | l :: ls => String c l :: ls
         end
  end.

(** What the program can see and change: the ledger and the files, each file
    a path and a text. *)
Record World := mkWorld {
  book : Book float;
  files : gmap string string
}.

(** How the body of the loop of [main] ends for one line: the next
    iteration, with what was written to [cout]; [break]; an exception that
    nothing catches; a call that never returns. *)
Inductive step :=
| Next (w : World) (out : string)
| Break
| Abort (x : exception)
| Stuck.

(** How [main] ends. What was written before an exception ended the
    program is not recorded: [cout] is buffered and not flushed then. *)
Inductive run_result :=
| Finished (w : World) (out : string)
| Aborted (x : exception)
| Never.

Section CLI.

(** Whether [ofstream out(path)] opens the file: a matter of the file
    system, left open here. *)
Variable can_write : string → bool.

(** The value of [double amount;] when [ss >> amount] has not read one: the
    variable is not initialised, and a conversion that fails stores 0.0 or
    the largest [double]. Whatever it is, nothing depends on it (see
    [unread_amount_is_not_used]). *)
Variable junk : float.

(** [ss >> payer >> amount;] and the loop that reads the participants or
    tokens. A read that fails leaves the stream failed, and every later
    read fails as well. *)
Definition read_expense_args (s : string) : string * float * list string :=
  match read_word s with
  | None => (EmptyString, junk, [])
  | Some (p, s1) =>
    match read_double s1 with
    | None => (p, junk, [])
    | Some (a, s2) => (p, a, read_words s2)
    end
  end.

(** [if (!book.add...(.., err)) cout << "Error: " << err << "\n"; else
    cout << ok;] and the same for [save] and [load]. *)
Definition report (fs : gmap string string) (ok : string) (o : outcome float) : step :=
  match o with
  | Done b => Next (mkWorld b fs) ok
  | Fail e b => Next (mkWorld b fs) ("Error: " +:+ err_text e +:+ newline)
  | Throw x _ => Abort x
  | Hang _ => Stuck
  end.

(** [string file; ss >> file;] *)
Definition read_file_name (s : string) : string :=
  match read_word s with
  | Some (f, _) => f
  | None => EmptyString
  end.

(** The body of the loop for a line that is not empty. *)
Definition exec_line (w : World) (line : string) : step :=
  let '(cmd, rest) :=
    match read_word line with
    | Some (c, r) => (c, r)
    | None => (EmptyString, EmptyString)
    end in
  if String.eqb cmd "exit" || String.eqb cmd "quit" then Break
  else if String.eqb cmd "help" then Next w help_text
  else if String.eqb cmd "add-user" then
    let name0 := (take_line rest).1 in
    let name :=
      match name0 with
      | String c n => if Ascii.eqb c " " then n else name0
      | EmptyString => name0
      end in
    match name with
    | EmptyString => Next w ("Usage: add-user <name>" +:+ newline)
    | _ => Next (mkWorld (addUser (book w) name) (files w))
                ("Added user: " +:+ name +:+ newline)
    end
  else if String.eqb cmd "add-expense" then
    let type :=
      match read_word rest with
      | Some (t, r) => (t, r)
      | None => (EmptyString, EmptyString)
      end in
    if String.eqb type.1 "equal" then
      let '(p, a, parts) := read_expense_args type.2 in
      report (files w) ("Added equal expense." +:+ newline)
             (addExpenseEqual (book w) p a parts)
    else if String.eqb type.1 "exact" then
      let '(p, a, tokens) := read_expense_args type.2 in
      report (files w) ("Added exact expense." +:+ newline)
             (addExpenseExact (book w) p a tokens)
    else Next w ("Usage: add-expense equal|exact ...  (see 'help')" +:+ newline)
  else if String.eqb cmd "balances" then
    Next w (printBalances (computeNet (book w)))
  else if String.eqb cmd "settle" then
    match settle (book w) with
    | Some txns => Next w (printTxns txns)
    | None => Stuck
    end
  else if String.eqb cmd "save" then
    let file := read_file_name rest in
    match file with
    | EmptyString => Next w ("Usage: save <file>" +:+ newline)
    | _ =>
      let '(o, written) := save (book w) (can_write file) in
      let fs :=
        match written with
        | Some text => <[file := text]> (files w)
        | None => files w
        end in
      report fs ("Saved to " +:+ file +:+ newline) o
    end
  else if String.eqb cmd "load" then
    let file := read_file_name rest in
    match file with
    | EmptyString => Next w ("Usage: load <file>" +:+ newline)
    | _ =>
      report (files w) ("Loaded from " +:+ file +:+ newline)
             (load (book w) (files w !! file))
    end
  else Next w ("Unknown command. Type 'help'." +:+ newline).

(** The loop of [main] on the lines that are left, [out] being what has been
    written so far. *)
Fixpoint run (w : World) (lines : list string) (out : string) : run_result :=
  let out := out +:+ "> " in
  match lines with
  | [] => Finished w (out +:+ "Bye!" +:+ newline)
  | line :: lines' =>
    match line with
    | EmptyString => run w lines' out
    | _ =>
      match exec_line w line with
      | Next w' o => run w' lines' (out +:+ o)
      | Break => Finished w (out +:+ "Bye!" +:+ newline)
      | Abort x => Aborted x
      | Stuck => Never
      end
    end
  end.

(** [main] on the text of the standard input, with the files [fs]. *)
Definition main (fs : gmap string string) (input : string) : run_result :=
  run (mkWorld empty_book fs) (split_lines input)
      ("Splitwise-CLI (C++). Type 'help' for commands." +:+ newline).

End CLI.

(** A session: two users, an expense, the balances and the settlement. *)
Definition session_abc : string :=
  write_all (λ l, l +:+ newline)
    ["add-user A"; "add-user B"; "add-expense equal A 90 A B";
     "balances"; "settle"; "save ledger.txt"; "exit"; "add-user C"].

(** The names of a ledger as the interpreter reads them: every user name is
    a line, every payer and participant name a word. *)
Definition plain_names (b : Book float) : Prop :=
  (∀ u, u ∈ users b → is_line u = true) ∧
  Forall (λ e, is_word (payer e) = true ∧ ∀ k, k ∈ dom (shares e) → is_word k = true)
         (expenses b).

(** [y] is not on the other side of zero from [x]: not below zero unless [x]
    is, and not above zero unless [x] is. *)
Definition not_past_zero (x y : float) : Prop :=
  ((x <? 0)%float = false → (y <? 0)%float = false) ∧
  ((0 <? x)%float = false → (0 <? y)%float = false).

(** ** The number a [double] stands for, and runs without rounding *)

(** A finite [double] in units of [2 ^ -1074], the smallest positive one. *)
Definition units (x : float) : Z := sf_key (Prim2SF x).

(** [std::isfinite]: a zero or a finite number, no infinity and no NaN. *)
Definition is_finite (x : float) : bool :=
  match Prim2SF x with
  | S754_zero _ | S754_finite _ _ _ => true
  | S754_infinity _ | S754_nan => false
  end.

(** The rational number that a finite [x] stands for, [m * 2 ^ e]. It is
    used of finite numbers only. *)
Definition value (x : float) : Qc := Q2Qc (Qmake (units x) (Z.to_pos (2 ^ 1074))).

(** [x + y] is computed without rounding: the operands and the result are
    finite, and the result stands for the sum of what the operands stand
    for. *)
Definition exact_add (x y : float) : bool :=
  is_finite x && is_finite y && is_finite (x + y) &&
  (units (x + y) =? units x + units y)%Z.

(** [x - y] is computed without rounding. *)
Definition exact_sub (x y : float) : bool :=
  is_finite x && is_finite y && is_finite (x - y) &&
  (units (x - y) =? units x - units y)%Z.

(** The body of the loop of [computeNet] for the expense [e], on the
    balances [net], rounds nowhere: not in [net[e.payer] += e.amount], and in
    no [net[kv.first] -= kv.second]. *)
Definition exact_expense (net : gmap string float) (e : Expense float) : bool :=
  exact_add (map_at net (payer e)) (amount e) &&
  forallb (λ kv, exact_sub (map_at (map_add (payer e) (amount e) net) kv.1) kv.2)
          (items (shares e)).

(** The loop of [computeNet] over the expenses [es], from the balances
    [net], rounds nowhere. *)
Fixpoint exact_fold (net : gmap string float) (es : list (Expense float)) : bool :=
  match es with
  | [] => true
  | e :: es' => exact_expense net e && exact_fold (apply_expense net e) es'
  end.

(** [computeNet] runs on the ledger [b] without rounding. *)
Definition no_rounding (b : Book float) : bool :=
  exact_fold (gset_to_gmap 0%float (users b)) (expenses b).

(** An expense and a ledger with every amount replaced by the number it
    stands for. *)
Definition expense_value (e : Expense float) : Expense Qc :=
  mkExpense (payer e) (value (amount e)) (value <$> shares e).

Definition book_value (b : Book float) : Book Qc :=
  mkBook (users b) (expense_value <$> expenses b).



(** * Properties of the embedding *)

(** ** Order and sign of binary64 sums and differences *)

Section FloatOrder.
Local Open Scope Z_scope.

Lemma digits2_pos_bounds (m : positive) :
  2 ^ (Z.pos (digits2_pos m) - 1) <= Z.pos m < 2 ^ Z.pos (digits2_pos m).
Proof.
  induction m as [m IH|m IH|]; simpl digits2_pos.
  - rewrite Pos2Z.inj_succ, (Pos2Z.inj_xI m).
    replace (Z.succ (Z.pos (digits2_pos m)) - 1) with (Z.succ (Z.pos (digits2_pos m) - 1)) by lia.
    rewrite !Z.pow_succ_r by lia.
    generalize dependent (2 ^ (Z.pos (digits2_pos m) - 1)).
    generalize (2 ^ Z.pos (digits2_pos m)). intros; lia.
  - rewrite Pos2Z.inj_succ, (Pos2Z.inj_xO m).
    replace (Z.succ (Z.pos (digits2_pos m)) - 1) with (Z.succ (Z.pos (digits2_pos m) - 1)) by lia.
    rewrite !Z.pow_succ_r by lia.
    generalize dependent (2 ^ (Z.pos (digits2_pos m) - 1)).
    generalize (2 ^ Z.pos (digits2_pos m)). intros; lia.
  - simpl. lia.
Qed.

Lemma iter_xO_pow (m d : positive) : Z.pos (Pos.iter xO m d) = Z.pos m * 2 ^ Z.pos d.
Proof.
  induction d as [|d IH] using Pos.peano_ind.
  - simpl. lia.
  - rewrite Pos.iter_succ, Pos2Z.inj_xO, IH, Pos2Z.inj_succ, Z.pow_succ_r by lia. lia.
Qed.

(** The mantissa of [m * 2 ^ e] written with the exponent [e' <= e]. *)
Lemma shl_align_value (m : positive) (e e' : Z) :
  e' <= e → Z.pos (fst (shl_align m e e')) = Z.pos m * 2 ^ (e - e').
Proof.
  intros Hle. unfold shl_align. destruct (e' - e) as [|p|p] eqn:E.
  - replace (e - e') with 0 by lia. simpl. lia.
  - lia.
  - simpl. rewrite iter_xO_pow. f_equal. f_equal. lia.
Qed.

(** Of two valid binary64 numbers the one with the smaller exponent is the
    smaller one. *)
Lemma bounded_exponent_lt (m1 m2 : positive) (e1 e2 : Z) :
  bounded prec emax m1 e1 = true → bounded prec emax m2 e2 = true → e1 < e2 →
  Z.pos m1 < Z.pos m2 * 2 ^ (e2 - e1).
Proof.
  unfold bounded, canonical_mantissa, fexp, SpecFloat.emin, prec, emax.
  intros [Hc1 _]%andb_prop [Hc2 _]%andb_prop Hlt.
  apply Z.eqb_eq in Hc1, Hc2.
  pose proof (digits2_pos_bounds m1) as [_ Hm1].
  pose proof (digits2_pos_bounds m2) as [Hm2 _].
  assert (Hd1 : Z.pos (digits2_pos m1) <= 53) by lia.
  assert (Hd2 : Z.pos (digits2_pos m2) = 53) by lia.
  rewrite Hd2 in Hm2.
  assert (2 ^ Z.pos (digits2_pos m1) <= 2 ^ 53) by (apply Z.pow_le_mono_r; lia).
  assert (2 ^ 1 <= 2 ^ (e2 - e1)) by (apply Z.pow_le_mono_r; lia).
  change (2 ^ (53 - 1)) with 4503599627370496 in Hm2.
  change (2 ^ 53) with 9007199254740992 in *. change (2 ^ 1) with 2 in *.
  nia.
Qed.

(** Comparing two valid positive numbers is comparing their mantissas once
    these are written with the same exponent. *)
Lemma aligned_compare (m1 m2 : positive) (e1 e2 : Z) :
  bounded prec emax m1 e1 = true → bounded prec emax m2 e2 = true →
  (Z.pos (fst (shl_align m1 e1 (Z.min e1 e2))) ?=
   Z.pos (fst (shl_align m2 e2 (Z.min e1 e2)))) =
  match e1 ?= e2 with
  | Lt => Lt
  | Gt => Gt
  | Eq => Pos.compare_cont Eq m1 m2
  end.
Proof.
  intros Hb1 Hb2. rewrite !shl_align_value by lia.
  destruct (e1 ?= e2) eqn:E.
  - apply Z.compare_eq in E. subst e2. rewrite Z.min_id, Z.sub_diag, Z.pow_0_r.
    by rewrite !Z.mul_1_r.
  - change (e1 < e2) in E. rewrite Z.min_l, Z.sub_diag, Z.pow_0_r, Z.mul_1_r by lia.
    apply (bounded_exponent_lt _ _ _ _ Hb1 Hb2 E).
  - apply Z.compare_gt_iff in E. change (e2 < e1) in E.
    rewrite Z.min_r, Z.sub_diag, Z.pow_0_r, Z.mul_1_r by lia.
    apply Z.compare_gt_iff. apply (bounded_exponent_lt _ _ _ _ Hb2 Hb1 E).
Qed.

(** Rounding keeps the sign. *)
Lemma binary_round_sign (s : bool) (m : positive) (e : Z) :
  match binary_round prec emax s m e with
  | S754_zero s' | S754_infinity s' | S754_finite s' _ _ => s' = s
  | S754_nan => True
  end.
Proof.
  unfold binary_round, binary_round_aux.
  destruct (shl_align m e _) as [mz ez].
  destruct (shr_fexp _ _ _ _ _) as [mrs' e'].
  destruct (shr_fexp _ _ _ _ _) as [mrs'' e''].
  destruct (shr_m mrs''); [done| |done].
  by destruct (_ <=? _).
Qed.

Lemma binary_normalize_not_neg (z e : Z) :
  0 <= z → sf_not_neg (binary_normalize prec emax z e false) = true.
Proof.
  intros Hz. destruct z as [|p|p]; simpl; [done| |lia].
  pose proof (binary_round_sign false p e) as Hs.
  by destruct (binary_round prec emax false p e) as [[]|[]| |[] ? ?].
Qed.

Lemma binary_normalize_not_pos (z e : Z) :
  z <= 0 → sf_not_pos (binary_normalize prec emax z e false) = true.
Proof.
  intros Hz. destruct z as [|p|p]; simpl; [done|lia|].
  pose proof (binary_round_sign true p e) as Hs.
  by destruct (binary_round prec emax true p e) as [[]|[]| |[] ? ?].
Qed.

(** What a comparison of integers says, in a form [lia] reads. *)
Lemma Z_compare_cases (a b : Z) :
  match a ?= b with Lt => a < b | Eq => a = b | Gt => b < a end.
Proof. destruct (Z.compare_spec a b); lia. Qed.

(** [x - y] is not negative when [y < x]. *)
Lemma SFsub_not_neg (x y : spec_float) :
  valid_binary x = true → valid_binary y = true →
  SFltb y x = true → sf_not_neg (SF64sub x y) = true.
Proof.
  intros Hx Hy. unfold SFltb.
  destruct x as [sx|sx| |sx mx ex], y as [sy|sy| |sy my ey]; simpl;
    try done; try (by destruct sx, sy).
  simpl in Hx, Hy. intros Hlt. apply binary_normalize_not_neg.
  pose proof (aligned_compare my mx ey ex Hy Hx) as Hyx.
  rewrite (Z.min_comm ey ex) in Hyx.
  pose proof (Z_compare_cases (Z.pos (shl_align my ey (Z.min ex ey)).1)
                (Z.pos (shl_align mx ex (Z.min ex ey)).1)) as Hc.
  rewrite Hyx in Hc. clear Hyx.
  pose proof (Pos2Z.is_pos (shl_align my ey (Z.min ex ey)).1) as Hay.
  pose proof (Pos2Z.is_pos (shl_align mx ex (Z.min ex ey)).1) as Hax.
  generalize dependent (Z.pos (shl_align my ey (Z.min ex ey)).1).
  generalize dependent (Z.pos (shl_align mx ex (Z.min ex ey)).1).
  intros ax Hax ay Hc Hay.
  destruct sx, sy; simpl in *; try done; try lia;
    destruct (ey ?= ex); try done;
    destruct (Pos.compare_cont Eq my mx); simpl in *; try done; lia.
Qed.

(** [d + c] is not positive unless [-d < c]. *)
Lemma SFadd_not_pos (d c : spec_float) :
  valid_binary d = true → valid_binary c = true →
  SFltb (SFopp d) c = false → sf_not_pos (SF64add d c) = true.
Proof.
  intros Hd Hc. unfold SFltb.
  destruct d as [sd|sd| |sd md ed], c as [sc|sc| |sc mc ec]; simpl;
    try done; try (by destruct sd, sc).
  simpl in Hd, Hc. intros Hlt. apply binary_normalize_not_pos.
  pose proof (aligned_compare md mc ed ec Hd Hc) as Hdc.
  pose proof (Z_compare_cases (Z.pos (shl_align md ed (Z.min ed ec)).1)
                (Z.pos (shl_align mc ec (Z.min ed ec)).1)) as Hcmp.
  rewrite Hdc in Hcmp. clear Hdc.
  pose proof (Pos2Z.is_pos (shl_align md ed (Z.min ed ec)).1) as Had.
  pose proof (Pos2Z.is_pos (shl_align mc ec (Z.min ed ec)).1) as Hac.
  generalize dependent (Z.pos (shl_align md ed (Z.min ed ec)).1).
  generalize dependent (Z.pos (shl_align mc ec (Z.min ed ec)).1).
  intros ac Hac ad Hcmp Had.
  destruct sd, sc; simpl in *; try done; try lia;
    destruct (ed ?= ec); try done;
    destruct (Pos.compare_cont Eq md mc); simpl in *; try done; lia.
Qed.

Lemma SFltb_not_neg (x : spec_float) (m : positive) (e : Z) :
  sf_not_neg x = true → SFltb x (S754_finite true m e) = false.
Proof. by destruct x as [[]|[]| |[] ? ?]. Qed.

Lemma SFltb_not_pos (x : spec_float) (m : positive) (e : Z) :
  sf_not_pos x = true → SFltb (S754_finite false m e) x = false.
Proof. by destruct x as [[]|[]| |[] ? ?]. Qed.

(** [x < -y] gives [y < -x], for a positive [y]. *)
Lemma SFltb_opp_swap (x : spec_float) (m : positive) (e : Z) :
  SFltb x (S754_finite true m e) = true →
  SFltb (S754_finite false m e) (SFopp x) = true.
Proof.
  unfold SFltb. destruct x as [[]|[]| |[] mx ex]; simpl; try done.
  rewrite (Z.compare_antisym ex e), (Pos.compare_cont_antisym mx m Eq).
  destruct (ex ?= e); simpl; try done.
Qed.

End FloatOrder.

(** ** binary64 satisfies [SettleLaws] *)

Lemma SFsub_diag (x : spec_float) :
  SF64sub x x = S754_nan ∨ ∃ s, SF64sub x x = S754_zero s.
Proof.
  destruct x as [s|s| |s m e]; simpl.
  - right. destruct s; eexists; reflexivity.
  - left. destruct s; reflexivity.
  - now left.
  - right. exists false. unfold SF64sub, SFsub. rewrite Z.sub_diag. reflexivity.
Qed.

Lemma cond_Zopp_negb (s : bool) (z : Z) :
  (cond_Zopp s z + cond_Zopp (negb s) z = 0)%Z.
Proof. destruct s; simpl; lia. Qed.

Lemma SFadd_opp (x : spec_float) :
  SF64add x (SFopp x) = S754_nan ∨ ∃ s, SF64add x (SFopp x) = S754_zero s.
Proof.
  destruct x as [s|s| |s m e]; simpl.
  - right. destruct s; eexists; reflexivity.
  - left. destruct s; reflexivity.
  - now left.
  - right. exists false. unfold SF64add, SFadd. rewrite cond_Zopp_negb. reflexivity.
Qed.

(** [EPS] and [-EPS] as mantissa and exponent. *)
Lemma Prim2SF_EPS : Prim2SF 1e-6 = S754_finite false 4722366482869645 (-72).
Proof. vm_compute. reflexivity. Qed.

Lemma Prim2SF_neg_EPS : Prim2SF (- 1e-6) = S754_finite true 4722366482869645 (-72).
Proof. vm_compute. reflexivity. Qed.

(** A NaN and both zeros are neither [> EPS] nor [< -EPS]. *)
Lemma double_within_eps_nan_zero (x : float) :
  Prim2SF x = S754_nan ∨ (∃ s, Prim2SF x = S754_zero s) →
  within_eps x = true.
Proof.
  intros Hx. unfold within_eps, r_gt, r_lt, r_neg, EPS; simpl.
  rewrite !ltb_spec, Prim2SF_EPS, Prim2SF_neg_EPS.
  destruct Hx as [-> | [s ->]]; [reflexivity|].
  destruct s; reflexivity.
Qed.

#[export] Instance double_settle_laws : SettleLaws float.
Proof.
  split.
  - intros x. apply double_within_eps_nan_zero; simpl.
    rewrite sub_spec. apply SFsub_diag.
  - intros x. apply double_within_eps_nan_zero; simpl.
    rewrite add_spec, opp_spec. apply SFadd_opp.
  - intros c d. unfold r_min, r_lt, r_sub, r_neg, EPS; simpl.
    destruct (- d <? c)%float eqn:E; rewrite ltb_spec, sub_spec, Prim2SF_neg_EPS.
    + rewrite ltb_spec in E. apply SFltb_not_neg, SFsub_not_neg; [apply Prim2SF_valid..|done].
    + destruct (SFsub_diag (Prim2SF c)) as [-> | [s ->]]; [done|by destruct s].
  - intros c d. unfold r_min, r_gt, r_lt, r_add, r_neg, EPS; simpl.
    destruct (- d <? c)%float eqn:E; rewrite ltb_spec, add_spec, Prim2SF_EPS.
    + rewrite opp_spec.
      destruct (SFadd_opp (Prim2SF d)) as [-> | [s ->]]; [done|by destruct s].
    + rewrite ltb_spec, opp_spec in E.
      apply SFltb_not_pos, SFadd_not_pos; [apply Prim2SF_valid..|done].
  - intros d. unfold r_gt, r_lt, r_neg, EPS; simpl.
    rewrite !ltb_spec, opp_spec, Prim2SF_EPS, Prim2SF_neg_EPS.
    apply SFltb_opp_swap.
  - intros x. unfold r_gt, r_lt, r_neg, EPS; simpl.
    rewrite !ltb_spec, Prim2SF_EPS, Prim2SF_neg_EPS.
    unfold SFltb. by destruct (Prim2SF x) as [[]|[]| |[] ? ?].
Qed.

(** Linear arithmetic on [Qc], by way of [Q]. *)
Ltac qc_lra :=
  unfold Qcle, Qclt, Qcminus, Qcplus, Qcopp, Q2Qc in *; simpl this in *;
  rewrite ?Qred_correct in *; lra.

Lemma Qc_ltb_lt (a b : Qc) : Qc_ltb a b = true ↔ (a < b)%Qc.
Proof.
  unfold Qc_ltb. rewrite Qclt_alt. destruct (a ?= b)%Qc; split; congruence.
Qed.

Lemma Qc_ltb_ge (a b : Qc) : Qc_ltb a b = false ↔ (b <= a)%Qc.
Proof.
  rewrite <- not_true_iff_false, Qc_ltb_lt. split.
  - apply Qcnot_lt_le.
  - intros Hle Hlt. by apply (Qcle_not_lt _ _ Hle).
Qed.

(** ** The priority queues *)

Section Queue.
Context {R : Type} `{Arith R}.

Lemma pq_extract_perm (cmp : Node R → Node R → bool) (q : list (Node R)) :
  ∀ x m r, pq_extract cmp x q = (m, r) → x :: q ≡ₚ m :: r.
Proof.
  induction q as [|y q IH]; intros x m r; simpl.
  - intros [= <- <-]. reflexivity.
  - destruct (cmp x y).
    + destruct (pq_extract cmp y q) as [m' r'] eqn:E. intros [= <- <-].
      rewrite (IH _ _ _ E). apply Permutation_swap.
    + destruct (pq_extract cmp x q) as [m' r'] eqn:E. intros [= <- <-].
      rewrite (Permutation_swap y x q), (IH _ _ _ E). apply Permutation_swap.
Qed.

Lemma pq_pop_perm (cmp : Node R → Node R → bool) (q : list (Node R)) x q' :
  pq_pop cmp q = Some (x, q') → q ≡ₚ x :: q'.
Proof.
  destruct q as [|y q]; simpl; [discriminate|].
  intros [= E]. by apply pq_extract_perm in E.
Qed.

Lemma pq_pop_length (cmp : Node R → Node R → bool) (q : list (Node R)) x q' :
  pq_pop cmp q = Some (x, q') → length q = S (length q').
Proof. intros E. by rewrite (pq_pop_perm _ _ _ _ E). Qed.

Lemma pq_pop_None (cmp : Node R → Node R → bool) (q : list (Node R)) :
  pq_pop cmp q = None ↔ q = [].
Proof. destruct q; simpl; split; congruence. Qed.

Lemma pq_push_length (x : Node R) (q : list (Node R)) :
  length (pq_push x q) = S (length q).
Proof. unfold pq_push. rewrite length_app. simpl. lia. Qed.

End Queue.

(** ** The matching loop *)

Section Loop.
Context {R : Type} `{SettleLaws R}.

Lemma within_eps_not_gt (x : R) : within_eps x = true → r_gt x EPS = false.
Proof. unfold within_eps. destruct (r_gt x EPS); [discriminate|done]. Qed.

Lemma within_eps_not_lt (x : R) : within_eps x = true → r_lt x (r_neg EPS) = false.
Proof.
  unfold within_eps. destruct (r_lt x (r_neg EPS)); [|done].
  rewrite andb_false_r. discriminate.
Qed.

(** The payment settles the creditor or the debtor. *)
Lemma r_min_settles (a d : R) :
  let pay := r_min a (r_neg d) in
  within_eps (r_sub a pay) = true ∨ within_eps (r_add d pay) = true.
Proof.
  unfold r_min. destruct (r_lt (r_neg d) a).
  - right. apply add_neg_within.
  - left. apply sub_self_within.
Qed.

(** One iteration: the node that the payment settles is not pushed back. *)
Lemma settle_step_spec (c d : Node R) (C D : list (Node R)) (txns : list (Txn R)) :
  let pay := r_min (amt c) (r_neg (amt d)) in
  ∃ C' D' txns',
    settle_step c d C D txns = (C', D', txns') ∧
    ((within_eps (r_sub (amt c) pay) = true ∧ C' = C) ∨
     (within_eps (r_add (amt d) pay) = true ∧ D' = D)) ∧
    length C' ≤ S (length C) ∧ length D' ≤ S (length D) ∧
    length txns' ≤ S (length txns).
Proof.
  intros pay. unfold settle_step. fold pay. simpl. eexists _, _, _.
  split; [reflexivity|]. split; [|split; [|split]].
  - destruct (r_min_settles (amt c) (amt d)) as [Hc|Hd]; [fold pay in Hc|fold pay in Hd].
    + left. split; [done|]. by rewrite (within_eps_not_gt _ Hc).
    + right. split; [done|]. by rewrite (within_eps_not_lt _ Hd).
  - destruct (r_gt _ EPS); [rewrite pq_push_length|]; lia.
  - destruct (r_lt _ (r_neg EPS)); [rewrite pq_push_length|]; lia.
  - destruct (r_gt pay EPS); [rewrite length_app; simpl|]; lia.
Qed.

(** Every iteration makes the two queues smaller, taken together, and adds
    at most one transaction. *)
Lemma settle_iter_shrinks (C D : list (Node R)) (txns : list (Txn R)) C' D' txns' :
  settle_iter C D txns = Some (C', D', txns') →
  length C' + length D' < length C + length D ∧ length txns' ≤ S (length txns) ∧
  0 < length C ∧ 0 < length D.
Proof.
  unfold settle_iter.
  destruct (pq_pop CmpCred C) as [[c C0]|] eqn:EC; [|discriminate].
  destruct (pq_pop CmpDebt D) as [[d D0]|] eqn:ED; [|discriminate].
  apply pq_pop_length in EC, ED.
  destruct (settle_step_spec c d C0 D0 txns) as (C1 & D1 & t1 & -> & Hdrop & HC & HD & Ht).
  intros [= <- <- <-]. split; [|split; [done|lia]].
  destruct Hdrop as [[_ ->]|[_ ->]]; lia.
Qed.

Lemma settle_iter_None (C D : list (Node R)) (txns : list (Txn R)) :
  settle_iter C D txns = None ↔ C = [] ∨ D = [].
Proof.
  unfold settle_iter. destruct C as [|c C], D as [|d D]; simpl.
  - split; [by left|done].
  - split; [by left|done].
  - destruct (pq_extract CmpCred c C). split; [by right|done].
  - destruct (pq_extract CmpCred c C), (pq_extract CmpDebt d D).
    split; [discriminate|]. intros [?|?]; discriminate.
Qed.

(** The loop ends: fuel for one iteration per node is enough. *)
Lemma settle_loop_total (fuel : nat) :
  ∀ (C D : list (Node R)) (txns : list (Txn R)),
  length C + length D ≤ S fuel → is_Some (settle_loop fuel C D txns).
Proof.
  induction fuel as [|fuel IH]; intros C D txns Hlen; simpl.
  - destruct (settle_iter C D txns) as [[[C' D'] t']|] eqn:E; [|by eexists].
    apply settle_iter_shrinks in E. lia.
  - destruct (settle_iter C D txns) as [[[C' D'] t']|] eqn:E; [|by eexists].
    apply settle_iter_shrinks in E. apply IH. lia.
Qed.

(** More fuel does not change the result. *)
Lemma settle_loop_fuel_mono (fuel : nat) :
  ∀ fuel' (C D : list (Node R)) (txns : list (Txn R)) st,
  settle_loop fuel C D txns = Some st → fuel ≤ fuel' →
  settle_loop fuel' C D txns = Some st.
Proof.
  induction fuel as [|fuel IH]; intros fuel' C D txns st; simpl.
  - destruct (settle_iter C D txns) as [[[C' D'] t']|] eqn:E; [discriminate|].
    intros <- _. destruct fuel'; simpl; by rewrite E.
  - destruct (settle_iter C D txns) as [[[C' D'] t']|] eqn:E.
    + intros Hst Hle. destruct fuel' as [|fuel']; [lia|]. simpl. rewrite E.
      apply IH; [done|lia].
    + intros <- _. destruct fuel'; simpl; by rewrite E.
Qed.

(** When the loop ends, one of the queues is empty. *)
Lemma settle_loop_final (fuel : nat) :
  ∀ (C D : list (Node R)) (txns : list (Txn R)) C' D' txns',
  settle_loop fuel C D txns = Some (C', D', txns') → C' = [] ∨ D' = [].
Proof.
  induction fuel as [|fuel IH]; intros C D txns C' D' txns'; simpl;
    destruct (settle_iter C D txns) as [[[C1 D1] t1]|] eqn:E; try discriminate.
  - intros [= <- <- <-]. by apply settle_iter_None in E.
  - apply IH.
  - intros [= <- <- <-]. by apply settle_iter_None in E.
Qed.

(** The loop adds at most one transaction less than there are nodes. *)
Lemma settle_loop_txn_count (fuel : nat) :
  ∀ (C D : list (Node R)) (txns : list (Txn R)) C' D' txns',
  settle_loop fuel C D txns = Some (C', D', txns') →
  length txns' ≤ length txns + (length C + length D - 1).
Proof.
  induction fuel as [|fuel IH]; intros C D txns C' D' txns'; simpl;
    destruct (settle_iter C D txns) as [[[C1 D1] t1]|] eqn:E; try discriminate.
  - intros [= <- <- <-]. lia.
  - intros Hloop. pose proof (settle_iter_shrinks _ _ _ _ _ _ E) as (Hsz & Ht & HC & HD).
    destruct (decide (length C1 + length D1 = 0)) as [Hz|Hnz].
    + assert (C1 = []) as -> by (destruct C1; [done|simpl in Hz; lia]).
      destruct fuel; simpl in Hloop; injection Hloop as <- <- <-; lia.
    + apply IH in Hloop. lia.
  - intros [= <- <- <-]. lia.
Qed.

End Loop.

(** ** Termination of [settle] and the number of transactions *)

Lemma settle_net_total {R : Type} `{SettleLaws R} (net : gmap string R) :
  is_Some (settle_net net).
Proof. unfold settle_net. apply settle_loop_total. lia. Qed.

(** C9. [settle] terminates on every ledger. In each iteration of the
    matching loop the payment [pay = min(c.amt, -d.amt)] leaves the popped
    creditor or the popped debtor with a residual within [EPS] of zero (as the
    program tests it: neither [> EPS] nor [< -EPS]); that node is not pushed
    back, and the two priority queues together hold fewer nodes after the
    iteration than before it. *)
Theorem settle_terminates :
  (∀ b : Book float, ∃ txns, settle b = Some txns) ∧
  (∀ (C D : list (Node float)) (txns : list (Txn float)) c C0 d D0,
     pq_pop CmpCred C = Some (c, C0) →
     pq_pop CmpDebt D = Some (d, D0) →
     let pay := r_min (amt c) (r_neg (amt d)) in
     ∃ C' D' txns',
       settle_step c d C0 D0 txns = (C', D', txns') ∧
       ((within_eps (r_sub (amt c) pay) = true ∧ C' = C0) ∨
        (within_eps (r_add (amt d) pay) = true ∧ D' = D0)) ∧
       length C' + length D' < length C + length D).
Proof.
  split.
  - intros b. unfold settle.
    destruct (settle_net_total (computeNet b)) as [st ->]. by eexists.
  - intros C D txns c C0 d D0 EC ED pay.
    apply pq_pop_length in EC, ED.
    destruct (settle_step_spec c d C0 D0 txns) as (C' & D' & t' & E & Hdrop & HC & HD & _).
    exists C', D', t'. split; [done|]. split; [done|].
    destruct Hdrop as [[_ ->]|[_ ->]]; lia.
Qed.

Lemma settle_terminates_witness :
  (∃ txns, settle book_abc = Some txns) ∧
  (∃ C' D' txns',
     settle_step (mkNode "A" 60%float) (mkNode "B" (-30)%float)
       [] [mkNode "C" (-30)%float] [] = (C', D', txns') ∧
     ((within_eps (r_sub 60%float (r_min 60%float (r_neg (-30)%float))) = true ∧ C' = []) ∨
      (within_eps (r_add (-30)%float (r_min 60%float (r_neg (-30)%float))) = true
       ∧ D' = [mkNode "C" (-30)%float])) ∧
     length C' + length D' < 1 + 2).
Proof.
  split.
  - apply (proj1 settle_terminates book_abc).
  - apply (proj2 settle_terminates
             [mkNode "A" 60%float]
             [mkNode "B" (-30)%float; mkNode "C" (-30)%float] []
             (mkNode "A" 60%float) [] (mkNode "B" (-30)%float) [mkNode "C" (-30)%float]);
      vm_compute; reflexivity.
Defined.

(** C8, as amended. For every balance mapping [settle] returns, and the
    number of transactions is at most (creditors + debtors - 1) when there is
    a creditor or a debtor, and zero when there is none. *)
Theorem settle_txn_count (net : gmap string float) :
  ∃ C D txns,
    settle_net net = Some (C, D, txns) ∧
    (Z.of_nat (length txns) ≤
       Z.max 0 (Z.of_nat (length (creditors net)) + Z.of_nat (length (debtors net)) - 1))%Z.
Proof.
  destruct (settle_net_total net) as [[[C D] txns] E].
  exists C, D, txns. split; [done|].
  apply settle_loop_txn_count in E. simpl in E. lia.
Qed.

(** C8 as stated fails when nobody owes anything: no transaction is produced,
    and 0 is not at most 0 + 0 - 1. *)
Lemma settle_txn_count_counterexample :
  let net := computeNet book_idle in
  ∃ txns,
    settle book_idle = Some txns ∧
    ¬ (Z.of_nat (length txns) ≤
         Z.of_nat (length (creditors net)) + Z.of_nat (length (debtors net)) - 1)%Z.
Proof.
  exists []. split; [vm_compute; reflexivity|].
  vm_compute. intros Hle. apply Hle. reflexivity.
Qed.

(** ** Expense construction *)

Section Construction.
Context {R : Type} `{Arith R}.

Lemma first_unknown_None (b : Book R) (ps : list string) :
  first_unknown b ps = None ↔ Forall (λ p, hasUser b p = true) ps.
Proof.
  induction ps as [|p ps IH]; simpl.
  - split; [constructor|done].
  - destruct (hasUser b p) eqn:E.
    + rewrite IH. split; [by constructor|by inversion 1].
    + split; [done|]. inversion 1; congruence.
Qed.


Lemma addExpenseEqual_ok (b : Book R) payer amount ps :
  hasUser b payer = true → ps ≠ [] → Forall (λ p, hasUser b p = true) ps →
  addExpenseEqual b payer amount ps =
    Done (push_expense b
            (mkExpense payer amount
               (equal_shares (r_div amount (r_of_size (length ps))) ps))).
Proof.
  intros Hp Hne Hall. unfold addExpenseEqual. rewrite Hp. simpl.
  destruct ps as [|p ps]; [done|].
  by rewrite (proj2 (first_unknown_None b (p :: ps)) Hall).
Qed.

Context `{Stod R}.

(** The token loop succeeds exactly when every token is a name and a number
    and every name is a user; it then holds the shares and their sum. *)
Lemma exact_tokens_ok (b : Book R) (tokens : list string) :
  ∀ sh sum sh' sum',
  exact_tokens b tokens sh sum = TokensOk sh' sum' ↔
  ∃ l, token_shares tokens = Some l ∧
       Forall (λ p, hasUser b p.1 = true) l ∧
       sh' = foldl (λ sh p, map_add p.1 p.2 sh) sh l ∧
       sum' = foldl (λ acc p, r_add acc p.2) sum l.
Proof.
  induction tokens as [|t tokens IH]; intros sh sum sh' sum'; simpl.
  - split.
    + intros [= <- <-]. exists []. by repeat split.
    + intros (l & [= <-] & _ & -> & ->). done.
  - destruct (split_colon t) as [[name text]|]; [|split; [done|by intros (? & ? & _)]].
    destruct (stod text) as [s|x]; [|split; [done|by intros (? & ? & _)]].
    destruct (hasUser b name) eqn:Hname; simpl.
    + rewrite IH. split.
      * intros (l & -> & Hall & -> & ->). exists ((name, s) :: l).
        repeat split; [by constructor|done..].
      * intros (l & Hl & Hall & -> & ->).
        destruct (token_shares tokens) as [l'|]; [|done].
        injection Hl as <-. inversion Hall; subst. by exists l'.
    + split; [done|]. intros (l & Hl & Hall & _).
      destruct (token_shares tokens) as [l'|]; [|done].
      injection Hl as <-. inversion Hall; simpl in *; congruence.
Qed.


(** With a registered payer and tokens that all parse and name users, the
    share sum decides between [ShareSum] and success. *)
Lemma addExpenseExact_checked (b : Book R) payer amount tokens l :
  hasUser b payer = true → tokens ≠ [] →
  token_shares tokens = Some l → Forall (λ p, hasUser b p.1 = true) l →
  addExpenseExact b payer amount tokens =
    if share_mismatch (share_sum l) amount
    then Fail (ShareSum (share_sum l) amount) b
    else Done (push_expense b (mkExpense payer amount (exact_shares l))).
Proof.
  intros Hp Hne Hl Hall. unfold addExpenseExact. rewrite Hp. simpl.
  destruct tokens as [|t tokens]; [done|].
  destruct (exact_tokens b (t :: tokens) ∅ r_zero) as [sh sum|e|x] eqn:E.
  - apply exact_tokens_ok in E as (l' & Hl' & _ & -> & ->).
    rewrite Hl in Hl'. by injection Hl' as <-.
  - assert (∃ sh sum, exact_tokens b (t :: tokens) ∅ r_zero = TokensOk sh sum)
      as (? & ? & E'); [|congruence].
    eexists _, _. apply exact_tokens_ok. by exists l.
  - assert (∃ sh sum, exact_tokens b (t :: tokens) ∅ r_zero = TokensOk sh sum)
      as (? & ? & E'); [|congruence].
    eexists _, _. apply exact_tokens_ok. by exists l.
Qed.

(** [ShareSum] is reported only after every other check has passed, and only
    for a sum that differs from the amount by more than 0.01. *)
Lemma addExpenseExact_ShareSum (b : Book R) payer amount tokens sum a b' :
  addExpenseExact b payer amount tokens = Fail (ShareSum sum a) b' →
  hasUser b payer = true ∧ tokens ≠ [] ∧
  ∃ l, token_shares tokens = Some l ∧ Forall (λ p, hasUser b p.1 = true) l ∧
       sum = share_sum l ∧ a = amount ∧ share_mismatch sum amount = true.
Proof.
  unfold addExpenseExact. destruct (hasUser b payer); simpl; [|discriminate].
  destruct tokens as [|t tokens]; [discriminate|].
  destruct (exact_tokens b (t :: tokens) ∅ r_zero) as [sh s|e|x] eqn:E;
    [|intros [= -> _]|discriminate].
  - destruct (r_gt _ SHARE_TOL) eqn:Hgt; [|discriminate].
    intros [= <- <- <-]. split; [done|]. split; [done|].
    apply exact_tokens_ok in E as (l & Hl & Hall & _ & ->). by exists l.
  - exfalso. clear -E. revert E. generalize (∅ : gmap string R), r_zero.
    induction (t :: tokens) as [|t' ts IH]; intros sh s; simpl; [done|].
    destruct (split_colon t') as [[name text]|]; [|done].
    destruct (stod text); [|done].
    destruct (hasUser b name); simpl; [apply IH|done].
Qed.

End Construction.

(** C7, as amended. For every exact-split call with a registered payer and a
    non-empty token list whose tokens all parse and name registered users,
    the call fails with [ShareMismatch] if and only if the absolute
    difference between the sum of the per-token shares and the amount
    exceeds 0.01; and a call that fails with [ShareMismatch] is always such a
    call. *)
Theorem share_mismatch_iff {R : Type} `{Arith R} `{Stod R}
    (b : Book R) (payer : string) (amount : R) (tokens : list string) :
  (∀ l, hasUser b payer = true → tokens ≠ [] →
        token_shares tokens = Some l → Forall (λ p, hasUser b p.1 = true) l →
        ((∃ e, addExpenseExact b payer amount tokens = Fail e b ∧
               kind_of e = ShareMismatch) ↔
         share_mismatch (share_sum l) amount = true)) ∧
  (∀ e b', addExpenseExact b payer amount tokens = Fail e b' →
           kind_of e = ShareMismatch →
           hasUser b payer = true ∧ tokens ≠ [] ∧
           ∃ l, token_shares tokens = Some l ∧
                Forall (λ p, hasUser b p.1 = true) l ∧
                share_mismatch (share_sum l) amount = true).
Proof.
  split.
  - intros l Hp Hne Hl Hall.
    rewrite (addExpenseExact_checked b payer amount tokens l Hp Hne Hl Hall).
    destruct (share_mismatch (share_sum l) amount); split; try done.
    + intros _. by eexists.
    + by intros (e & ? & _).
  - intros e b' E Hk. destruct e; try discriminate Hk.
    apply addExpenseExact_ShareSum in E as (Hp & Hne & l & Hl & Hall & -> & -> & Hm).
    split; [done|]. split; [done|]. by exists l.
Qed.

Lemma share_mismatch_iff_witness :
  ((∃ e, addExpenseExact book_ab "A" 100%float ["A:40"; "B:50"] = Fail e book_ab ∧
         kind_of e = ShareMismatch) ↔
   share_mismatch (share_sum [("A", 40%float); ("B", 50%float)]) 100%float = true) ∧
  (hasUser book_ab "A" = true ∧ ["A:40"; "B:50"] ≠ [] ∧
   ∃ l, token_shares ["A:40"; "B:50"] = Some l ∧
        Forall (λ p, hasUser book_ab p.1 = true) l ∧
        share_mismatch (share_sum l) 100%float = true).
Proof.
  destruct (share_mismatch_iff book_ab "A" 100%float ["A:40"; "B:50"]) as [Hiff Honly].
  split.
  - apply (Hiff [("A", 40%float); ("B", 50%float)]).
    + vm_compute; reflexivity.
    + discriminate.
    + vm_compute; reflexivity.
    + repeat constructor.
  - apply (Honly (ShareSum 90%float 100%float) book_ab).
    + vm_compute; reflexivity.
    + reflexivity.
Defined.

(** C7 as stated fails: with an unregistered payer the share sum 5 differs
    from the amount 100 by more than 0.01, yet the call fails with
    [UnknownUser], not with [ShareMismatch]. *)
Lemma share_mismatch_iff_counterexample :
  token_shares (R:=float) ["B:5"] = Some [("B", 5%float)] ∧
  share_mismatch (share_sum [("B", 5%float)]) 100%float = true ∧
  addExpenseExact book_ab "Z" 100%float ["B:5"] = Fail (UnknownPayer "Z") book_ab ∧
  kind_of (UnknownPayer (R:=float) "Z") ≠ ShareMismatch.
Proof. repeat split; try (vm_compute; reflexivity). discriminate. Qed.

(** C5 on the failing input: with users A and B, the token [B:abc] has a
    colon but no number after it; [std::stod] throws [invalid_argument] and
    the call ends with that exception instead of an error result. *)
Theorem exact_token_not_a_number_throws :
  addExpenseExact book_ab "A" 10%float ["B:abc"] = Throw invalid_argument book_ab.
Proof. vm_compute. reflexivity. Qed.

(** A token without a colon is reported as a bad token. *)
Lemma exact_token_without_colon {R : Type} `{Arith R} `{Stod R}
    (b : Book R) (payer : string) (amount : R) (t : string) (tokens : list string) :
  hasUser b payer = true → split_colon t = None →
  addExpenseExact b payer amount (t :: tokens) = Fail (BadToken t) b.
Proof.
  intros Hp Ht. unfold addExpenseExact. rewrite Hp. simpl. by rewrite Ht.
Qed.

(** A token with a colon and no number after it makes the call throw, whatever
    the store and the name before the colon. *)
Lemma exact_token_stod_throws {R : Type} `{Arith R} `{Stod R}
    (b : Book R) (payer : string) (amount : R) (t name text : string)
    (tokens : list string) (x : exception) :
  hasUser b payer = true → split_colon t = Some (name, text) →
  stod (R:=R) text = StodThrows x →
  addExpenseExact b payer amount (t :: tokens) = Throw x b.
Proof.
  intros Hp Ht Hx. unfold addExpenseExact. rewrite Hp. simpl. by rewrite Ht, Hx.
Qed.

(** ** Balance mappings *)

Section Maps.
Context {R : Type} `{Arith R}.

Lemma items_perm {A} (m : gmap string A) : items m ≡ₚ map_to_list m.
Proof. apply merge_sort_Permutation. Qed.

Lemma items_NoDup {A} (m : gmap string A) : NoDup (items m).*1.
Proof. rewrite items_perm. apply NoDup_fst_map_to_list. Qed.

Lemma elem_of_items {A} (m : gmap string A) k v : (k, v) ∈ items m ↔ m !! k = Some v.
Proof. rewrite items_perm. apply elem_of_map_to_list. Qed.

Lemma list_to_map_items {A} (m : gmap string A) : list_to_map (items m) = m.
Proof.
  rewrite <- (list_to_map_to_list m) at 2.
  apply list_to_map_proper; [apply items_NoDup|apply items_perm].
Qed.

Lemma map_at_insert (m : gmap string R) k v k' :
  map_at (<[k := v]> m) k' = if decide (k = k') then v else map_at m k'.
Proof. unfold map_at. rewrite lookup_insert. by destruct (decide (k = k')). Qed.

(** The loop [for (it in shares) net[it->first] -= it->second] touches each
    key of [shares] once. *)
Lemma fold_map_sub_lookup (l : list (string * R)) :
  ∀ (net : gmap string R) k, NoDup l.*1 →
  foldl (λ net kv, map_sub kv.1 kv.2 net) net l !! k =
    match (list_to_map l : gmap string R) !! k with
    | Some v => Some (r_sub (map_at net k) v)
    | None => net !! k
    end.
Proof.
  induction l as [|[k' v'] l IH]; intros net k Hnd; simpl; [done|].
  apply NoDup_cons in Hnd as [Hk' Hnd]. rewrite IH by done.
  destruct (decide (k' = k)) as [->|Hne].
  - rewrite lookup_insert_eq.
    rewrite (not_elem_of_list_to_map_1 l k) by done.
    unfold map_sub. by rewrite lookup_insert_eq.
  - rewrite lookup_insert_ne by done. unfold map_sub.
    rewrite map_at_insert, lookup_insert_ne by done.
    by destruct (decide (k' = k)).
Qed.

Lemma apply_expense_lookup (net : gmap string R) (e : Expense R) k :
  apply_expense net e !! k =
    match shares e !! k with
    | Some v => Some (r_sub (map_at (map_add (payer e) (amount e) net) k) v)
    | None => map_add (payer e) (amount e) net !! k
    end.
Proof.
  unfold apply_expense. rewrite fold_map_sub_lookup by apply items_NoDup.
  by rewrite list_to_map_items.
Qed.

Lemma dom_apply_expense (net : gmap string R) (e : Expense R) :
  dom (apply_expense net e) = dom net ∪ {[payer e]} ∪ dom (shares e).
Proof.
  apply set_eq. intros k. rewrite !elem_of_union, !elem_of_dom, elem_of_singleton.
  rewrite apply_expense_lookup. unfold map_add.
  destruct (shares e !! k) as [v|] eqn:E.
  - split; [intros _; right; by eexists|by eexists].
  - rewrite lookup_insert. destruct (decide (payer e = k)) as [->|Hne].
    + split; [intros _; left; by right|by eexists].
    + split; [intros ?; left; by left|].
      intros [[?|?]|[? ?]]; [done|congruence|done].
Qed.

Lemma dom_raw_net_fold (es : list (Expense R)) :
  ∀ net : gmap string R,
  dom (foldl apply_expense net es) =
    dom net ∪ ⋃ ((λ e, {[payer e]} ∪ dom (shares e)) <$> es).
Proof.
  induction es as [|e es IH]; intros net; simpl.
  - set_solver.
  - rewrite IH, dom_apply_expense. set_solver.
Qed.

(** The users [computeNet] reports: the registered ones and whoever occurs
    in an expense. *)
Lemma dom_computeNet (b : Book R) :
  dom (computeNet b) =
    users b ∪ ⋃ ((λ e, {[payer e]} ∪ dom (shares e)) <$> expenses b).
Proof.
  unfold computeNet, raw_net. by rewrite dom_fmap_L, dom_raw_net_fold, dom_gset_to_gmap.
Qed.

End Maps.

(** ** The reference arithmetic: conservation and order independence *)

Section ExactSums.
Local Open Scope Qc_scope.

Lemma list_total_from (l : list (string * Qc)) :
  ∀ a : Qc, foldl (λ acc kv, r_add acc kv.2) a l = a + list_total l.
Proof.
  unfold list_total. induction l as [|[k v] l IH]; intros a; cbn [foldl].
  - simpl. ring.
  - rewrite IH, (IH (r_add r_zero _)). simpl. ring.
Qed.

Lemma list_total_cons k v (l : list (string * Qc)) : list_total ((k, v) :: l) = v + list_total l.
Proof. unfold list_total at 1. simpl. rewrite list_total_from. ring. Qed.

Lemma list_total_perm (l l' : list (string * Qc)) : l ≡ₚ l' → list_total l = list_total l'.
Proof.
  induction 1 as [|[k v] l l' _ IH|[k v] [k' v'] l|l l' l'' _ IH1 _ IH2].
  - done.
  - by rewrite !list_total_cons, IH.
  - rewrite !list_total_cons. ring.
  - congruence.
Qed.

Lemma sum_values_total (m : gmap string Qc) : sum_values m = list_total (map_to_list m).
Proof. apply (list_total_perm _ _ (items_perm m)). Qed.

Lemma sum_values_empty : sum_values (∅ : gmap string Qc) = 0.
Proof. by rewrite sum_values_total, map_to_list_empty. Qed.

Lemma sum_values_insert_fresh (m : gmap string Qc) k v :
  m !! k = None → sum_values (<[k := v]> m) = sum_values m + v.
Proof.
  intros Hk. rewrite !sum_values_total.
  rewrite (list_total_perm _ _ (map_to_list_insert m k v Hk)), list_total_cons. ring.
Qed.

Lemma sum_values_insert (m : gmap string Qc) k v :
  sum_values (<[k := v]> m) = sum_values m - map_at m k + v.
Proof.
  unfold map_at. destruct (m !! k) as [x|] eqn:Hk; simpl.
  - assert (Hm : sum_values m = sum_values (delete k m) + x).
    { rewrite <- (insert_delete_id m k x Hk) at 1.
      apply sum_values_insert_fresh, lookup_delete_eq. }
    rewrite <- insert_delete_eq, sum_values_insert_fresh by apply lookup_delete_eq.
    rewrite Hm. ring.
  - rewrite sum_values_insert_fresh by done. ring.
Qed.

Lemma sum_values_map_add (m : gmap string Qc) k v :
  sum_values (map_add k v m) = sum_values m + v.
Proof. unfold map_add. rewrite sum_values_insert. simpl. ring. Qed.









End ExactSums.

Section ExactBounds.
Local Open Scope Qc_scope.

Lemma of_size_0 : r_of_size (R:=Qc) 0 = 0.
Proof. reflexivity. Qed.

Lemma of_size_S (n : nat) : r_of_size (R:=Qc) (S n) = r_of_size n + 1.
Proof.
  simpl. apply Qc_is_canon. simpl. rewrite !Qred_correct.
  rewrite Nat2Z.inj_succ. unfold Z.succ. rewrite inject_Z_plus. reflexivity.
Qed.

Lemma of_size_nonneg (n : nat) : 0 <= r_of_size (R:=Qc) n.
Proof.
  induction n as [|n IH]; [done|].
  rewrite of_size_S. replace 0 with (0 + 0) by ring.
  apply Qcplus_le_compat; [done|discriminate].
Qed.

Lemma of_size_pos (n : nat) : r_of_size (R:=Qc) (S n) ≠ 0.
Proof.
  rewrite of_size_S. intros Hz.
  pose proof (of_size_nonneg n) as Hn.
  assert (r_of_size (R:=Qc) n = -(1)) as Heq.
  { replace (r_of_size n) with (r_of_size n + 1 - 1) by ring. rewrite Hz. ring. }
  rewrite Heq in Hn. by apply Hn.
Qed.


(** The clamp moves a balance by at most [1e-9]. *)
Lemma clamp_close (x : Qc) : Qcabs (clamp x - x) <= NOISE.
Proof.
  unfold clamp. simpl. destruct (Qc_ltb (Qcabs x) _) eqn:E.
  - apply Qc_ltb_lt in E. replace (0 - x) with (- x) by ring.
    rewrite Qcabs_opp. by apply Qclt_le_weak.
  - replace (x - x) with 0 by ring. discriminate.
Qed.

Lemma list_total_clamp (l : list (string * Qc)) :
  Qcabs (list_total (prod_map id clamp <$> l) - list_total l)
    <= r_of_size (length l) * NOISE.
Proof.
  induction l as [|[k x] l IH].
  - discriminate.
  - cbn [fmap list_fmap prod_map fst snd id length]. rewrite !list_total_cons, of_size_S.
    replace (clamp x + list_total (prod_map id clamp <$> l) - (x + list_total l))
      with ((list_total (prod_map id clamp <$> l) - list_total l) + (clamp x - x)) by ring.
    eapply Qcle_trans; [apply Qcabs_triangle|].
    replace ((r_of_size (length l) + 1) * NOISE)
      with (r_of_size (length l) * NOISE + NOISE) by ring.
    apply Qcplus_le_compat; [apply IH|apply clamp_close].
Qed.

(** Clamping moves the sum of the balances by at most [1e-9] per entry. *)
Lemma sum_values_clamp (m : gmap string Qc) :
  Qcabs (sum_values (clamp <$> m) - sum_values m) <= r_of_size (size m) * NOISE.
Proof.
  rewrite !sum_values_total, map_to_list_fmap.
  rewrite <- length_map_to_list. apply list_total_clamp.
Qed.

(** In exact arithmetic an equal split owes exactly the amount. *)
Lemma sum_values_fold_add (share : Qc) (ps : list string) :
  ∀ sh : gmap string Qc,
  sum_values (foldl (λ sh p, map_add p share sh) sh ps) =
    sum_values sh + r_of_size (length ps) * share.
Proof.
  induction ps as [|p ps IH]; intros sh; cbn [foldl length].
  - rewrite of_size_0. ring.
  - rewrite IH, sum_values_map_add, of_size_S. ring.
Qed.

Lemma sum_values_equal_shares (a : Qc) (ps : list string) :
  ps ≠ [] →
  sum_values (equal_shares (r_div a (r_of_size (length ps))) ps) = a.
Proof.
  intros Hne. unfold equal_shares. rewrite sum_values_fold_add, sum_values_empty.
  destruct ps as [|p ps]; [done|].
  pose proof (of_size_pos (length ps)) as Hnz.
  cbn [length]. generalize dependent (r_of_size (R:=Qc) (S (length ps))).
  intros n Hn. change (r_div a n) with (a / n). field. done.
Qed.

Lemma sum_values_exact_shares (l : list (string * Qc)) :
  sum_values (exact_shares l) = share_sum l.
Proof.
  unfold exact_shares, share_sum.
  assert (Hgen : ∀ sh : gmap string Qc,
            sum_values (foldl (λ sh p, map_add p.1 p.2 sh) sh l) =
              sum_values sh + list_total l).
  { induction l as [|[k v] l IH]; intros sh; cbn [foldl].
    - unfold list_total. simpl. ring.
    - rewrite IH, sum_values_map_add, list_total_cons. simpl. ring. }
  rewrite Hgen, sum_values_empty. ring.
Qed.

End ExactBounds.

Section ExactTheorems.
Local Open Scope Qc_scope.

(** An accepted exact split leaves an imbalance of at most 0.01. *)
Lemma exact_shares_imbalance (a : Qc) (l : list (string * Qc)) :
  share_mismatch (share_sum l) a = false →
  Qcabs (sum_values (exact_shares l) - a) <= SHARE_TOL.
Proof.
  unfold share_mismatch, r_gt. simpl. rewrite Qc_ltb_ge.
  by rewrite sum_values_exact_shares.
Qed.





End ExactTheorems.



(** ** What the transactions do to the balances *)

Section Reconcile.
Context {R : Type} {HA : Arith R} {HL : SettleLaws R}.

Lemma apply_txn_lookup (bal : gmap string R) (from to : string) (pay : R) k :
  from ≠ to →
  apply_txn bal (from, to, pay) !! k =
    if decide (k = to) then Some (r_sub (map_at bal to) pay)
    else if decide (k = from) then Some (r_add (map_at bal from) pay)
    else bal !! k.
Proof.
  intros Hne. unfold apply_txn, map_sub, map_add.
  rewrite map_at_insert, !lookup_insert.
  repeat case_decide; congruence.
Qed.

Lemma r_min_cases (a b : R) : r_min a b = a ∨ r_min a b = b.
Proof. unfold r_min. destruct (r_lt b a); auto. Qed.

Lemma elem_of_requeue (x : Node R) (q : list (Node R)) (keep : bool) n :
  n ∈ (if keep then pq_push x q else q) ↔ n ∈ q ∨ (keep = true ∧ n = x).
Proof.
  destruct keep; unfold pq_push.
  - rewrite elem_of_app, list_elem_of_singleton. naive_solver.
  - naive_solver.
Qed.

(** The queues after an iteration hold nodes of the same users, each at most
    once. *)
Lemma NoDup_requeue (c d c' d' : Node R) (C0 D0 : list (Node R)) (kc kd : bool) :
  name c' = name c → name d' = name d →
  NoDup (name <$> ((c :: C0) ++ (d :: D0))) →
  NoDup (name <$> ((if kc then pq_push c' C0 else C0) ++
                   (if kd then pq_push d' D0 else D0))).
Proof.
  intros Hc Hd Hnd.
  assert (Hsub : name <$> ((if kc then pq_push c' C0 else C0) ++
                           (if kd then pq_push d' D0 else D0))
                 ⊆+ name <$> ((c :: C0) ++ (d :: D0))).
  { rewrite !fmap_app, !fmap_cons. apply submseteq_app.
    - destruct kc; unfold pq_push.
      + rewrite fmap_app. simpl. rewrite Hc.
        apply Permutation_submseteq. symmetry. apply Permutation_cons_append.
      + by apply submseteq_cons.
    - destruct kd; unfold pq_push.
      + rewrite fmap_app. simpl. rewrite Hd.
        apply Permutation_submseteq. symmetry. apply Permutation_cons_append.
      + by apply submseteq_cons. }
  apply submseteq_Permutation in Hsub as [k Hk]. rewrite Hk in Hnd.
  by apply NoDup_app in Hnd as [? _].
Qed.

Lemma dom_apply_txn (bal : gmap string R) (from to : string) (pay : R) :
  from ∈ dom bal → to ∈ dom bal → dom (apply_txn bal (from, to, pay)) = dom bal.
Proof.
  intros Hf Ht. unfold apply_txn, map_sub, map_add. rewrite !dom_insert_L. set_solver.
Qed.

(** An iteration of the loop keeps the invariant. *)
Lemma settle_iter_inv (net : gmap string R) (C D : list (Node R)) (txns : list (Txn R))
    C' D' txns' :
  settle_inv net C D txns → settle_iter C D txns = Some (C', D', txns') →
  settle_inv net C' D' txns'.
Proof.
  intros [Hnd Htr Hleft Hcred Hdebt Hst Hunt Hdom]. unfold settle_iter.
  destruct (pq_pop CmpCred C) as [[c C0]|] eqn:EC; [|done].
  destruct (pq_pop CmpDebt D) as [[d D0]|] eqn:ED; [|done].
  apply pq_pop_perm in EC, ED. intros Hsome.
  assert (Hstep : settle_step c d C0 D0 txns = (C', D', txns')) by congruence.
  clear Hsome. revert Hstep.
  unfold settle_step. cbv zeta.
  set (pay := r_min (amt c) (r_neg (amt d))).
  set (c' := mkNode (name c) (r_sub (amt c) pay)).
  set (d' := mkNode (name d) (r_add (amt d) pay)).
  set (bal := foldl apply_txn net txns) in *.
  assert (Hc : c ∈ C) by (rewrite EC; left).
  assert (Hd : d ∈ D) by (rewrite ED; left).
  assert (Hpay : r_gt pay EPS = true).
  { destruct (r_min_cases (amt c) (r_neg (amt d))) as [E|E]; unfold pay; rewrite E.
    - by apply Hcred.
    - by apply debtor_owes, Hdebt. }
  rewrite Hpay. simpl amt. intros [= <- <- <-].
  rewrite EC, ED in Hnd.
  assert (Hsplit : NoDup (name c :: name d :: (name <$> (C0 ++ D0)))).
  { revert Hnd. rewrite !fmap_app, !fmap_cons. simpl.
    by rewrite <- (Permutation_middle (name <$> C0) (name <$> D0) (name d)). }
  apply NoDup_cons in Hsplit as [Hc0 Hsplit]. apply NoDup_cons in Hsplit as [Hd0 Hnd0].
  apply not_elem_of_cons in Hc0 as [Hcd Hc0].
  assert (Hbc : bal !! name c = Some (amt c)) by (apply Htr, elem_of_app; by left).
  assert (Hbd : bal !! name d = Some (amt d)) by (apply Htr, elem_of_app; by right).
  assert (Hbal' : ∀ k, foldl apply_txn net (txns ++ [(name d, name c, pay)]) !! k =
            if decide (k = name c) then Some (amt c')
            else if decide (k = name d) then Some (amt d') else bal !! k).
  { intros k. rewrite foldl_snoc. fold bal. rewrite apply_txn_lookup by done.
    unfold map_at. by rewrite Hbc, Hbd. }
  assert (Hin0 : ∀ n, n ∈ C0 ++ D0 → n ∈ C ++ D ∧ name n ≠ name c ∧ name n ≠ name d).
  { intros n Hn. split.
    { rewrite EC, ED. apply elem_of_app in Hn as [Hn|Hn]; apply elem_of_app;
        [left|right]; by right. }
    assert (name n ∈ name <$> (C0 ++ D0)) by (apply list_elem_of_fmap; eauto).
    split; congruence. }
  assert (HinC' : ∀ n, n ∈ (if r_gt (amt c') EPS then pq_push c' C0 else C0) →
            n ∈ C0 ∨ (r_gt (amt c') EPS = true ∧ n = c')).
  { intros n. by rewrite elem_of_requeue. }
  assert (HinD' : ∀ n, n ∈ (if r_lt (amt d') (r_neg EPS) then pq_push d' D0 else D0) →
            n ∈ D0 ∨ (r_lt (amt d') (r_neg EPS) = true ∧ n = d')).
  { intros n. by rewrite elem_of_requeue. }
  split.
  - apply (NoDup_requeue c d c' d'); [done..|]. by rewrite EC, ED in *.
  - intros n [Hn|Hn]%elem_of_app; rewrite Hbal'.
    + apply HinC' in Hn as [Hn|[_ ->]].
      * destruct (Hin0 n) as (Hn' & Hnc & Hnd'); [apply elem_of_app; by left|].
        rewrite !decide_False by done. by apply Htr.
      * by rewrite decide_True.
    + apply HinD' in Hn as [Hn|[_ ->]].
      * destruct (Hin0 n) as (Hn' & Hnc & Hnd'); [apply elem_of_app; by right|].
        rewrite !decide_False by done. by apply Htr.
      * rewrite decide_False by done. by rewrite decide_True.
  - intros u y. rewrite Hbal'. intros Hy Hu.
    destruct (decide (u = name c)) as [->|Huc].
    + injection Hy as <-.
      destruct (r_gt (amt c') EPS) eqn:Ek.
      * exfalso. apply Hu. apply list_elem_of_fmap. exists c'. split; [done|].
        apply elem_of_app. left. apply elem_of_requeue. by right.
      * unfold within_eps. unfold c', pay in Ek |- *. simpl in Ek |- *.
        by rewrite Ek, creditor_not_overpaid.
    + destruct (decide (u = name d)) as [->|Hud].
      * injection Hy as <-.
        destruct (r_lt (amt d') (r_neg EPS)) eqn:Ek.
        -- exfalso. apply Hu. apply list_elem_of_fmap. exists d'. split; [done|].
           apply elem_of_app. right. apply elem_of_requeue. by right.
        -- unfold within_eps. unfold d', pay in Ek |- *. simpl in Ek |- *.
           by rewrite Ek, debtor_not_overpaid.
      * apply (Hleft u y Hy). rewrite EC, ED.
        intros (n & -> & Hn)%list_elem_of_fmap. apply Hu.
        apply list_elem_of_fmap. exists n. split; [done|].
        apply elem_of_app in Hn as [Hn|Hn]; apply elem_of_cons in Hn as [->|Hn];
          try done; apply elem_of_app; [left|right]; apply elem_of_requeue; by left.
  - intros n Hn. apply HinC' in Hn as [Hn|[Hk ->]]; [|done].
    apply Hcred. rewrite EC. by right.
  - intros n Hn. apply HinD' in Hn as [Hn|[Hk ->]]; [|done].
    apply Hdebt. rewrite ED. by right.
  - intros n [Hn|Hn]%elem_of_app.
    + apply HinC' in Hn as [Hn|[_ ->]].
      * apply Hst, elem_of_app. left. rewrite EC. by right.
      * apply (Hst c), elem_of_app. by left.
    + apply HinD' in Hn as [Hn|[_ ->]].
      * apply Hst, elem_of_app. right. rewrite ED. by right.
      * apply (Hst d), elem_of_app. by right.
  - intros u x Hx Hw. rewrite Hbal'.
    destruct (Hst c) as (xc & Hxc & Hwc); [apply elem_of_app; by left|].
    destruct (Hst d) as (xd & Hxd & Hwd); [apply elem_of_app; by right|].
    rewrite !decide_False by congruence. by apply Hunt.
  - rewrite foldl_snoc. fold bal. rewrite dom_apply_txn; [done|..].
    + by apply elem_of_dom_2 in Hbd.
    + by apply elem_of_dom_2 in Hbc.
Qed.

End Reconcile.

Section ReconcileLoop.
Context {R : Type} `{SettleLaws R}.

Lemma elem_of_creditors (net : gmap string R) (n : Node R) :
  n ∈ creditors net ↔ net !! name n = Some (amt n) ∧ r_gt (amt n) EPS = true.
Proof.
  unfold creditors. rewrite list_elem_of_omap. split.
  - intros ([k v] & Hkv & Hn). apply elem_of_items in Hkv. simpl in Hn.
    destruct (r_gt v EPS) eqn:E; [|done]. by injection Hn as <-.
  - intros [Hn Hgt]. exists (name n, amt n). split; [by apply elem_of_items|].
    simpl. rewrite Hgt. by destruct n.
Qed.

Lemma elem_of_debtors (net : gmap string R) (n : Node R) :
  n ∈ debtors net ↔
  net !! name n = Some (amt n) ∧ r_gt (amt n) EPS = false ∧
  r_lt (amt n) (r_neg EPS) = true.
Proof.
  unfold debtors. rewrite list_elem_of_omap. split.
  - intros ([k v] & Hkv & Hn). apply elem_of_items in Hkv. simpl in Hn.
    destruct (r_gt v EPS) eqn:E; [done|].
    destruct (r_lt v (r_neg EPS)) eqn:E'; [|done]. by injection Hn as <-.
  - intros (Hn & Hgt & Hlt). exists (name n, amt n). split; [by apply elem_of_items|].
    simpl. rewrite Hgt, Hlt. by destruct n.
Qed.

(** Nodes picked from the entries of a mapping carry distinct names. *)
Lemma NoDup_picked (f : string * R → option (Node R)) (l : list (string * R)) :
  (∀ kv n, f kv = Some n → name n = kv.1) → NoDup l.*1 → NoDup (name <$> omap f l).
Proof.
  intros Hf Hnd. apply (sublist_NoDup _ l.*1); [done|]. clear Hnd.
  induction l as [|kv l IH]; simpl; [constructor|].
  destruct (f kv) as [n|] eqn:E; simpl.
  - rewrite (Hf _ _ E). by constructor.
  - by constructor.
Qed.

(** The invariant holds when the loop is entered. *)
Lemma settle_inv_init (net : gmap string R) :
  settle_inv net (creditors net) (debtors net) [].
Proof.
  split; simpl.
  - rewrite fmap_app. apply NoDup_app. split; [|split].
    + apply NoDup_picked; [|apply items_NoDup].
      intros [k v] n. simpl. destruct (r_gt v EPS); [|done]. by intros [= <-].
    + intros u (n & -> & Hn)%list_elem_of_fmap (n' & Hu & Hn')%list_elem_of_fmap.
      apply elem_of_creditors in Hn as [Hn Hgt].
      apply elem_of_debtors in Hn' as (Hn' & Hgt' & _).
      rewrite Hu, Hn' in Hn. injection Hn as Hn. congruence.
    + apply NoDup_picked; [|apply items_NoDup].
      intros [k v] n. simpl. destruct (r_gt v EPS); [done|].
      destruct (r_lt v (r_neg EPS)); [|done]. by intros [= <-].
  - intros n [Hn|Hn]%elem_of_app.
    + by apply elem_of_creditors in Hn as [? _].
    + by apply elem_of_debtors in Hn as [? _].
  - intros u y Hy Hu. unfold within_eps.
    destruct (r_gt y EPS) eqn:Hgt.
    { exfalso. apply Hu. apply list_elem_of_fmap. exists (mkNode u y).
      split; [done|]. apply elem_of_app. left. by apply elem_of_creditors. }
    destruct (r_lt y (r_neg EPS)) eqn:Hlt; [|done].
    exfalso. apply Hu. apply list_elem_of_fmap. exists (mkNode u y).
    split; [done|]. apply elem_of_app. right. by apply elem_of_debtors.
  - intros n Hn. by apply elem_of_creditors in Hn as [_ ?].
  - intros n Hn. by apply elem_of_debtors in Hn as (_ & _ & ?).
  - intros n [Hn|Hn]%elem_of_app.
    + apply elem_of_creditors in Hn as [Hn Hgt]. exists (amt n). split; [done|].
      unfold within_eps. by rewrite Hgt.
    + apply elem_of_debtors in Hn as (Hn & Hgt & Hlt). exists (amt n). split; [done|].
      unfold within_eps. by rewrite Hgt, Hlt.
  - done.
  - done.
Qed.

(** The invariant holds when the loop is left. *)
Lemma settle_loop_inv (net : gmap string R) (fuel : nat) :
  ∀ (C D : list (Node R)) (txns : list (Txn R)) C' D' txns',
  settle_inv net C D txns →
  settle_loop fuel C D txns = Some (C', D', txns') →
  settle_inv net C' D' txns'.
Proof.
  induction fuel as [|fuel IH]; intros C D txns C' D' txns' Hinv; simpl;
    destruct (settle_iter C D txns) as [[[C1 D1] t1]|] eqn:E; try discriminate.
  - by intros [= <- <- <-].
  - apply IH. by apply (settle_iter_inv net C D txns).
  - by intros [= <- <- <-].
Qed.

(** After the loop nobody is still owed more than [EPS], or nobody still
    owes more than [EPS]. *)
Lemma settle_inv_final (net : gmap string R) (C D : list (Node R)) (txns : list (Txn R)) :
  settle_inv net C D txns → C = [] ∨ D = [] →
  (∀ u y, foldl apply_txn net txns !! u = Some y → r_gt y EPS = false) ∨
  (∀ u y, foldl apply_txn net txns !! u = Some y → r_lt y (r_neg EPS) = false).
Proof.
  intros [Hnd Htr Hleft Hcred Hdebt Hst Hunt Hdom] [-> | ->].
  - left. intros u y Hy. destruct (r_gt y EPS) eqn:Hgt; [|done].
    destruct (decide (u ∈ name <$> ([] ++ D))) as [Hin|Hout].
    + apply list_elem_of_fmap in Hin as (n & -> & Hn).
      rewrite (Htr n Hn) in Hy. injection Hy as <-.
      apply creditor_not_debtor in Hgt. rewrite (Hdebt n) in Hgt; [done|].
      by rewrite app_nil_l in Hn.
    + apply (Hleft u y Hy) in Hout. apply within_eps_not_gt in Hout. congruence.
  - right. intros u y Hy. destruct (r_lt y (r_neg EPS)) eqn:Hlt; [|done].
    destruct (decide (u ∈ name <$> (C ++ []))) as [Hin|Hout].
    + apply list_elem_of_fmap in Hin as (n & -> & Hn).
      rewrite (Htr n Hn) in Hy. injection Hy as <-.
      rewrite app_nil_r in Hn. apply Hcred, creditor_not_debtor in Hn. congruence.
    + apply (Hleft u y Hy) in Hout. apply within_eps_not_lt in Hout. congruence.
Qed.

End ReconcileLoop.

(** C1, as amended. For every ledger [settle] returns, and applying its
    transactions to the balances of [computeNet] the way [settle] keeps its
    books (the amount is added to the balance of [from], the debtor, and
    subtracted from the balance of [to], the creditor) changes no balance that
    was within [EPS] of zero and leaves no balance above [EPS] or no balance
    below [-EPS]: every balance ends within [EPS] of zero, except those of
    creditors only, or of debtors only, for whom no counterpart was left. *)
Theorem settle_reconciles (b : Book float) :
  ∃ txns, settle b = Some txns ∧
    let net := computeNet b in
    let bal := foldl apply_txn net txns in
    dom bal = dom net ∧
    (∀ u x, net !! u = Some x → within_eps x = true → bal !! u = Some x) ∧
    ((∀ u y, bal !! u = Some y → r_gt y EPS = false) ∨
     (∀ u y, bal !! u = Some y → r_lt y (r_neg EPS) = false)).
Proof.
  unfold settle. destruct (settle_net_total (computeNet b)) as [[[C D] txns] E].
  rewrite E. exists txns. split; [done|]. cbv zeta.
  pose proof (settle_loop_final _ _ _ _ _ _ _ E) as Hend.
  apply (settle_loop_inv (computeNet b)) in E; [|apply settle_inv_init].
  split; [apply (inv_dom _ _ _ _ E)|]. split; [apply (inv_untouched _ _ _ _ E)|].
  by apply (settle_inv_final _ C D).
Qed.

(** C1 as stated fails. On [book_mismatch] the balances are A: 100 and
    B: -100.005 and [settle] returns the one transaction B -> A : 100.
    Subtracting it from B and adding it to A gives A: 200 and B: -200.005;
    applied the other way round it gives A: 0 and B: -0.005. Neither leaves
    every balance within 1e-6 of zero. *)
Lemma settle_reconciles_counterexample :
  settle book_mismatch = Some [("B", "A", 100%float)] ∧
  all_within_eps
    (foldl apply_txn_reversed (computeNet book_mismatch) [("B", "A", 100%float)]) = false ∧
  all_within_eps
    (foldl apply_txn (computeNet book_mismatch) [("B", "A", 100%float)]) = false.
Proof. repeat split; vm_compute; reflexivity. Qed.

(** ** Failing operations and the store *)


(** C4 as stated fails. A third of 10 is saved as 3.33; after the round
    trip A's balance is 10 - 3.33 = 6.67 instead of 6.666666666666666. *)
Lemma save_load_counterexample :
  ∃ text b',
    save book_thirds true = (Done book_thirds, Some text) ∧
    load empty_book (Some text) = Done b' ∧
    computeNet book_thirds !! "A" = Some 6.6666666666666661%float ∧
    computeNet b' !! "A" = Some 6.6699999999999999%float ∧
    computeNet b' ≠ computeNet book_thirds.
Proof.
  eexists _, _. split; [reflexivity|]. split; [vm_compute; reflexivity|].
  split; [vm_compute; reflexivity|]. split; [vm_compute; reflexivity|].
  intros Heq. apply (f_equal (λ m, PrimFloat.eqb (map_at m "A") 6.67%float)) in Heq.
  vm_compute in Heq. discriminate.
Qed.

(** ** Reading back what [save] wrote *)

Lemma append_cons (x : ascii) (a b : string) : String x a +:+ b = String x (a +:+ b).
Proof. reflexivity. Qed.

Lemma append_nil_l (a : string) : "" +:+ a = a.
Proof. reflexivity. Qed.

Lemma append_assoc (a b c : string) : (a +:+ b) +:+ c = a +:+ b +:+ c.
Proof. induction a as [|x a IH]; [done|]. rewrite !append_cons. by f_equal. Qed.

Lemma append_nil_r (a : string) : a +:+ "" = a.
Proof. induction a as [|x a IH]; [done|]. rewrite append_cons. by f_equal. Qed.

Lemma write_all_app {A} (f : A → string) (l l' : list A) :
  write_all f (l ++ l') = write_all f l +:+ write_all f l'.
Proof. induction l as [|x l IH]; simpl; [done|by rewrite IH, append_assoc]. Qed.

(** Constant prefixes are pushed through [+:+]. *)
Ltac str_simpl := rewrite ?append_assoc, ?append_cons, ?append_nil_l.

(** *** Words *)

Lemma take_word_app (w : string) (c : ascii) (rest : string) :
  no_space w = true → is_space c = true →
  take_word (w +:+ String c rest) = (w, String c rest).
Proof.
  intros Hw Hc. induction w as [|x w IH]; str_simpl; simpl in *.
  - by rewrite Hc.
  - apply andb_prop in Hw as [Hx Hw]. apply negb_true_iff in Hx.
    by rewrite Hx, IH.
Qed.

Lemma read_word_app (w : string) (c : ascii) (rest : string) :
  is_word w = true → is_space c = true →
  read_word (w +:+ String c rest) = Some (w, String c rest).
Proof.
  intros Hw Hc. destruct w as [|x w]; [done|].
  unfold read_word. simpl in Hw. pose proof Hw as Hw'.
  apply andb_prop in Hw' as [Hx _]. apply negb_true_iff in Hx.
  rewrite append_cons. simpl skip_space. rewrite Hx, <- append_cons.
  by rewrite take_word_app.
Qed.

Lemma read_word_skip (sp : ascii) (s : string) :
  is_space sp = true → read_word (String sp s) = read_word s.
Proof. intros Hsp. unfold read_word. simpl. by rewrite Hsp. Qed.

(** *** Sizes *)

Lemma digit_of_digit_char (d : N) : (d < 10)%N → digit_of (digit_char d) = Some (Z.of_N d).
Proof.
  intros Hd. destruct d as [|p]; [done|].
  do 4 (destruct p as [p|p|]; try lia; try reflexivity).
Qed.

Lemma is_space_digit_char (d : N) : (d < 10)%N → is_space (digit_char d) = false.
Proof.
  intros Hd. destruct d as [|p]; [done|].
  do 4 (destruct p as [p|p|]; try lia; try reflexivity).
Qed.

Lemma sign_digit_char (d : N) (s : string) :
  (d < 10)%N → read_sign (String (digit_char d) s) = (false, String (digit_char d) s).
Proof.
  intros Hd. destruct d as [|p]; [done|].
  do 4 (destruct p as [p|p|]; try lia; try reflexivity).
Qed.

(** The text of a number starts with a digit. *)
Lemma show_digits_head (fuel : nat) :
  ∀ n acc, ∃ d t, (d < 10)%N ∧ show_digits (S fuel) n acc = String (digit_char d) t.
Proof.
  induction fuel as [|fuel IH]; intros n acc; simpl.
  - destruct (n <? 10)%N; exists (n mod 10)%N, acc;
      (split; [by apply N.mod_lt|done]).
  - destruct (n <? 10)%N.
    + exists (n mod 10)%N, acc. split; [by apply N.mod_lt|done].
    + apply (IH (n / 10)%N).
Qed.

(** Reading the digits of [n] gives [n]. *)
Lemma read_digits_show_digits (fuel : nat) :
  ∀ n acc, (n < 10 ^ N.of_nat (S fuel))%N →
  ∃ k, read_digits digit_of 10 0 0 (show_digits (S fuel) n acc) =
       read_digits digit_of 10 (Z.of_N n) (S k) acc.
Proof.
  assert (Hone : ∀ n acc, (n < 10)%N →
            read_digits digit_of 10 0 0 (String (digit_char (n mod 10)) acc) =
            read_digits digit_of 10 (Z.of_N n) 1 acc).
  { intros n acc Hn. simpl. rewrite digit_of_digit_char by (by apply N.mod_lt).
    by rewrite N.mod_small. }
  induction fuel as [|fuel IH]; intros n acc Hn.
  - exists 0. simpl show_digits. change (10 ^ N.of_nat 1)%N with 10%N in Hn.
    destruct (n <? 10)%N; by apply Hone.
  - cbn [show_digits]. destruct (n <? 10)%N eqn:E.
    + apply N.ltb_lt in E. exists 0. by apply Hone.
    + apply N.ltb_ge in E.
      destruct (IH (n / 10)%N (String (digit_char (n mod 10)) acc)) as [k Hk].
      { rewrite Nat2N.inj_succ, N.pow_succ_r' in Hn.
        apply N.Div0.div_lt_upper_bound. lia. }
      exists (S k). cbn [show_digits] in Hk. rewrite Hk. simpl.
      rewrite digit_of_digit_char by (by apply N.mod_lt).
      f_equal. f_equal. f_equal.
      rewrite (N.div_mod n 10) at 3 by done. lia.
Qed.

Lemma show_N_fuel (n : N) : (n < 10 ^ N.of_nat (S (N.to_nat (N.log2 n))))%N.
Proof.
  rewrite Nat2N.inj_succ, N2Nat.id.
  destruct (decide (n = 0%N)) as [->|Hn]; [done|].
  eapply N.lt_le_trans; [apply N.log2_spec; lia|].
  apply N.pow_le_mono_l. lia.
Qed.

Lemma show_digits_app (fuel : nat) :
  ∀ n acc, show_digits fuel n acc = show_digits fuel n "" +:+ acc.
Proof.
  induction fuel as [|fuel IH]; intros n acc; simpl; [done|].
  destruct (n <? 10)%N; [done|].
  rewrite IH, (IH _ (String _ "")), append_assoc. done.
Qed.

Lemma digit_of_space (c : ascii) : is_space c = true → digit_of c = None.
Proof. by destruct c as [[] [] [] [] [] [] [] []]. Qed.

Lemma read_size_show_N (n : N) (c : ascii) (rest : string) :
  (n < 2 ^ 64)%N → is_space c = true →
  read_size (show_N n +:+ String c rest) = Some (n, String c rest).
Proof.
  intros Hn Hc. unfold read_size, show_N. rewrite <- show_digits_app.
  destruct (show_digits_head (N.to_nat (N.log2 n)) n (String c rest)) as (d & t & Hd & Ht).
  destruct (read_digits_show_digits (N.to_nat (N.log2 n)) n (String c rest)
              (show_N_fuel n)) as [k Hk].
  rewrite Ht in Hk |- *. simpl skip_space. rewrite (is_space_digit_char d Hd).
  rewrite (sign_digit_char d t Hd), Hk. simpl read_digits.
  rewrite (digit_of_space c Hc).
  assert ((Z.of_N n <? 2 ^ 64)%Z = true) as -> by (apply Z.ltb_lt; lia).
  by rewrite N2Z.id.
Qed.

(** *** Amounts *)

Lemma skip_space_app (s u : string) :
  skip_space s ≠ "" → skip_space (s +:+ u) = skip_space s +:+ u.
Proof.
  induction s as [|x s IH]; [done|]. rewrite append_cons. simpl.
  destruct (is_space x); [apply IH|by rewrite append_cons].
Qed.

Lemma skip_zeros_app (s : string) (c : ascii) (rest : string) :
  is_space c = true →
  skip_zeros (s +:+ String c rest) = ((skip_zeros s).1, (skip_zeros s).2 +:+ String c rest).
Proof.
  intros Hc. induction s as [|x s IH].
  - simpl. by destruct c as [[] [] [] [] [] [] [] []].
  - rewrite append_cons. simpl. destruct (Ascii.eqb x "0"); [|done].
    by rewrite IH.
Qed.

Lemma float_chars_space (c : ascii) (rest : string) (m d s : bool) :
  is_space c = true → float_chars (String c rest) m d s = ("", String c rest).
Proof. intros Hc. by destruct c as [[] [] [] [] [] [] [] []], m, d, s. Qed.

Lemma sign_space (c : ascii) : is_space c = true → Ascii.eqb c "+" || Ascii.eqb c "-" = false.
Proof. by destruct c as [[] [] [] [] [] [] [] []]. Qed.

(** The characters taken for an amount do not depend on what follows the
    white space after them. *)
Lemma float_chars_app (c : ascii) (rest : string) :
  is_space c = true →
  ∀ (n : nat) (t : string) (m d s : bool) (a : string),
  String.length t < n →
  float_chars t m d s = (a, "") →
  float_chars (t +:+ String c rest) m d s = (a, String c rest).
Proof.
  intros Hc. induction n as [|n IH]; intros t m d s a Hlen; [lia|].
  destruct t as [|x t].
  - simpl. intros [= <-]. rewrite ?append_nil_l. by apply float_chars_space.
  - rewrite append_cons. simpl in Hlen. simpl.
    destruct (is_digit x).
    { destruct (float_chars t true d s) as [a' r] eqn:E. intros [= <- ->].
      by rewrite (IH t true d s a') by (done || lia). }
    destruct (Ascii.eqb x "." && negb d && negb s).
    { destruct (float_chars t m true s) as [a' r] eqn:E. intros [= <- ->].
      by rewrite (IH t m true s a') by (done || lia). }
    destruct (Ascii.eqb (to_lower x) "e" && negb s && m); [|done].
    destruct t as [|c2 t].
    + intros [= <-]. rewrite ?append_nil_l, (sign_space c Hc).
      by rewrite float_chars_space.
    + rewrite append_cons. destruct (Ascii.eqb c2 "+" || Ascii.eqb c2 "-").
      * destruct (float_chars t m d true) as [a' r] eqn:E. intros [= <- ->].
        simpl in Hlen. by rewrite (IH t m d true a') by (done || lia).
      * destruct (float_chars (String c2 t) m d true) as [a' r] eqn:E. intros [= <- ->].
        rewrite <- append_cons.
        by rewrite (IH (String c2 t) m d true a') by (done || (simpl in *; lia)).
Qed.

Lemma read_double_app (t : string) (x : float) (c : ascii) (rest : string) :
  is_space c = true →
  read_double t = Some (x, "") →
  read_double (t +:+ String c rest) = Some (x, String c rest).
Proof.
  intros Hc. unfold read_double.
  destruct (skip_space t) as [|y s1] eqn:Hskip; [done|].
  rewrite skip_space_app by (by rewrite Hskip). rewrite Hskip, append_cons.
  destruct (Ascii.eqb y "+" || Ascii.eqb y "-").
  - rewrite skip_zeros_app by done.
    destruct (skip_zeros s1) as [zero s3]. simpl fst. simpl snd.
    destruct (float_chars s3 zero false false) as [chars r] eqn:E.
    destruct (strtod _) as [|v er rem] eqn:Es; [done|].
    destruct v; [ |done| | ]; (destruct rem; [|done]); intros [= <- ->];
      rewrite (float_chars_app c rest Hc (S (String.length s3)) s3 zero false false chars)
        by (done || lia); by rewrite Es.
  - rewrite <- append_cons, skip_zeros_app by done.
    destruct (skip_zeros (String y s1)) as [zero s3]. simpl fst. simpl snd.
    destruct (float_chars s3 zero false false) as [chars r] eqn:E.
    destruct (strtod _) as [|v er rem] eqn:Es; [done|].
    destruct v; [ |done| | ]; (destruct rem; [|done]); intros [= <- ->];
      rewrite (float_chars_app c rest Hc (S (String.length s3)) s3 zero false false chars)
        by (done || lia); by rewrite Es.
Qed.

Lemma read_double_skip (sp : ascii) (s : string) :
  is_space sp = true → read_double (String sp s) = read_double s.
Proof. intros Hsp. unfold read_double. simpl. by rewrite Hsp. Qed.

Lemma read_size_skip (sp : ascii) (s : string) :
  is_space sp = true → read_size (String sp s) = read_size s.
Proof. intros Hsp. unfold read_size. simpl. by rewrite Hsp. Qed.

(** *** Lines *)

Lemma take_line_app (u rest : string) :
  no_newline u = true → take_line (u +:+ newline +:+ rest) = (u, rest).
Proof.
  induction u as [|x u IH]; [done|]. rewrite append_cons. simpl.
  destruct (Ascii.eqb x _); [done|]. intros Hu. by rewrite IH.
Qed.

Lemma skip_empty_lines_line (u rest : string) :
  is_line u = true → skip_empty_lines (u +:+ rest) = u +:+ rest.
Proof.
  destruct u as [|x u]; [done|]. rewrite append_cons. simpl.
  by destruct (Ascii.eqb x _).
Qed.

(** *** The loops of [load] on what the loops of [save] wrote *)

Lemma read_users_written (l : list string) (rest : string) (us : gset string) :
  Forall (λ u, is_line u = true) l →
  read_users (length l) (write_all show_user l +:+ rest) us
  = Some (list_to_set l ∪ us, rest).
Proof.
  intros Hl. revert us. induction Hl as [|u l Hu Hl IH]; intros us.
  - simpl. f_equal. f_equal. set_solver.
  - cbn [length write_all read_users]. unfold show_user at 1.
    rewrite !append_assoc, skip_empty_lines_line by done.
    destruct u as [|x u]; [done|]. rewrite append_cons.
    rewrite <- append_cons, take_line_app.
    + rewrite IH. f_equal. f_equal. set_solver.
    + simpl in Hu |- *. by destruct (Ascii.eqb x _).
Qed.

Lemma read_shares_written (l : list (string * float)) (rest : string) (sh : gmap string float) :
  Forall storable_share l →
  read_shares (length l) (newline +:+ write_all show_share l +:+ rest) sh
  = Some (foldl put_share sh l, newline +:+ rest).
Proof.
  intros Hl. revert sh. induction Hl as [|[k v] l [Hk Hv] Hl IH]; intros sh; [done|].
  cbn [length write_all read_shares foldl]. unfold show_share at 1. simpl fst. simpl snd.
  rewrite !append_assoc. unfold newline at 1. rewrite append_cons, append_nil_l.
  rewrite read_word_skip by done.
  change (" " +:+ ?X) with (String " " X).
  rewrite read_word_app by done.
  rewrite read_double_skip by done.
  unfold newline at 1. rewrite append_cons, append_nil_l.
  rewrite (read_double_app _ v) by done.
  change (String (ascii_of_N 10) ?X) with (newline +:+ X).
  by rewrite <- !append_assoc, !append_assoc, IH.
Qed.

Lemma foldl_put_share (l : list (string * float)) (sh : gmap string float) :
  foldl put_share sh l = foldr (λ kv m, put_share m kv) sh (reverse l).
Proof.
  revert sh. induction l as [|kv l IH]; intros sh; [done|].
  by rewrite reverse_cons, foldr_app; simpl; rewrite IH.
Qed.

Lemma foldl_put_share_items (m : gmap string float) :
  foldl put_share ∅ (items m) = m.
Proof.
  rewrite foldl_put_share. rewrite <- (list_to_map_items m) at 2.
  change (list_to_map (reverse (items m)) = (list_to_map (items m) : gmap string float)).
  apply list_to_map_proper.
  - rewrite fmap_reverse, reverse_Permutation. apply items_NoDup.
  - apply reverse_Permutation.
Qed.

Lemma length_items {A} (m : gmap string A) : length (items m) = size m.
Proof. by rewrite items_perm, length_map_to_list. Qed.

Lemma read_expenses_written (l : list (Expense float)) (b : Book float) :
  Forall storable_expense l →
  read_expenses (length l) (newline +:+ write_all show_expense l) b
  = Done (mkBook (users b) (expenses b ++ l)).
Proof.
  intros Hl. revert b. induction Hl as [|e l He Hl IH]; intros b.
  - simpl. destruct b. by rewrite app_nil_r.
  - destruct He as (Hp & Ha & Hm & Hitems).
    cbn [length write_all read_expenses]. unfold show_expense at 1.
    rewrite !append_assoc. unfold newline at 1. rewrite append_cons, append_nil_l.
    rewrite read_word_skip by done.
    change ("PAYER " +:+ ?X) with ("PAYER" +:+ String " " X).
    rewrite read_word_app by done.
    rewrite read_word_skip by done.
    change (" AMT " +:+ ?X) with (String " " ("AMT" +:+ String " " X)).
    rewrite read_word_app by done.
    rewrite read_word_skip by done.
    rewrite read_word_app by done.
    rewrite read_double_skip by done.
    unfold newline at 1. rewrite append_cons, append_nil_l.
    rewrite (read_double_app _ (amount e)) by done.
    cbn [String.eqb Ascii.eqb Bool.eqb andb negb].
    rewrite read_word_skip by done.
    change ("SHARES " +:+ ?X) with ("SHARES" +:+ String " " X).
    rewrite read_word_app by done.
    rewrite read_size_skip by done.
    unfold newline at 1. rewrite append_cons, append_nil_l.
    rewrite read_size_show_N by done.
    cbn [String.eqb Ascii.eqb Bool.eqb andb negb].
    rewrite Nat2N.id, <- length_items.
    change (String (ascii_of_N 10) ?X) with (newline +:+ X).
    rewrite read_shares_written by done.
    rewrite foldl_put_share_items, IH. simpl.
    destruct e. by rewrite <- app_assoc.
Qed.

Lemma load_text_save_text (b : Book float) :
  storable b → load_text (save_text b) = Done b.
Proof.
  intros (Hu & Hnu & Hne & He). unfold load_text, save_text.
  change ("USERS " +:+ ?X) with ("USERS" +:+ String " " X).
  rewrite read_word_app by done.
  rewrite read_size_skip by done.
  unfold newline at 1. rewrite append_cons, append_nil_l.
  rewrite read_size_show_N by done.
  cbn [String.eqb Ascii.eqb Bool.eqb andb negb ignore_line].
  change (Ascii.eqb (ascii_of_N 10) (ascii_of_N 10)) with true. cbv iota.
  rewrite Nat2N.id. change (size (users b)) with (length (elements (users b))).
  rewrite read_users_written by done.
  change ("EXPENSES " +:+ ?X) with ("EXPENSES" +:+ String " " X).
  rewrite read_word_app by done.
  rewrite read_size_skip by done.
  unfold newline at 1. rewrite append_cons, append_nil_l.
  rewrite read_size_show_N by done.
  cbn [String.eqb Ascii.eqb Bool.eqb andb negb].
  change (String (ascii_of_N 10) ?X) with (newline +:+ X).
  rewrite Nat2N.id, read_expenses_written by done. cbn [users expenses app].
  rewrite (right_id_L ∅ (∪)), list_to_set_elements_L. by destruct b.
Qed.

(** C4, amended: a ledger whose names and amounts are read back as they were
    written survives [save] and [load]: the text is written, loading it
    into a fresh store ends normally with the store that was saved, and the
    balances of the two stores are the same. The conditions: every user
    name is a non-empty line, every payer and participant name is a
    non-empty word without white space, every amount and share is read back
    unchanged from its two decimals, and the counts fit a [size_t]. *)
Theorem save_load_roundtrip (b : Book float) :
  storable b →
  ∃ text b',
    save b true = (Done b, Some text) ∧
    load empty_book (Some text) = Done b' ∧
    b' = b ∧
    computeNet b' = computeNet b.
Proof.
  intros Hb. exists (save_text b), b. split; [done|].
  split; [by apply load_text_save_text|done].
Qed.

Lemma save_load_roundtrip_witness :
  storable book_cents ∧
  ∃ text b',
    save book_cents true = (Done book_cents, Some text) ∧
    load empty_book (Some text) = Done b' ∧
    b' = book_cents ∧
    computeNet b' = computeNet book_cents.
Proof.
  assert (Hb : storable book_cents).
  { unfold storable.
    assert (elements (users book_cents) = ["A"; "B"]) as -> by (vm_compute; reflexivity).
    assert (expenses book_cents
            = [mkExpense "A" 12.5%float (list_to_map [("A", 5.25%float); ("B", 7.25%float)])])
      as -> by (vm_compute; reflexivity).
    split; [by repeat constructor|]. split; [vm_compute; reflexivity|].
    split; [vm_compute; reflexivity|].
    constructor; [|constructor]. unfold storable_expense.
    assert (items (shares (mkExpense "A" 12.5%float
              (list_to_map [("A", 5.25%float); ("B", 7.25%float)])))
            = [("A", 5.25%float); ("B", 7.25%float)]) as -> by (vm_compute; reflexivity).
    split; [reflexivity|]. split; [vm_compute; reflexivity|].
    split; [vm_compute; reflexivity|].
    repeat constructor; vm_compute; reflexivity. }
  split; [exact Hb|exact (save_load_roundtrip book_cents Hb)].
Defined.

(** ** The ledger store keeps its references *)

Section Integrity.
Context {R : Type} `{Arith R}.

Lemma dom_map_add (k : string) (v : R) (m : gmap string R) :
  dom (map_add k v m) = {[k]} ∪ dom m.
Proof. unfold map_add. by rewrite dom_insert_L. Qed.

Lemma dom_equal_shares (share : R) (ps : list string) :
  ∀ sh : gmap string R,
  dom (foldl (λ sh p, map_add p share sh) sh ps) = dom sh ∪ list_to_set ps.
Proof.
  induction ps as [|p ps IH]; intros sh; simpl.
  - set_solver.
  - rewrite IH, dom_map_add. set_solver.
Qed.

Lemma dom_exact_shares (l : list (string * R)) :
  ∀ sh : gmap string R,
  dom (foldl (λ sh p, map_add p.1 p.2 sh) sh l) = dom sh ∪ list_to_set l.*1.
Proof.
  induction l as [|[k v] l IH]; intros sh; simpl.
  - set_solver.
  - rewrite IH, dom_map_add. set_solver.
Qed.

Lemma hasUser_true (b : Book R) (u : string) : hasUser b u = true ↔ u ∈ users b.
Proof. unfold hasUser. by rewrite bool_decide_eq_true. Qed.

Lemma hasUser_false (b : Book R) (u : string) : hasUser b u = false ↔ u ∉ users b.
Proof. unfold hasUser. by rewrite bool_decide_eq_false. Qed.

Lemma first_unknown_Some (b : Book R) (ps : list string) (p : string) :
  first_unknown b ps = Some p ↔
  ∃ l1 l2, ps = l1 ++ p :: l2 ∧ Forall (λ q, q ∈ users b) l1 ∧ p ∉ users b.
Proof.
  induction ps as [|q ps IH]; simpl.
  - split; [done|]. intros (l1 & l2 & Heq & _). by destruct l1.
  - destruct (hasUser b q) eqn:Hq.
    + apply hasUser_true in Hq. rewrite IH. split.
      * intros (l1 & l2 & -> & Hl1 & Hp). exists (q :: l1), l2.
        split; [done|]. split; [by constructor|done].
      * intros (l1 & l2 & Heq & Hl1 & Hp). destruct l1 as [|q' l1].
        { simpl in Heq. injection Heq as -> ->. done. }
        simpl in Heq. injection Heq as -> ->. exists l1, l2.
        split; [done|]. split; [by inversion Hl1|done].
    + apply hasUser_false in Hq. split.
      * intros [= ->]. exists [], ps. by repeat split.
      * intros (l1 & l2 & Heq & Hl1 & Hp). destruct l1 as [|q' l1].
        { simpl in Heq. by injection Heq as -> ->. }
        simpl in Heq. injection Heq as -> ->. by inversion Hl1.
Qed.

Lemma well_formed_more_users (b : Book R) (us : gset string) :
  users b ⊆ us → well_formed b → well_formed (mkBook us (expenses b)).
Proof.
  intros Hsub Hb. unfold well_formed in *. simpl.
  eapply Forall_impl; [exact Hb|]. intros e [Hp Hs]. split; set_solver.
Qed.

Lemma well_formed_push (b : Book R) (e : Expense R) :
  well_formed b → payer e ∈ users b → dom (shares e) ⊆ users b →
  well_formed (push_expense b e).
Proof.
  intros Hb Hp Hs. unfold well_formed, push_expense. simpl.
  apply Forall_app. split; [done|]. by repeat constructor.
Qed.

Lemma well_formed_addUser (b : Book R) (u : string) :
  well_formed b → well_formed (addUser b u).
Proof. intros Hb. apply (well_formed_more_users b); [set_solver|done]. Qed.

Lemma well_formed_equal (b : Book R) payer amount ps :
  well_formed b → well_formed (store_after (addExpenseEqual b payer amount ps)).
Proof.
  intros Hb. unfold addExpenseEqual.
  destruct (hasUser b payer) eqn:Hp; [|done]. simpl.
  destruct ps as [|p ps]; [done|].
  destruct (first_unknown b (p :: ps)) as [q|] eqn:Hq; [done|]. simpl.
  apply hasUser_true in Hp. apply first_unknown_None in Hq.
  apply well_formed_push; [done..|]. simpl. unfold equal_shares.
  rewrite dom_equal_shares, dom_empty_L. intros q Hin.
  apply elem_of_union in Hin as [Hin|Hin]; [set_solver|].
  apply elem_of_list_to_set in Hin.
  rewrite Forall_forall in Hq. by apply hasUser_true, Hq.
Qed.

Context `{Stod R}.

Lemma well_formed_exact (b : Book R) payer amount tokens :
  well_formed b → well_formed (store_after (addExpenseExact b payer amount tokens)).
Proof.
  intros Hb. unfold addExpenseExact.
  destruct (hasUser b payer) eqn:Hp; [|done]. simpl.
  destruct tokens as [|t tokens]; [done|].
  destruct (exact_tokens b (t :: tokens) ∅ r_zero) as [sh sum|e|x] eqn:Ht; [|done..].
  destruct (r_gt _ _); [done|]. simpl.
  apply exact_tokens_ok in Ht as (l & _ & Hl & -> & _).
  apply hasUser_true in Hp. apply well_formed_push; [done..|]. simpl.
  rewrite dom_exact_shares, dom_empty_L. intros q Hin.
  apply elem_of_union in Hin as [Hin|Hin]; [set_solver|].
  apply elem_of_list_to_set, list_elem_of_fmap in Hin as ([k v] & -> & Hin).
  rewrite Forall_forall in Hl. by apply hasUser_true, (Hl _ Hin).
Qed.

Lemma reachable_well_formed (b : Book R) : reachable b → well_formed b.
Proof.
  induction 1 as [|b u _ IH|b p a ps b' _ IH Heq|b p a ts b' _ IH Heq].
  - constructor.
  - by apply well_formed_addUser.
  - apply (well_formed_equal b p a ps) in IH. by rewrite Heq in IH.
  - apply (well_formed_exact b p a ts) in IH. by rewrite Heq in IH.
Qed.

End Integrity.

(** Referential integrity is an invariant of the three operations that
    build a ledger: the empty ledger has it, and [addUser],
    [addExpenseEqual] and [addExpenseExact] keep it however they end
    (success, error or exception). *)
Theorem integrity_preserved {R : Type} `{Arith R} `{Stod R} :
  well_formed (empty_book (R:=R)) ∧
  ∀ b : Book R, well_formed b →
    (∀ u, well_formed (addUser b u)) ∧
    (∀ payer amount ps,
       well_formed (store_after (addExpenseEqual b payer amount ps))) ∧
    (∀ payer amount tokens,
       well_formed (store_after (addExpenseExact b payer amount tokens))).
Proof.
  split; [constructor|]. intros b Hb. split; [|split].
  - intros u. by apply well_formed_addUser.
  - intros. by apply well_formed_equal.
  - intros. by apply well_formed_exact.
Qed.

Lemma integrity_preserved_witness :
  well_formed book_ab ∧
  well_formed (store_after (addExpenseEqual book_ab "A" 90%float ["A"; "B"])) ∧
  well_formed (store_after (addExpenseExact book_ab "A" 10%float ["B:abc"])).
Proof.
  assert (Hab : well_formed book_ab) by constructor.
  destruct (integrity_preserved (R:=float)) as [_ Hkeep].
  destruct (Hkeep book_ab Hab) as (_ & Heq & Hex).
  split; [exact Hab|]. split; [apply Heq|apply Hex].
Defined.

(** ** Who has a balance, and which *)

Lemma book_ab_reachable : reachable book_ab.
Proof. unfold book_ab. apply reach_addUser, reach_addUser, reach_empty. Qed.

Lemma book_cents_reachable : reachable book_cents.
Proof.
  apply (reach_exact book_ab "A" 12.5%float ["B:7.25"; "A:5.25"] book_cents).
  - apply book_ab_reachable.
  - vm_compute. reflexivity.
Qed.

Lemma book_abc_reachable : reachable book_abc.
Proof.
  apply (reach_equal (addUser (addUser (addUser empty_book "A") "B") "C")
           "A" 90%float ["A"; "B"; "C"] book_abc).
  - apply reach_addUser, reach_addUser, reach_addUser, reach_empty.
  - vm_compute. reflexivity.
Qed.

Section Balances.
Context {R : Type} `{Arith R}.

Lemma dom_computeNet_well_formed (b : Book R) :
  well_formed b → dom (computeNet b) = users b.
Proof.
  intros Hb. rewrite dom_computeNet. unfold well_formed in Hb.
  induction Hb as [|e es [Hp Hs] _ IH]; simpl; set_solver.
Qed.

(** Somebody who neither pays nor takes part keeps the balance the fold
    started with. *)
Lemma fold_apply_expense_idle (es : list (Expense R)) (u : string) :
  Forall (λ e, payer e ≠ u ∧ shares e !! u = None) es →
  ∀ net : gmap string R, foldl apply_expense net es !! u = net !! u.
Proof.
  induction 1 as [|e es [Hp Hs] _ IH]; intros net; [done|]. simpl.
  rewrite IH, apply_expense_lookup, Hs. unfold map_add.
  by rewrite lookup_insert_ne.
Qed.

Lemma raw_net_idle (b : Book R) (u : string) :
  u ∈ users b →
  Forall (λ e, payer e ≠ u ∧ shares e !! u = None) (expenses b) →
  raw_net b !! u = Some r_zero.
Proof.
  intros Hu Hes. unfold raw_net. rewrite fold_apply_expense_idle by done.
  by rewrite lookup_gset_to_gmap, option_guard_True.
Qed.

End Balances.

(** For a ledger built by [addUser], [addExpenseEqual] and
    [addExpenseExact], [computeNet] has an entry for every registered user
    and for nobody else. *)
Theorem computeNet_lists_the_users {R : Type} `{Arith R} `{Stod R} (b : Book R) :
  reachable b → dom (computeNet b) = users b.
Proof. intros Hb. by apply dom_computeNet_well_formed, reachable_well_formed. Qed.

Lemma computeNet_lists_the_users_witness :
  reachable book_cents ∧ dom (computeNet book_cents) = users book_cents.
Proof.
  split; [apply book_cents_reachable|].
  apply (computeNet_lists_the_users book_cents book_cents_reachable).
Defined.

(** A registered user who paid nothing and takes part in no expense has the
    balance 0.0 exactly. *)
Theorem computeNet_idle_user (b : Book float) (u : string) :
  u ∈ users b →
  Forall (λ e, payer e ≠ u ∧ shares e !! u = None) (expenses b) →
  computeNet b !! u = Some 0%float.
Proof.
  intros Hu Hes. unfold computeNet.
  by rewrite lookup_fmap, (raw_net_idle b u Hu Hes).
Qed.

Lemma computeNet_idle_user_witness :
  computeNet (addUser book_abc "D") !! "D" = Some 0%float.
Proof.
  apply computeNet_idle_user.
  - vm_compute. set_solver.
  - assert (expenses (addUser book_abc "D")
            = [mkExpense "A" 90%float (equal_shares 30%float ["A"; "B"; "C"])])
      as -> by (vm_compute; reflexivity).
    constructor; [|constructor]. split; [discriminate|vm_compute; reflexivity].
Defined.

(** No balance that [computeNet] returns is a noise value: one whose absolute
    value is below 1e-9 is 0.0 itself. *)
Theorem computeNet_no_noise {R : Type} `{Arith R} (b : Book R) (u : string) (v : R) :
  computeNet b !! u = Some v → r_lt (r_fabs v) NOISE = true → v = r_zero.
Proof.
  unfold computeNet. rewrite lookup_fmap.
  destruct (raw_net b !! u) as [x|]; [|done]. simpl. intros [= <-].
  unfold clamp. destruct (r_lt (r_fabs x) NOISE) eqn:E; [done|]. by rewrite E.
Qed.

Lemma computeNet_no_noise_witness :
  raw_net book_tiny !! "A" = Some 1e-10%float ∧
  computeNet book_tiny !! "A" = Some 0%float ∧
  0%float = r_zero.
Proof.
  assert (Hv : computeNet book_tiny !! "A" = Some 0%float) by (vm_compute; reflexivity).
  split; [vm_compute; reflexivity|]. split; [exact Hv|].
  apply (computeNet_no_noise book_tiny "A" 0%float Hv). vm_compute. reflexivity.
Defined.

(** ** What the two construction operations build *)

Section Built.
Context {R : Type} `{Arith R}.

Lemma map_add_lookup (k : string) (v : R) (m : gmap string R) (q : string) :
  map_add k v m !! q = if decide (k = q) then Some (r_add (map_at m k) v) else m !! q.
Proof. unfold map_add. by rewrite lookup_insert. Qed.

Lemma map_at_map_add (k : string) (v : R) (m : gmap string R) (q : string) :
  map_at (map_add k v m) q = if decide (k = q) then r_add (map_at m k) v else map_at m q.
Proof. unfold map_at at 1. rewrite map_add_lookup. by case_decide. Qed.

Lemma occurrences_cons (q p : string) (ps : list string) :
  occurrences q (p :: ps) = if decide (p = q) then S (occurrences q ps) else occurrences q ps.
Proof. unfold occurrences. rewrite filter_cons. by case_decide. Qed.

Lemma added_up_shift (k : nat) (x a : R) :
  added_up k x (r_add a x) = added_up (S k) x a.
Proof. unfold added_up. by rewrite Nat.iter_succ_r. Qed.

Lemma equal_shares_lookup (share : R) (ps : list string) (q : string) :
  ∀ sh : gmap string R,
  foldl (λ sh p, map_add p share sh) sh ps !! q =
    match occurrences q ps with
    | 0 => sh !! q
    | S k => Some (added_up (S k) share (map_at sh q))
    end.
Proof.
  induction ps as [|p ps IH]; intros sh; [done|].
  cbn [foldl]. rewrite IH, occurrences_cons, map_add_lookup, map_at_map_add.
  case_decide as Hp.
  - subst p. destruct (occurrences q ps) as [|k]; [done|].
    by rewrite added_up_shift.
  - done.
Qed.

Lemma occurrences_NoDup (q : string) (ps : list string) :
  NoDup ps → q ∈ ps → occurrences q ps = 1.
Proof.
  induction 1 as [|p ps Hp Hnd IH]; [by intros ?%elem_of_nil|].
  rewrite occurrences_cons. intros Hin. case_decide as Hpq.
  - subst p. f_equal. unfold occurrences.
    destruct (filter (λ x, x = q) ps) as [|y l] eqn:E; [done|].
    assert (Hy : y ∈ filter (λ x, x = q) ps) by (rewrite E; left).
    apply list_elem_of_filter in Hy as [-> Hy]. done.
  - apply elem_of_cons in Hin as [->|Hin]; [done|]. by apply IH.
Qed.

Lemma named_total_cons (q k : string) (v : R) (l : list (string * R)) (a : R) :
  named_total q ((k, v) :: l) a
  = named_total q l (if decide (k = q) then r_add a v else a).
Proof. reflexivity. Qed.

Lemma named_total_absent (q : string) (l : list (string * R)) :
  q ∉ l.*1 → ∀ a : R, named_total q l a = a.
Proof.
  induction l as [|[k v] l IH]; intros Hq a; [done|].
  rewrite fmap_cons, not_elem_of_cons in Hq. destruct Hq as [Hk Hq].
  unfold named_total in *. cbn [foldl fst snd]. simpl in Hk.
  destruct (decide (k = q)) as [->|_]; [done|]. by apply IH.
Qed.

Lemma exact_shares_lookup (l : list (string * R)) (q : string) :
  ∀ sh : gmap string R,
  foldl (λ sh p, map_add p.1 p.2 sh) sh l !! q =
    if decide (q ∈ l.*1) then Some (named_total q l (map_at sh q)) else sh !! q.
Proof.
  induction l as [|[k v] l IH]; intros sh.
  - rewrite decide_False; [done|]. rewrite fmap_nil. apply not_elem_of_nil.
  - cbn [foldl fst snd]. rewrite IH, map_add_lookup, map_at_map_add, fmap_cons.
    rewrite named_total_cons.
    destruct (decide (k = q)) as [->|Hk].
    + rewrite (decide_True (P := q ∈ q :: l.*1)) by left.
      case_decide as Hq; [done|].
      by rewrite (named_total_absent q l Hq (r_add (map_at sh q) v)).
    + case_decide as Hq.
      * by rewrite (decide_True (P := q ∈ k :: l.*1)) by (by right).
      * rewrite (decide_False (P := q ∈ k :: l.*1)); [done|].
        rewrite not_elem_of_cons. by split.
Qed.

End Built.

(** [addExpenseEqual] tests the payer, then the list, then the participants
    from the left, and reports the first test that fails; the store is then
    as it was. When all tests pass it appends one expense with the payer
    and the amount given, whose shares are those of the participants named,
    and leaves the users alone. It never throws. *)
Theorem addExpenseEqual_outcome {R : Type} `{Arith R}
    (b : Book R) (p : string) (a : R) (ps : list string) :
  match addExpenseEqual b p a ps with
  | Done b' =>
    p ∈ users b ∧ ps ≠ [] ∧ Forall (λ q, q ∈ users b) ps ∧
    users b' = users b ∧
    ∃ e, expenses b' = expenses b ++ [e] ∧ payer e = p ∧ amount e = a ∧
         dom (shares e) = list_to_set ps
  | Fail e b' =>
    b' = b ∧
    ((e = UnknownPayer p ∧ p ∉ users b) ∨
     (e = NoParticipants ∧ p ∈ users b ∧ ps = []) ∨
     (∃ q l1 l2, e = UnknownParticipant q ∧ p ∈ users b ∧ ps = l1 ++ q :: l2 ∧
                 Forall (λ x, x ∈ users b) l1 ∧ q ∉ users b))
  | Throw _ _ | Hang _ => False
  end.
Proof.
  unfold addExpenseEqual. destruct (hasUser b p) eqn:Hp; simpl.
  - apply hasUser_true in Hp. destruct ps as [|q ps].
    { split; [done|]. right. by left. }
    destruct (first_unknown b (q :: ps)) as [x|] eqn:Hx.
    + apply first_unknown_Some in Hx as (l1 & l2 & Heq & Hl1 & Hx).
      split; [done|]. right. right. by exists x, l1, l2.
    + apply first_unknown_None in Hx.
      split; [done|]. split; [done|]. split.
      { eapply Forall_impl; [exact Hx|]. intros x. apply hasUser_true. }
      split; [done|]. eexists. split; [done|]. simpl. repeat split.
      unfold equal_shares. rewrite dom_equal_shares, dom_empty_L. set_solver.
  - apply hasUser_false in Hp. split; [done|]. by left.
Qed.

Lemma equal_split_built {R : Type} `{Arith R}
    (b : Book R) (p : string) (a : R) (ps : list string) (b' : Book R) :
  addExpenseEqual b p a ps = Done b' →
  let share := r_div a (r_of_size (length ps)) in
  ∃ e, expenses b' = expenses b ++ [e] ∧
    ∀ q, shares e !! q =
         match occurrences q ps with
         | 0 => None
         | S k => Some (added_up (S k) share r_zero)
         end.
Proof.
  intros Hadd share. unfold addExpenseEqual in Hadd.
  destruct (negb (hasUser b p)); [done|]. destruct ps as [|x ps]; [done|].
  destruct (first_unknown b (x :: ps)); [done|]. injection Hadd as <-.
  eexists. split; [done|]. cbn [shares]. unfold equal_shares.
  intros q. rewrite equal_shares_lookup.
  destruct (occurrences q (x :: ps)); [done|].
  unfold map_at. by rewrite lookup_empty.
Qed.

(** The shares of an equal split: a participant named [k] times has the
    share [amount / n] added [k] times to 0.0, [n] being the length of the
    list; who is not named has no share. *)
Theorem equal_split_shares {R : Type} `{Arith R}
    (b : Book R) (p : string) (a : R) (ps : list string) (b' : Book R) :
  addExpenseEqual b p a ps = Done b' →
  let share := r_div a (r_of_size (length ps)) in
  ∃ e, expenses b' = expenses b ++ [e] ∧
    ∀ q, shares e !! q =
         match occurrences q ps with
         | 0 => None
         | S k => Some (added_up (S k) share r_zero)
         end.
Proof. apply equal_split_built. Qed.

Lemma equal_split_shares_witness :
  ∃ e, expenses (store_after (addExpenseEqual book_ab "A" 90%float ["A"; "B"; "A"]))
       = expenses book_ab ++ [e] ∧
    shares e !! "A" = Some 60%float ∧ shares e !! "B" = Some 30%float ∧
    shares e !! "C" = None.
Proof.
  destruct (equal_split_shares book_ab "A" 90%float ["A"; "B"; "A"]
              (store_after (addExpenseEqual book_ab "A" 90%float ["A"; "B"; "A"])))
    as (e & He & Hsh).
  { vm_compute. reflexivity. }
  exists e. split; [exact He|].
  rewrite (Hsh "A"), (Hsh "B"), (Hsh "C").
  repeat split; vm_compute; reflexivity.
Defined.

(** In binary64 [0.0 + x] is [x], unless [x] is the negative zero. *)
Lemma double_zero_add (x : float) :
  (0 + x)%float = x ∨ (Prim2SF x = S754_zero true ∧ (0 + x)%float = 0%float).
Proof.
  destruct (Prim2SF x) as [[]| | |] eqn:E.
  - right. split; [done|]. apply Prim2SF_inj. rewrite add_spec, E. reflexivity.
  - left. apply Prim2SF_inj. rewrite add_spec, E. reflexivity.
  - left. apply Prim2SF_inj. rewrite add_spec, E. reflexivity.
  - left. apply Prim2SF_inj. rewrite add_spec, E. reflexivity.
  - left. apply Prim2SF_inj. rewrite add_spec, E. reflexivity.
Qed.

(** As the program runs: when the participants of an equal split are named
    once each, everyone's share is [amount / n], with the sign of a zero
    share always positive. *)
Theorem equal_split_share_double
    (b : Book float) (p : string) (a : float) (ps : list string) (b' : Book float) :
  addExpenseEqual b p a ps = Done b' → NoDup ps →
  let share := (a / r_of_size (length ps))%float in
  ∃ e, expenses b' = expenses b ++ [e] ∧
    ∀ q, q ∈ ps →
      shares e !! q = Some share ∨
      (Prim2SF share = S754_zero true ∧ shares e !! q = Some 0%float).
Proof.
  intros Hadd Hnd share.
  destruct (equal_split_built b p a ps b' Hadd) as (e & He & Hsh).
  exists e. split; [done|]. intros q Hq.
  rewrite Hsh, (occurrences_NoDup q ps Hnd Hq).
  change (added_up 1 (r_div a (r_of_size (length ps))) r_zero) with (0 + share)%float.
  destruct (double_zero_add share) as [->|[Hz ->]]; [by left|by right].
Qed.

Lemma equal_split_share_double_witness :
  ∃ e, expenses book_abc = [] ++ [e] ∧
    ∀ q, q ∈ ["A"; "B"; "C"] →
      shares e !! q = Some (90 / r_of_size 3)%float ∨
      (Prim2SF (90 / r_of_size 3)%float = S754_zero true ∧ shares e !! q = Some 0%float).
Proof.
  apply (equal_split_share_double (addUser (addUser (addUser empty_book "A") "B") "C")
           "A" 90%float ["A"; "B"; "C"] book_abc).
  - vm_compute. reflexivity.
  - repeat constructor; set_solver.
Defined.

(** What [addExpenseExact] appends when it succeeds: every token had a colon
    and a number after it, the names are users, the sum of the amounts is
    within 0.01 of the amount of the expense, and the share of a name is the
    sum of the amounts of its tokens, added to 0.0 in token order. The users
    stay as they are. *)
Theorem exact_split_shares {R : Type} `{Arith R} `{Stod R}
    (b : Book R) (p : string) (a : R) (ts : list string) (b' : Book R) :
  addExpenseExact b p a ts = Done b' →
  ∃ l e, token_shares ts = Some l ∧
    p ∈ users b ∧ Forall (λ kv, kv.1 ∈ users b) l ∧
    share_mismatch (share_sum l) a = false ∧
    users b' = users b ∧ expenses b' = expenses b ++ [e] ∧
    payer e = p ∧ amount e = a ∧
    ∀ q, shares e !! q =
         if decide (q ∈ l.*1) then Some (named_total q l r_zero) else None.
Proof.
  unfold addExpenseExact. destruct (hasUser b p) eqn:Hp; [|done]. simpl.
  apply hasUser_true in Hp. destruct ts as [|t ts]; [done|].
  destruct (exact_tokens b (t :: ts) ∅ r_zero) as [sh sum|e|x] eqn:Ht; [|done..].
  apply exact_tokens_ok in Ht as (l & Hl & Husers & -> & ->).
  destruct (r_gt _ _) eqn:Hsum; [done|]. intros [= <-].
  exists l. eexists. split; [done|]. split; [done|]. split.
  { eapply Forall_impl; [exact Husers|]. intros kv. apply hasUser_true. }
  split; [exact Hsum|]. split; [done|]. split; [done|]. split; [done|].
  split; [done|]. intros q. cbn [shares]. rewrite exact_shares_lookup.
  case_decide; [|done]. unfold map_at. by rewrite lookup_empty.
Qed.

Lemma exact_split_shares_witness :
  ∃ l e, token_shares ["B:6"; "A:2.5"; "B:1.5"] = Some l ∧
    "A" ∈ users book_ab ∧ Forall (λ kv, kv.1 ∈ users book_ab) l ∧
    share_mismatch (share_sum l) 10%float = false ∧
    users (store_after (addExpenseExact book_ab "A" 10%float ["B:6"; "A:2.5"; "B:1.5"]))
      = users book_ab ∧
    expenses (store_after (addExpenseExact book_ab "A" 10%float ["B:6"; "A:2.5"; "B:1.5"]))
      = expenses book_ab ++ [e] ∧
    payer e = "A" ∧ amount e = 10%float ∧
    ∀ q, shares e !! q =
         if decide (q ∈ l.*1) then Some (named_total q l r_zero) else None.
Proof.
  apply (exact_split_shares book_ab "A" 10%float ["B:6"; "A:2.5"; "B:1.5"]).
  vm_compute. reflexivity.
Defined.

(** ** The transactions of [settle] *)

Section Payments.
Context {R : Type} `{SettleLaws R}.

(** One iteration: the queues keep to the names they had, and at most one
    transaction is appended, from a queued debtor to a queued creditor and
    of more than [EPS]. *)
Lemma settle_iter_names (C D : list (Node R)) (txns : list (Txn R)) C' D' txns' :
  settle_iter C D txns = Some (C', D', txns') →
  (∀ n, n ∈ C' → ∃ m, m ∈ C ∧ name m = name n) ∧
  (∀ n, n ∈ D' → ∃ m, m ∈ D ∧ name m = name n) ∧
  (txns' = txns ∨
   ∃ c d pay, c ∈ C ∧ d ∈ D ∧ r_gt pay EPS = true ∧
              txns' = txns ++ [(name d, name c, pay)]).
Proof.
  unfold settle_iter.
  destruct (pq_pop CmpCred C) as [[c C0]|] eqn:EC; [|done].
  destruct (pq_pop CmpDebt D) as [[d D0]|] eqn:ED; [|done].
  apply pq_pop_perm in EC, ED. unfold settle_step. cbv zeta.
  intros [= <- <- <-]. split; [|split].
  - intros n Hn. apply elem_of_requeue in Hn as [Hn|[_ ->]].
    + exists n. split; [|done]. rewrite EC. by right.
    + exists c. split; [|done]. rewrite EC. by left.
  - intros n Hn. apply elem_of_requeue in Hn as [Hn|[_ ->]].
    + exists n. split; [|done]. rewrite ED. by right.
    + exists d. split; [|done]. rewrite ED. by left.
  - destruct (r_gt (r_min (amt c) (r_neg (amt d))) EPS) eqn:Hpay; [|by left].
    right. exists c, d, (r_min (amt c) (r_neg (amt d))).
    split; [rewrite EC; by left|]. split; [rewrite ED; by left|]. done.
Qed.

Lemma settle_loop_sound (net : gmap string R) (fuel : nat) :
  ∀ (C D : list (Node R)) (txns : list (Txn R)) C' D' txns',
  (∀ n, n ∈ C → is_creditor net (name n)) →
  (∀ n, n ∈ D → is_debtor net (name n)) →
  Forall (sound_txn net) txns →
  settle_loop fuel C D txns = Some (C', D', txns') →
  Forall (sound_txn net) txns'.
Proof.
  induction fuel as [|fuel IH]; intros C D txns C' D' txns' HC HD Ht; simpl;
    destruct (settle_iter C D txns) as [[[C1 D1] t1]|] eqn:E; try discriminate.
  - by intros [= <- <- <-].
  - apply settle_iter_names in E as (HC1 & HD1 & Ht1). apply IH.
    + intros n Hn. destruct (HC1 n Hn) as (m & Hm & <-). by apply HC.
    + intros n Hn. destruct (HD1 n Hn) as (m & Hm & <-). by apply HD.
    + destruct Ht1 as [->|(c & d & pay & Hc & Hd & Hpay & ->)]; [done|].
      apply Forall_app. split; [done|]. constructor; [|constructor].
      split; [by apply HD|]. split; [by apply HC|done].
  - by intros [= <- <- <-].
Qed.

Lemma settle_net_sound (net : gmap string R) C D txns :
  settle_net net = Some (C, D, txns) → Forall (sound_txn net) txns.
Proof.
  unfold settle_net. apply settle_loop_sound; [| |constructor].
  - intros n Hn. apply elem_of_creditors in Hn as [Hn Hgt]. by exists (amt n).
  - intros n Hn. apply elem_of_debtors in Hn as (Hn & Hgt & Hlt). by exists (amt n).
Qed.

Lemma debtor_not_creditor (net : gmap string R) (u v : string) :
  is_debtor net u → is_creditor net v → u ≠ v.
Proof.
  intros (y & Hy & Hgt & _) (x & Hx & Hgt') ->. congruence.
Qed.

(** The transactions emitted so far stay: the loop only appends. *)
Lemma settle_loop_appends (fuel : nat) :
  ∀ (C D : list (Node R)) (txns : list (Txn R)) C' D' txns',
  settle_loop fuel C D txns = Some (C', D', txns') → ∃ more, txns' = txns ++ more.
Proof.
  induction fuel as [|fuel IH]; intros C D txns C' D' txns'; simpl;
    destruct (settle_iter C D txns) as [[[C1 D1] t1]|] eqn:E; try discriminate.
  - intros [= <- <- <-]. exists []. by rewrite app_nil_r.
  - intros Hloop. apply IH in Hloop as [more ->].
    apply settle_iter_names in E as (_ & _ & [->|(c & d & pay & _ & _ & _ & ->)]).
    + by exists more.
    + eexists. by rewrite <- app_assoc.
  - intros [= <- <- <-]. exists []. by rewrite app_nil_r.
Qed.

(** The first iteration emits a transaction: both amounts exceed [EPS]. *)
Lemma settle_iter_emits (C D : list (Node R)) C' D' txns' :
  (∀ n, n ∈ C → r_gt (amt n) EPS = true) →
  (∀ n, n ∈ D → r_lt (amt n) (r_neg EPS) = true) →
  settle_iter C D [] = Some (C', D', txns') → txns' ≠ [].
Proof.
  intros HC HD. unfold settle_iter.
  destruct (pq_pop CmpCred C) as [[c C0]|] eqn:EC; [|done].
  destruct (pq_pop CmpDebt D) as [[d D0]|] eqn:ED; [|done].
  apply pq_pop_perm in EC, ED. unfold settle_step. cbv zeta.
  assert (Hc : r_gt (amt c) EPS = true) by (apply HC; rewrite EC; by left).
  assert (Hd : r_gt (r_neg (amt d)) EPS = true).
  { apply debtor_owes, HD. rewrite ED. by left. }
  assert (Hpay : r_gt (r_min (amt c) (r_neg (amt d))) EPS = true).
  { by destruct (r_min_cases (amt c) (r_neg (amt d))) as [-> | ->]. }
  rewrite Hpay. by intros [= _ _ <-].
Qed.

Lemma settle_net_nobody (net : gmap string R) C D txns :
  settle_net net = Some (C, D, txns) →
  (txns = [] ↔ creditors net = [] ∨ debtors net = []).
Proof.
  unfold settle_net. intros Hloop. split.
  - intros ->. destruct (length (creditors net) + length (debtors net)) as [|fuel];
      simpl in Hloop;
      destruct (settle_iter (creditors net) (debtors net) []) as [[[C1 D1] t1]|] eqn:E;
      try discriminate; try (by apply settle_iter_None in E).
    apply settle_loop_appends in Hloop as [more Hmore].
    apply settle_iter_emits in E.
    + symmetry in Hmore. by apply app_eq_nil in Hmore as [-> _].
    + intros n Hn. by apply elem_of_creditors in Hn as [_ ?].
    + intros n Hn. by apply elem_of_debtors in Hn as (_ & _ & ?).
  - intros Hempty.
    assert (settle_iter (creditors net) (debtors net) [] = None) as Hnone
      by (by apply settle_iter_None).
    destruct (length (creditors net) + length (debtors net)); simpl in Hloop;
      rewrite Hnone in Hloop; by injection Hloop as _ _ <-.
Qed.

Lemma creditors_nil (net : gmap string R) :
  creditors net = [] ↔ ∀ u, ¬ is_creditor net u.
Proof.
  split.
  - intros Hc u (x & Hx & Hgt).
    assert (Hin : mkNode u x ∈ creditors net) by (by apply elem_of_creditors).
    rewrite Hc in Hin. by apply elem_of_nil in Hin.
  - intros Hc. destruct (creditors net) as [|n l] eqn:El; [done|]. exfalso.
    assert (Hn : n ∈ creditors net) by (rewrite El; left).
    apply elem_of_creditors in Hn as [Hn Hgt]. apply (Hc (name n)). by exists (amt n).
Qed.

Lemma debtors_nil (net : gmap string R) :
  debtors net = [] ↔ ∀ u, ¬ is_debtor net u.
Proof.
  split.
  - intros Hd u (y & Hy & Hgt & Hlt).
    assert (Hin : mkNode u y ∈ debtors net) by (by apply elem_of_debtors).
    rewrite Hd in Hin. by apply elem_of_nil in Hin.
  - intros Hd. destruct (debtors net) as [|n l] eqn:El; [done|]. exfalso.
    assert (Hn : n ∈ debtors net) by (rewrite El; left).
    apply elem_of_debtors in Hn as (Hn & Hgt & Hlt). apply (Hd (name n)).
    by exists (amt n).
Qed.

End Payments.

(** Every transaction [settle] returns is a payment of more than [EPS] from
    a user whose balance is below [-EPS] to another user, whose balance is
    above [EPS]. Nobody pays themselves, and nobody whose balance is within
    [EPS] of zero pays or is paid. *)
Theorem settle_pays_creditors (b : Book float) (from to : string) (pay : float) :
  ∀ txns, settle b = Some txns → (from, to, pay) ∈ txns →
  is_debtor (computeNet b) from ∧ is_creditor (computeNet b) to ∧
  r_gt pay EPS = true ∧ from ≠ to.
Proof.
  intros txns. unfold settle.
  destruct (settle_net (computeNet b)) as [[[C D] t]|] eqn:E; [|done].
  intros [= <-] Hin. apply settle_net_sound in E.
  rewrite Forall_forall in E. destruct (E _ Hin) as (Hd & Hc & Hpay).
  repeat split; [done..|]. by apply (debtor_not_creditor (computeNet b)).
Qed.

Lemma settle_pays_creditors_witness :
  is_debtor (computeNet book_abc) "B" ∧ is_creditor (computeNet book_abc) "A" ∧
  r_gt 30%float EPS = true ∧ "B" ≠ "A".
Proof.
  apply (settle_pays_creditors book_abc "B" "A" 30%float
           [("B", "A", 30%float); ("C", "A", 30%float)]).
  - vm_compute. reflexivity.
  - left.
Defined.

(** [settle] returns no transaction exactly when nobody's balance is above
    [EPS] or nobody's is below [-EPS]; a creditor is then left unpaid if
    there is one. *)
Theorem settle_nothing_to_do (b : Book float) :
  ∃ txns, settle b = Some txns ∧
    (txns = [] ↔
     (∀ u, ¬ is_creditor (computeNet b) u) ∨ (∀ u, ¬ is_debtor (computeNet b) u)).
Proof.
  unfold settle. destruct (settle_net_total (computeNet b)) as [[[C D] txns] E].
  rewrite E. exists txns. split; [done|].
  by rewrite (settle_net_nobody _ _ _ _ E), creditors_nil, debtors_nil.
Qed.

(** ** Files that are not what [save] wrote *)

Lemma read_users_app (l : list string) (k : nat) (rest : string) (us : gset string) :
  Forall (λ u, is_line u = true) l →
  read_users (length l + k) (write_all show_user l +:+ rest) us
  = read_users k rest (list_to_set l ∪ us).
Proof.
  intros Hl. revert us. induction Hl as [|u l Hu Hl IH]; intros us.
  - simpl. f_equal. set_solver.
  - cbn [length write_all read_users Nat.add]. unfold show_user at 1.
    rewrite !append_assoc, skip_empty_lines_line by done.
    destruct u as [|x u]; [done|]. rewrite append_cons.
    rewrite <- append_cons, take_line_app.
    + rewrite IH. f_equal. set_solver.
    + simpl in Hu |- *. by destruct (Ascii.eqb x _).
Qed.

Lemma read_shares_written_last (l : list (string * float)) :
  ∀ sh : gmap string float,
  ∀ l1 k v l2, l = l1 ++ (k, v) :: l2 → k ∉ l2.*1 →
  foldl put_share sh l !! k = Some v.
Proof.
  intros sh l1 k v l2 -> Hk. rewrite foldl_app. cbn [foldl].
  generalize (foldl put_share sh l1). intros m.
  assert (Hm : put_share m (k, v) !! k = Some v) by apply lookup_insert_eq.
  revert Hm. generalize (put_share m (k, v)). clear m.
  induction l2 as [|[k' v'] l2 IH]; intros m Hm; [done|].
  rewrite fmap_cons, not_elem_of_cons in Hk. destruct Hk as [Hk Hk2].
  cbn [foldl]. apply IH; [done|]. unfold put_share. simpl in Hk |- *.
  by rewrite lookup_insert_ne.
Qed.

Lemma read_expenses_followed (l : list (Expense float)) (rest : string) (b : Book float) :
  Forall storable_expense l →
  read_expenses (length l) (newline +:+ write_all show_expense l +:+ rest) b
  = Done (mkBook (users b) (expenses b ++ l)).
Proof.
  intros Hl. revert b. induction Hl as [|e l He Hl IH]; intros b.
  - simpl. destruct b. by rewrite app_nil_r.
  - destruct He as (Hp & Ha & Hm & Hitems).
    cbn [length write_all read_expenses]. unfold show_expense at 1.
    rewrite !append_assoc. unfold newline at 1. rewrite append_cons, append_nil_l.
    rewrite read_word_skip by done.
    change ("PAYER " +:+ ?X) with ("PAYER" +:+ String " " X).
    rewrite read_word_app by done.
    rewrite read_word_skip by done.
    change (" AMT " +:+ ?X) with (String " " ("AMT" +:+ String " " X)).
    rewrite read_word_app by done.
    rewrite read_word_skip by done.
    rewrite read_word_app by done.
    rewrite read_double_skip by done.
    unfold newline at 1. rewrite append_cons, append_nil_l.
    rewrite (read_double_app _ (amount e)) by done.
    cbn [String.eqb Ascii.eqb Bool.eqb andb negb].
    rewrite read_word_skip by done.
    change ("SHARES " +:+ ?X) with ("SHARES" +:+ String " " X).
    rewrite read_word_app by done.
    rewrite read_size_skip by done.
    unfold newline at 1. rewrite append_cons, append_nil_l.
    rewrite read_size_show_N by done.
    cbn [String.eqb Ascii.eqb Bool.eqb andb negb].
    rewrite Nat2N.id, <- length_items.
    change (String (ascii_of_N 10) ?X) with (newline +:+ X).
    rewrite read_shares_written by done.
    rewrite foldl_put_share_items, IH. simpl.
    destruct e. by rewrite <- app_assoc.
Qed.

Lemma load_text_followed (b : Book float) (rest : string) :
  storable b → load_text (save_text b +:+ rest) = Done b.
Proof.
  intros (Hu & Hnu & Hne & He). unfold load_text, save_text.
  rewrite !append_assoc.
  change ("USERS " +:+ ?X) with ("USERS" +:+ String " " X).
  rewrite read_word_app by done.
  rewrite read_size_skip by done.
  unfold newline at 1. rewrite append_cons, append_nil_l.
  rewrite read_size_show_N by done.
  cbn [String.eqb Ascii.eqb Bool.eqb andb negb ignore_line].
  change (Ascii.eqb (ascii_of_N 10) (ascii_of_N 10)) with true. cbv iota.
  rewrite Nat2N.id. change (size (users b)) with (length (elements (users b))).
  rewrite read_users_written by done.
  change ("EXPENSES " +:+ ?X) with ("EXPENSES" +:+ String " " X).
  rewrite read_word_app by done.
  rewrite read_size_skip by done.
  unfold newline at 1. rewrite append_cons, append_nil_l.
  rewrite read_size_show_N by done.
  cbn [String.eqb Ascii.eqb Bool.eqb andb negb].
  change (String (ascii_of_N 10) ?X) with (newline +:+ X).
  rewrite Nat2N.id, read_expenses_followed by done. cbn [users expenses app].
  rewrite (right_id_L ∅ (∪)), list_to_set_elements_L. by destruct b.
Qed.

(** [load] reads as many expenses as the file announces and nothing after
    them: whatever follows the text that [save] wrote for a ledger that
    survives the round trip, the ledger is loaded as it was. *)
Theorem load_ignores_what_follows (b b0 : Book float) (rest : string) :
  storable b → load b0 (Some (save_text b +:+ rest)) = Done b.
Proof. intros Hb. by apply load_text_followed. Qed.

(** When a file announces more users than it has lines for, [load] never
    returns: at the end of the file [getline] leaves [u] empty, the
    iteration is not counted, and the loop goes on. *)
Theorem load_hangs_on_missing_users (b0 : Book float) (l : list string) (n : N) :
  Forall (λ u, is_line u = true) l →
  (N.of_nat (length l) < n)%N → (n < 2 ^ 64)%N →
  ∃ b', load b0 (Some ("USERS " +:+ show_N n +:+ newline +:+ write_all show_user l))
        = Hang b'.
Proof.
  intros Hl Hlt Hn. exists (mkBook ∅ []). unfold load, load_text.
  change ("USERS " +:+ ?X) with ("USERS" +:+ String " " X).
  rewrite read_word_app by done.
  rewrite read_size_skip by done.
  unfold newline at 1. rewrite append_cons, append_nil_l.
  rewrite read_size_show_N by done.
  cbn [String.eqb Ascii.eqb Bool.eqb andb negb ignore_line].
  change (Ascii.eqb (ascii_of_N 10) (ascii_of_N 10)) with true. cbv iota.
  replace (N.to_nat n) with (length l + S (N.to_nat n - S (length l))) by lia.
  rewrite <- (append_nil_r (write_all show_user l)).
  by rewrite read_users_app.
Qed.

Lemma load_hangs_on_missing_users_witness :
  ∃ b', load book_abc (Some ("USERS 2" +:+ newline +:+ "A" +:+ newline)) = Hang b'.
Proof.
  apply (load_hangs_on_missing_users book_abc ["A"] 2).
  - by repeat constructor.
  - reflexivity.
  - reflexivity.
Defined.

(** When a file lists a participant twice in one expense, the later share
    replaces the earlier one ([e.shares[name] = s]); [addExpenseExact] adds
    them up. *)
Theorem load_keeps_last_share (l : list (string * float)) (rest : string) :
  Forall storable_share l →
  ∃ sh, read_shares (length l) (newline +:+ write_all show_share l +:+ rest) ∅
        = Some (sh, newline +:+ rest) ∧
    ∀ l1 k v l2, l = l1 ++ (k, v) :: l2 → k ∉ l2.*1 → sh !! k = Some v.
Proof.
  intros Hl. eexists. split; [by apply read_shares_written|].
  intros l1 k v l2. apply read_shares_written_last.
Qed.

Lemma load_keeps_last_share_witness :
  ∃ sh, read_shares 2 (newline +:+ "B 7.25" +:+ newline +:+ "B 1.50" +:+ newline) ∅
        = Some (sh, newline) ∧
        sh !! "B" = Some 1.5%float.
Proof.
  destruct (load_keeps_last_share [("B", 7.25%float); ("B", 1.5%float)] "")
    as (sh & Hread & Hlast).
  { repeat constructor; vm_compute; reflexivity. }
  exists sh. split; [exact Hread|].
  apply (Hlast [("B", 7.25%float)] "B" 1.5%float []); [reflexivity|].
  apply not_elem_of_nil.
Defined.

(** [load] does not ask whether a payer is a user: a file without users and
    with one expense is loaded, the ledger it gives has lost its referential
    integrity, and [computeNet] has a balance for the payer, who is no
    user. *)
Theorem load_takes_unknown_payer (b0 : Book float) (p : string) (a : float) :
  is_word p = true → two_decimal a →
  let b := mkBook ∅ [mkExpense p a ∅] in
  load b0 (Some ("USERS 0" +:+ newline +:+ "EXPENSES 1" +:+ newline +:+
                 "PAYER " +:+ p +:+ " AMT " +:+ show_fixed2 a +:+ newline +:+
                 "SHARES 0" +:+ newline)) = Done b ∧
  hasUser b p = false ∧ ¬ well_formed b ∧ dom (computeNet b) = {[p]}.
Proof.
  intros Hp Ha b. split; [|split; [|split]].
  - rewrite <- (load_text_save_text b).
    + unfold load. f_equal. unfold save_text, show_expense, b.
      cbn [users expenses payer amount shares write_all length].
      rewrite size_empty, elements_empty. unfold items.
      rewrite map_to_list_empty. cbn [write_all].
      change (size (∅ : gmap string float)) with 0.
      by rewrite !append_assoc, !append_nil_r.
    + split; [constructor|]. split; [done|]. split; [done|].
      constructor; [|constructor]. split; [done|]. split; [done|].
      split; [done|]. unfold items. cbn [shares]. rewrite map_to_list_empty. constructor.
  - reflexivity.
  - intros Hb. inversion Hb as [|e es [Hin _] _]. by apply elem_of_empty in Hin.
  - rewrite dom_computeNet. simpl. rewrite dom_empty_L. set_solver.
Qed.

Lemma load_takes_unknown_payer_witness :
  load book_abc (Some ("USERS 0" +:+ newline +:+ "EXPENSES 1" +:+ newline +:+
                 "PAYER " +:+ "Zed" +:+ " AMT " +:+ show_fixed2 12.5%float +:+ newline +:+
                 "SHARES 0" +:+ newline)) = Done (mkBook ∅ [mkExpense "Zed" 12.5%float ∅]) ∧
  hasUser (mkBook (R:=float) ∅ [mkExpense "Zed" 12.5%float ∅]) "Zed" = false ∧
  ¬ well_formed (mkBook (R:=float) ∅ [mkExpense "Zed" 12.5%float ∅]) ∧
  dom (computeNet (mkBook ∅ [mkExpense "Zed" 12.5%float ∅])) = {["Zed"]}.
Proof.
  apply (load_takes_unknown_payer book_abc "Zed" 12.5%float).
  - reflexivity.
  - vm_compute. reflexivity.
Defined.

(** ** [<] on binary64 numbers is a strict order *)

Section FloatKey.
Local Open Scope Z_scope.

Lemma Z_mul_compare_r (a b k : Z) : 0 < k → (a * k ?= b * k) = (a ?= b).
Proof.
  intros Hk. destruct (Z.compare_spec a b) as [->|Hlt|Hgt].
  - apply Z.compare_refl.
  - apply Z.compare_lt_iff. nia.
  - apply Z.compare_gt_iff. nia.
Qed.

Lemma bounded_range (m : positive) (e : Z) :
  bounded prec emax m e = true → -1074 <= e <= 971 ∧ Z.pos m < 2 ^ 53.
Proof.
  unfold bounded, canonical_mantissa, fexp, SpecFloat.emin, prec, emax.
  intros [Hc He]%andb_prop. apply Z.eqb_eq in Hc. apply Z.leb_le in He.
  pose proof (digits2_pos_bounds m) as [_ Hm].
  assert (Hd : Z.pos (digits2_pos m) <= 53) by lia.
  assert (2 ^ Z.pos (digits2_pos m) <= 2 ^ 53) by (apply Z.pow_le_mono_r; lia).
  lia.
Qed.

Lemma finite_key_bound (m : positive) (e : Z) :
  bounded prec emax m e = true → 0 < Z.pos m * 2 ^ (e + 1074) < 2 ^ 2100.
Proof.
  intros [He Hm]%bounded_range.
  assert (Hp : 0 < 2 ^ (e + 1074)) by (apply Z.pow_pos_nonneg; lia).
  assert (Hle : 2 ^ (e + 1074) <= 2 ^ 2045) by (apply Z.pow_le_mono_r; lia).
  split; [lia|].
  apply Z.lt_le_trans with (2 ^ 53 * 2 ^ (e + 1074)).
  - apply Z.mul_lt_mono_pos_r; lia.
  - apply Z.le_trans with (2 ^ 53 * 2 ^ 2045).
    + apply Z.mul_le_mono_nonneg_l; lia.
    + rewrite <- Z.pow_add_r by lia. apply Z.pow_le_mono_r; lia.
Qed.

Ltac key_order :=
  first [apply Z.compare_lt_iff | apply Z.compare_gt_iff | apply Z.compare_eq_iff];
  generalize dependent (2 ^ 2100); intros; lia.

Lemma finite_key_compare (m1 m2 : positive) (e1 e2 : Z) :
  bounded prec emax m1 e1 = true → bounded prec emax m2 e2 = true →
  (Z.pos m1 * 2 ^ (e1 + 1074) ?= Z.pos m2 * 2 ^ (e2 + 1074)) =
  match e1 ?= e2 with
  | Lt => Lt
  | Gt => Gt
  | Eq => Pos.compare_cont Eq m1 m2
  end.
Proof.
  intros Hb1 Hb2. rewrite <- (aligned_compare m1 m2 e1 e2 Hb1 Hb2).
  rewrite !shl_align_value by lia.
  apply bounded_range in Hb1 as [He1 _]. apply bounded_range in Hb2 as [He2 _].
  replace (e1 + 1074) with ((e1 - Z.min e1 e2) + (Z.min e1 e2 + 1074)) by lia.
  replace (e2 + 1074) with ((e2 - Z.min e1 e2) + (Z.min e1 e2 + 1074)) by lia.
  rewrite (Z.pow_add_r 2 (e1 - Z.min e1 e2)), (Z.pow_add_r 2 (e2 - Z.min e1 e2)) by lia.
  rewrite !Z.mul_assoc.
  apply Z_mul_compare_r. apply Z.pow_pos_nonneg; lia.
Qed.

(** On valid numbers other than NaN, [SFcompare] compares the keys. *)
Lemma SFcompare_key (x y : spec_float) :
  valid_binary x = true → valid_binary y = true →
  x ≠ S754_nan → y ≠ S754_nan →
  SFcompare x y = Some (sf_key x ?= sf_key y).
Proof.
  intros Hx Hy Hnx Hny.
  assert (HK : 0 < 2 ^ 2100) by (apply Z.pow_pos_nonneg; lia).
  destruct x as [sx|sx| |sx mx ex], y as [sy|sy| |sy my ey]; try done;
    unfold SFcompare, sf_key; f_equal; symmetry;
    try (pose proof (finite_key_bound mx ex Hx) as Hkx);
    try (pose proof (finite_key_bound my ey Hy) as Hky).
  - destruct sy; cbn [cond_Zopp]; key_order.
  - destruct sy; cbn [cond_Zopp]; key_order.
  - destruct sx; cbn [cond_Zopp]; key_order.
  - destruct sx, sy; cbn [cond_Zopp]; key_order.
  - destruct sx, sy; cbn [cond_Zopp]; key_order.
  - destruct sx; cbn [cond_Zopp]; key_order.
  - destruct sx, sy; cbn [cond_Zopp]; key_order.
  - pose proof (finite_key_compare mx my ex ey Hx Hy) as Hc.
    destruct sx, sy; cbn [cond_Zopp]; try key_order.
    + rewrite Z.compare_opp, Z.compare_antisym, Hc. by destruct (ex ?= ey).
    + by rewrite Hc.
Qed.

Lemma SFltb_key (x y : spec_float) :
  valid_binary x = true → valid_binary y = true →
  SFltb x y = true ↔ x ≠ S754_nan ∧ y ≠ S754_nan ∧ sf_key x < sf_key y.
Proof.
  intros Hx Hy. unfold SFltb. split.
  - intros Hlt.
    assert (Hnx : x ≠ S754_nan) by (by intros ->).
    assert (Hny : y ≠ S754_nan) by (intros ->; by destruct x).
    rewrite (SFcompare_key x y Hx Hy Hnx Hny) in Hlt.
    split; [done|]. split; [done|].
    destruct (sf_key x ?= sf_key y) eqn:E; try done; by apply Z.compare_lt_iff.
  - intros (Hnx & Hny & Hlt). rewrite (SFcompare_key x y Hx Hy Hnx Hny).
    apply Z.compare_lt_iff in Hlt. by rewrite Hlt.
Qed.

End FloatKey.

Lemma double_ltb_key (x y : float) :
  (x <? y)%float = true ↔
  Prim2SF x ≠ S754_nan ∧ Prim2SF y ≠ S754_nan ∧ (sf_key (Prim2SF x) < sf_key (Prim2SF y))%Z.
Proof. rewrite ltb_spec. apply SFltb_key; apply Prim2SF_valid. Qed.

Lemma double_ltb_trans (x y z : float) :
  (x <? y)%float = true → (y <? z)%float = true → (x <? z)%float = true.
Proof. rewrite !double_ltb_key. intros (? & ? & ?) (? & ? & ?). repeat split; [done..|lia]. Qed.

Lemma double_ltb_irrefl (x : float) : (x <? x)%float = false.
Proof.
  apply not_true_iff_false. rewrite double_ltb_key. intros (_ & _ & ?). lia.
Qed.

(** Among numbers that are not NaN, what is not below is not above what is
    not below it. *)
Lemma double_ltb_neg_trans (x y z : float) :
  Prim2SF x ≠ S754_nan → Prim2SF y ≠ S754_nan → Prim2SF z ≠ S754_nan →
  (x <? y)%float = false → (y <? z)%float = false → (x <? z)%float = false.
Proof.
  intros Hx Hy Hz Hxy Hyz. apply not_true_iff_false.
  apply not_true_iff_false in Hxy, Hyz. rewrite double_ltb_key in *.
  intros (_ & _ & Hlt).
  destruct (Z_lt_le_dec (sf_key (Prim2SF x)) (sf_key (Prim2SF y))) as [H1|H1].
  - by apply Hxy.
  - apply Hyz. repeat split; [done..|lia].
Qed.

Lemma double_ltb_not_nan (x y : float) :
  (x <? y)%float = true → Prim2SF x ≠ S754_nan ∧ Prim2SF y ≠ S754_nan.
Proof. rewrite double_ltb_key. by intros (? & ? & _). Qed.

(** ** The greedy choice *)

Section Greatest.
Context {R : Type} `{Arith R}.
Variable cmp : Node R → Node R → bool.
Variable sound : Node R → Prop.
Hypothesis cmp_irrefl : ∀ x, cmp x x = false.
Hypothesis cmp_trans : ∀ x y z, cmp x y = true → cmp y z = true → cmp x z = true.
Hypothesis cmp_neg_trans :
  ∀ x y z, sound x → sound y → sound z →
           cmp x y = false → cmp y z = false → cmp x z = false.

(** [top()] is an element that the comparison puts below no other one. *)
Lemma pq_extract_greatest (q : list (Node R)) :
  ∀ x m r, Forall sound (x :: q) → pq_extract cmp x q = (m, r) →
  ∀ z, z ∈ x :: q → cmp m z = false.
Proof.
  induction q as [|y q IH]; intros x m r Hs; simpl.
  - intros [= <- <-] z Hz. apply list_elem_of_singleton in Hz as ->. apply cmp_irrefl.
  - inversion Hs as [|? ? Hx Hyq]; subst. inversion Hyq as [|? ? Hy Hq]; subst.
    destruct (cmp x y) eqn:Hxy.
    + destruct (pq_extract cmp y q) as [m' r'] eqn:E. intros [= <- <-] z Hz.
      pose proof (IH y m' r' Hyq E) as Hmax.
      apply elem_of_cons in Hz as [->|Hz]; [|by apply Hmax].
      destruct (cmp m' x) eqn:Hmx; [|done].
      rewrite <- (Hmax y) by left. symmetry. by apply (cmp_trans m' x y).
    + destruct (pq_extract cmp x q) as [m' r'] eqn:E. intros [= <- <-] z Hz.
      assert (Hxq : Forall sound (x :: q)) by (by constructor).
      pose proof (IH x m' r' Hxq E) as Hmax.
      assert (Hm : sound m').
      { apply pq_extract_perm in E. rewrite Forall_forall in Hxq. apply Hxq.
        rewrite E. left. }
      apply elem_of_cons in Hz as [->|Hz]; [by apply Hmax; left|].
      apply elem_of_cons in Hz as [->|Hz]; [|by apply Hmax; right].
      apply (cmp_neg_trans m' x y); [done..| |done]. apply Hmax. left.
Qed.

Lemma pq_pop_greatest (q : list (Node R)) (m : Node R) (r : list (Node R)) :
  Forall sound q → pq_pop cmp q = Some (m, r) → ∀ z, z ∈ q → cmp m z = false.
Proof.
  destruct q as [|x q]; [done|]. simpl. intros Hs [= E].
  by apply (pq_extract_greatest q x m r).
Qed.

End Greatest.

Section First.
Context {R : Type} `{SettleLaws R}.

(** The first transaction is the one of the first iteration. *)
Lemma settle_net_first (net : gmap string R) C D (t : Txn R) rest :
  settle_net net = Some (C, D, t :: rest) →
  ∃ c C0 d D0,
    pq_pop CmpCred (creditors net) = Some (c, C0) ∧
    pq_pop CmpDebt (debtors net) = Some (d, D0) ∧
    t = (name d, name c, r_min (amt c) (r_neg (amt d))).
Proof.
  unfold settle_net.
  generalize (length (creditors net) + length (debtors net)). intros fuel Hloop.
  assert (Hiter : ∃ C1 D1 t1 fuel',
            settle_iter (creditors net) (debtors net) [] = Some (C1, D1, t1) ∧
            settle_loop fuel' C1 D1 t1 = Some (C, D, t :: rest)).
  { destruct fuel as [|fuel]; simpl in Hloop;
      destruct (settle_iter (creditors net) (debtors net) []) as [[[C1 D1] t1]|] eqn:E;
      try discriminate.
    by exists C1, D1, t1, fuel. }
  destruct Hiter as (C1 & D1 & t1 & fuel' & E & Hrest).
  apply settle_loop_appends in Hrest as [more Hmore].
  unfold settle_iter in E.
  destruct (pq_pop CmpCred (creditors net)) as [[c C0]|] eqn:EC; [|done].
  destruct (pq_pop CmpDebt (debtors net)) as [[d D0]|] eqn:ED; [|done].
  exists c, C0, d, D0. split; [done|]. split; [done|].
  pose proof (pq_pop_perm _ _ _ _ EC) as HC. pose proof (pq_pop_perm _ _ _ _ ED) as HD.
  assert (Hc : r_gt (amt c) EPS = true).
  { assert (Hin : c ∈ creditors net) by (rewrite HC; left).
    by apply elem_of_creditors in Hin as [_ ?]. }
  assert (Hd : r_gt (r_neg (amt d)) EPS = true).
  { assert (Hin : d ∈ debtors net) by (rewrite HD; left).
    apply elem_of_debtors in Hin as (_ & _ & ?). by apply debtor_owes. }
  assert (Hpay : r_gt (r_min (amt c) (r_neg (amt d))) EPS = true).
  { by destruct (r_min_cases (amt c) (r_neg (amt d))) as [-> | ->]. }
  unfold settle_step in E. cbv zeta in E. rewrite Hpay in E.
  injection E as _ _ <-. simpl in Hmore. by injection Hmore as ->.
Qed.

End First.

Lemma CmpCred_irrefl (x : Node float) : CmpCred x x = false.
Proof. apply double_ltb_irrefl. Qed.

Lemma CmpCred_trans (x y z : Node float) :
  CmpCred x y = true → CmpCred y z = true → CmpCred x z = true.
Proof. apply double_ltb_trans. Qed.

Lemma CmpCred_neg_trans (x y z : Node float) :
  not_nan x → not_nan y → not_nan z →
  CmpCred x y = false → CmpCred y z = false → CmpCred x z = false.
Proof. apply double_ltb_neg_trans. Qed.

Lemma CmpDebt_irrefl (x : Node float) : CmpDebt x x = false.
Proof. apply double_ltb_irrefl. Qed.

Lemma CmpDebt_trans (x y z : Node float) :
  CmpDebt x y = true → CmpDebt y z = true → CmpDebt x z = true.
Proof. intros Hxy Hyz. by apply (double_ltb_trans (amt z) (amt y) (amt x)). Qed.

Lemma CmpDebt_neg_trans (x y z : Node float) :
  not_nan x → not_nan y → not_nan z →
  CmpDebt x y = false → CmpDebt y z = false → CmpDebt x z = false.
Proof.
  intros Hx Hy Hz Hxy Hyz. by apply (double_ltb_neg_trans (amt z) (amt y) (amt x)).
Qed.

(** [settle] is greedy: its first transaction goes to a user whose balance
    no other balance exceeds, from a user than whose balance none is lower,
    and its amount is the smaller of what the one is owed and what the other
    owes. *)
Theorem settle_starts_with_the_largest (b : Book float) (t : Txn float) (rest : list (Txn float)) :
  settle b = Some (t :: rest) →
  ∃ x y, computeNet b !! t.1.2 = Some x ∧ computeNet b !! t.1.1 = Some y ∧
    t.2 = r_min x (r_neg y) ∧
    ∀ u v, computeNet b !! u = Some v → (x <? v)%float = false ∧ (v <? y)%float = false.
Proof.
  unfold settle. destruct (settle_net (computeNet b)) as [[[C D] txns]|] eqn:E; [|done].
  simpl. intros [= ->]. set (net := computeNet b) in *.
  apply settle_net_first in E as (c & C0 & d & D0 & EC & ED & ->).
  pose proof (pq_pop_perm _ _ _ _ EC) as HC. pose proof (pq_pop_perm _ _ _ _ ED) as HD.
  assert (Hc : c ∈ creditors net) by (rewrite HC; left).
  assert (Hd : d ∈ debtors net) by (rewrite HD; left).
  apply elem_of_creditors in Hc as [Hc Hcgt].
  apply elem_of_debtors in Hd as (Hd & Hdgt & Hdlt).
  exists (amt c), (amt d). split; [done|]. split; [done|]. split; [done|].
  intros u v Hv. split.
  - destruct (r_gt v EPS) eqn:Hgt.
    + apply (pq_pop_greatest CmpCred not_nan CmpCred_irrefl CmpCred_trans
               CmpCred_neg_trans (creditors net) c C0) with (z := mkNode u v); [|done|].
      * apply Forall_forall. intros n [_ Hn]%elem_of_creditors.
        by apply double_ltb_not_nan in Hn as [_ ?].
      * by apply elem_of_creditors.
    + apply not_true_iff_false. intros Hlt. apply not_true_iff_false in Hgt.
      apply Hgt. by apply (double_ltb_trans _ (amt c)).
  - destruct (r_lt v (r_neg EPS)) eqn:Hlt.
    + destruct (r_gt v EPS) eqn:Hgt.
      { by rewrite (creditor_not_debtor v Hgt) in Hlt. }
      apply (pq_pop_greatest CmpDebt not_nan CmpDebt_irrefl CmpDebt_trans
               CmpDebt_neg_trans (debtors net) d D0) with (z := mkNode u v); [|done|].
      * apply Forall_forall. intros n (_ & _ & Hn)%elem_of_debtors.
        by apply double_ltb_not_nan in Hn as [? _].
      * by apply elem_of_debtors.
    + apply not_true_iff_false. intros Hvd. apply not_true_iff_false in Hlt.
      apply Hlt. by apply (double_ltb_trans _ (amt d)).
Qed.

Lemma settle_starts_with_the_largest_witness :
  ∃ x y, computeNet book_abc !! "A" = Some x ∧ computeNet book_abc !! "B" = Some y ∧
    30%float = r_min x (r_neg y) ∧
    ∀ u v, computeNet book_abc !! u = Some v →
           (x <? v)%float = false ∧ (v <? y)%float = false.
Proof.
  apply (settle_starts_with_the_largest book_abc ("B", "A", 30%float)
           [("C", "A", 30%float)]).
  vm_compute. reflexivity.
Defined.

(** ** The command interpreter *)

(** *** Words and lines as the interpreter reads them *)

Lemma skip_space_found (s : string) (c : ascii) (r : string) :
  skip_space s = String c r → is_space c = false.
Proof.
  induction s as [|x s IH]; [done|]. simpl.
  destruct (is_space x) eqn:Hx; [done|]. by intros [= <- <-].
Qed.

Lemma skip_space_length (s : string) : String.length (skip_space s) ≤ String.length s.
Proof.
  induction s as [|x s IH]; [done|]. simpl. destruct (is_space x); simpl; lia.
Qed.

Lemma take_word_no_space (s : string) : no_space (take_word s).1 = true.
Proof.
  induction s as [|x s IH]; [done|]. simpl.
  destruct (is_space x) eqn:Hx; [done|].
  destruct (take_word s) as [w r]. simpl in *. by rewrite Hx.
Qed.

Lemma take_word_length (s : string) :
  String.length (take_word s).1 + String.length (take_word s).2 = String.length s.
Proof.
  induction s as [|x s IH]; [done|]. simpl.
  destruct (is_space x); [done|].
  destruct (take_word s) as [w r]. simpl in *. lia.
Qed.

Lemma read_word_is_word (s w r : string) : read_word s = Some (w, r) → is_word w = true.
Proof.
  unfold read_word. destruct (skip_space s) as [|c s1] eqn:E; [done|].
  apply skip_space_found in E. intros [= Hw]. simpl in Hw. rewrite E in Hw.
  pose proof (take_word_no_space s1) as Hns.
  destruct (take_word s1) as [w1 r1]. injection Hw as <- <-.
  simpl in *. by rewrite E.
Qed.

Lemma read_word_shorter (s w r : string) :
  read_word s = Some (w, r) → String.length r < String.length s.
Proof.
  intros Hread. pose proof (read_word_is_word s w r Hread) as Hw.
  unfold read_word in Hread. pose proof (skip_space_length s) as Hlen.
  destruct (skip_space s) as [|c s1]; [done|].
  pose proof (take_word_length (String c s1)) as Htw.
  destruct (take_word (String c s1)) as [w1 r1]. injection Hread as -> ->.
  destruct w; [done|]. simpl in *. lia.
Qed.

Lemma read_words_fuel_enough (fuel : nat) :
  ∀ s, String.length s ≤ fuel → read_words_fuel fuel s = read_words s.
Proof.
  unfold read_words.
  assert (Hgen : ∀ n fuel fuel' s, String.length s ≤ n → n ≤ fuel → n ≤ fuel' →
                 read_words_fuel fuel s = read_words_fuel fuel' s).
  { induction n as [|n IH]; intros f f' s Hs Hf Hf'.
    - destruct s; [|simpl in Hs; lia]. by destruct f, f'.
    - destruct f as [|f]; [lia|]. destruct f' as [|f']; [lia|]. simpl.
      destruct (read_word s) as [[w r]|] eqn:E; [|done].
      apply read_word_shorter in E. f_equal. apply IH; lia. }
  intros s Hs. by apply (Hgen (String.length s)).
Qed.

Lemma read_words_words (fuel : nat) :
  ∀ s, Forall (λ w, is_word w = true) (read_words_fuel fuel s).
Proof.
  induction fuel as [|fuel IH]; intros s; simpl; [constructor|].
  destruct (read_word s) as [[w r]|] eqn:E; [|constructor].
  constructor; [by apply read_word_is_word in E|apply IH].
Qed.

Lemma take_line_no_newline (s : string) : no_newline (take_line s).1 = true.
Proof.
  induction s as [|x s IH]; [done|]. simpl.
  destruct (Ascii.eqb x _) eqn:Hx; [done|].
  destruct (take_line s) as [l r]. simpl in *. by rewrite Hx.
Qed.

(** [split_lines] gives the lines that [getline] gives, one after the
    other. *)
Lemma split_lines_take_line (c : ascii) (s : string) :
  split_lines (String c s)
  = (take_line (String c s)).1 :: split_lines (take_line (String c s)).2.
Proof.
  revert c. induction s as [|x s IH]; intros c.
  - simpl. by destruct (Ascii.eqb c _).
  - change (split_lines (String c (String x s))) with
      (if Ascii.eqb c (ascii_of_N 10) then EmptyString :: split_lines (String x s)
       else match split_lines (String x s) with
            | [] => [String c EmptyString]
            | l :: ls => String c l :: ls
            end).
    change (take_line (String c (String x s))) with
      (if Ascii.eqb c (ascii_of_N 10) then (EmptyString, String x s)
       else let '(l, rest) := take_line (String x s) in (String c l, rest)).
    destruct (Ascii.eqb c _); [done|]. rewrite IH.
    by destruct (take_line (String x s)).
Qed.

(** *** What a command does to the ledger *)

Lemma report_Next (fs : gmap string string) (ok : string) (o : outcome float) w' out :
  report fs ok o = Next w' out →
  book w' = store_after o ∧ files w' = fs ∧
  ((∃ b, o = Done b ∧ out = ok) ∨ (∃ e b, o = Fail e b)).
Proof.
  destruct o as [b|e b|x b|b]; simpl; intros [= <- <-]; try done.
  - split; [done|]. split; [done|]. left. by exists b.
  - split; [done|]. split; [done|]. right. by exists e, b.
Qed.

Lemma addExpenseEqual_store (b : Book float) p a ps :
  store_after (addExpenseEqual b p a ps) = b ∨
  ∃ e, store_after (addExpenseEqual b p a ps) = push_expense b e.
Proof.
  unfold addExpenseEqual. destruct (negb (hasUser b p)); [by left|].
  destruct ps as [|q ps]; [by left|].
  destruct (first_unknown b (q :: ps)); [by left|]. right. by eexists.
Qed.

Lemma addExpenseExact_store (b : Book float) p a ts :
  store_after (addExpenseExact b p a ts) = b ∨
  ∃ e, store_after (addExpenseExact b p a ts) = push_expense b e.
Proof.
  unfold addExpenseExact. destruct (negb (hasUser b p)); [by left|].
  destruct ts as [|t ts]; [by left|].
  destruct (exact_tokens b (t :: ts) ∅ r_zero); [|by left..].
  destruct (r_gt _ _); [by left|]. right. by eexists.
Qed.

Lemma store_grows_refl (b : Book float) :
  users b ⊆ users b ∧ ∃ more, expenses b = expenses b ++ more ∧ length more ≤ 1.
Proof. split; [done|]. exists []. rewrite app_nil_r. split; [done|simpl; lia]. Qed.

Lemma store_grows_cases (b b' : Book float) :
  b' = b ∨ (∃ e, b' = push_expense b e) →
  users b ⊆ users b' ∧ ∃ more, expenses b' = expenses b ++ more ∧ length more ≤ 1.
Proof.
  intros [->|[e ->]]; [apply store_grows_refl|].
  split; [done|]. exists [e]. split; [done|simpl; lia].
Qed.

Lemma store_unchanged (b : Book float) :
  users b ⊆ users b ∧
  (∃ more, expenses b = expenses b ++ more ∧ length more ≤ 1) ∧
  (well_formed b → well_formed b).
Proof. destruct (store_grows_refl b) as [Hu He]. by repeat split. Qed.


(** No command but [load] takes anything away: after a line whose first
    word is not [load] every user is still there, the expenses are those
    there were with at most one more at the end, and a ledger whose payers
    and participants were all users is still such a ledger. *)
Theorem commands_keep_the_ledger (can_write : string → bool) (junk : float)
    (w : World) (line : string) (w' : World) (out : string) :
  (∀ r, read_word line ≠ Some ("load", r)) →
  exec_line can_write junk w line = Next w' out →
  users (book w) ⊆ users (book w') ∧
  (∃ more, expenses (book w') = expenses (book w) ++ more ∧ length more ≤ 1) ∧
  (well_formed (book w) → well_formed (book w')).
Proof.
  intros Hload. unfold exec_line.
  destruct (read_word line) as [[cmd rest]|] eqn:Hcmd.
  2:{ simpl. intros [= <- <-]. apply store_unchanged. }
  destruct (String.eqb cmd "exit" || String.eqb cmd "quit"); [done|].
  destruct (String.eqb cmd "help").
  { intros [= <- <-]. apply store_unchanged. }
  destruct (String.eqb cmd "add-user").
  { cbv zeta. destruct (match (take_line rest).1 with
                        | EmptyString => _ | String c n => _ end) as [|c name].
    - intros [= <- <-]. apply store_unchanged.
    - intros [= <- <-]. simpl. split; [set_solver|]. split.
      + exists []. rewrite app_nil_r. split; [done|simpl; lia].
      + apply well_formed_addUser. }
  destruct (String.eqb cmd "add-expense").
  { cbv zeta. destruct (String.eqb _ "equal").
    - destruct (read_expense_args junk _) as [[p a] parts].
      intros Hrep. apply report_Next in Hrep as (-> & _ & _).
      destruct (store_grows_cases (book w) _ (addExpenseEqual_store (book w) p a parts))
        as [Hu Hes].
      split; [done|]. split; [done|]. apply well_formed_equal.
    - destruct (String.eqb _ "exact").
      + destruct (read_expense_args junk _) as [[p a] tokens].
        intros Hrep. apply report_Next in Hrep as (-> & _ & _).
        destruct (store_grows_cases (book w) _ (addExpenseExact_store (book w) p a tokens))
          as [Hu Hes].
        split; [done|]. split; [done|]. apply well_formed_exact.
      + intros [= <- <-]. apply store_unchanged. }
  destruct (String.eqb cmd "balances").
  { intros [= <- <-]. apply store_unchanged. }
  destruct (String.eqb cmd "settle").
  { destruct (settle (book w)); [|done]. intros [= <- <-]. apply store_unchanged. }
  destruct (String.eqb cmd "save").
  { cbv zeta. destruct (read_file_name rest) as [|c f].
    - intros [= <- <-]. apply store_unchanged.
    - unfold save. destruct (can_write (String c f)); simpl; intros [= <- <-]; simpl;
        apply store_unchanged. }
  destruct (String.eqb cmd "load") eqn:Hl.
  { apply String.eqb_eq in Hl. subst cmd. by destruct (Hload rest). }
  intros [= <- <-]. apply store_unchanged.
Qed.

Lemma commands_keep_the_ledger_witness :
  users book_ab ⊆ users (store_after (addExpenseEqual book_ab "A" 90%float ["A"; "B"])) ∧
  (∃ more, expenses (store_after (addExpenseEqual book_ab "A" 90%float ["A"; "B"]))
           = expenses book_ab ++ more ∧ length more ≤ 1) ∧
  (well_formed book_ab →
   well_formed (store_after (addExpenseEqual book_ab "A" 90%float ["A"; "B"]))).
Proof.
  apply (commands_keep_the_ledger (λ _, true) 0%float (mkWorld book_ab ∅)
           "add-expense equal A 90 A B"
           (mkWorld (store_after (addExpenseEqual book_ab "A" 90%float ["A"; "B"])) ∅)
           ("Added equal expense." +:+ newline)).
  - intros r. vm_compute. discriminate.
  - vm_compute. reflexivity.
Defined.

Lemma read_expenses_not_Throw (n : nat) :
  ∀ s b x b', read_expenses n s b ≠ Throw x b'.
Proof.
  induction n as [|n IH]; intros s b x b'; simpl; [done|].
  repeat case_match; try done; apply IH.
Qed.

Lemma load_not_Throw (b : Book float) (file : option string) x b' :
  load b file ≠ Throw x b'.
Proof.
  destruct file as [text|]; [|done]. unfold load, load_text.
  repeat case_match; try done; apply read_expenses_not_Throw.
Qed.

(** The program ends with an exception only in [add-expense exact], where
    [stod] throws, and gets stuck only in [load], where the loop over the
    users may not end. Every other line is answered. *)
Theorem only_exact_aborts_only_load_hangs (can_write : string → bool) (junk : float)
    (w : World) (line : string) :
  match exec_line can_write junk w line with
  | Abort x =>
    ∃ rest rest', read_word line = Some ("add-expense", rest) ∧
                  read_word rest = Some ("exact", rest')
  | Stuck => ∃ rest, read_word line = Some ("load", rest)
  | Next _ _ | Break => True
  end.
Proof.
  unfold exec_line. destruct (read_word line) as [[cmd rest]|] eqn:Hcmd; [|done].
  destruct (String.eqb cmd "exit" || String.eqb cmd "quit"); [done|].
  destruct (String.eqb cmd "help"); [done|].
  destruct (String.eqb cmd "add-user").
  { cbv zeta. by destruct (match (take_line rest).1 with
                           | EmptyString => _ | String c n => _ end). }
  destruct (String.eqb cmd "add-expense") eqn:Hadd.
  { apply String.eqb_eq in Hadd. subst cmd. cbv zeta.
    destruct (read_word rest) as [[type rest']|] eqn:Htype; simpl.
    - destruct (String.eqb type "equal").
      + destruct (read_expense_args junk rest') as [[p a] parts].
        unfold addExpenseEqual. destruct (negb _); [done|].
        destruct parts; [done|]. by destruct (first_unknown _ _).
      + destruct (String.eqb type "exact") eqn:Hex; [|done].
        apply String.eqb_eq in Hex. subst type.
        destruct (read_expense_args junk rest') as [[p a] tokens].
        destruct (addExpenseExact (book w) p a tokens) eqn:E; simpl; try done.
        * by exists rest, rest'.
        * unfold addExpenseExact in E. destruct (negb _); [done|].
          destruct tokens; [done|]. destruct (exact_tokens _ _ _ _); [|done..].
          by destruct (r_gt _ _).
    - unfold read_expense_args. simpl. unfold addExpenseEqual.
      by destruct (negb (hasUser (book w) "")). }
  destruct (String.eqb cmd "balances"); [done|].
  destruct (String.eqb cmd "settle").
  { unfold settle. by destruct (settle_net_total (computeNet (book w))) as [st ->]. }
  destruct (String.eqb cmd "save").
  { cbv zeta. destruct (read_file_name rest) as [|c f]; [done|].
    unfold save. by destruct (can_write (String c f)). }
  destruct (String.eqb cmd "load") eqn:Hl; [|done].
  apply String.eqb_eq in Hl. subst cmd. cbv zeta.
  destruct (read_file_name rest) as [|c f]; [done|].
  destruct (load _ _) eqn:E; simpl; try done.
  - by apply load_not_Throw in E.
  - by exists rest.
Qed.

(** The amount that [add-expense] passes on when it could not read one is
    never looked at: without an amount there are no participants or tokens
    either, and both operations fail before they use the amount. *)
Theorem unread_amount_is_not_used (can_write : string → bool) (junk junk' : float)
    (w : World) (line : string) :
  exec_line can_write junk w line = exec_line can_write junk' w line.
Proof.
  unfold exec_line. destruct (read_word line) as [[cmd rest]|]; [|done].
  destruct (String.eqb cmd "exit" || String.eqb cmd "quit"); [done|].
  destruct (String.eqb cmd "help"); [done|].
  destruct (String.eqb cmd "add-user"); [done|].
  destruct (String.eqb cmd "add-expense"); [|done]. cbv zeta.
  unfold read_expense_args.
  destruct (String.eqb _ "equal").
  { destruct (read_word _) as [[p s1]|].
    - destruct (read_double s1) as [[a s2]|]; [done|].
      unfold addExpenseEqual. by destruct (negb (hasUser (book w) p)).
    - unfold addExpenseEqual. by destruct (negb (hasUser (book w) "")). }
  destruct (String.eqb _ "exact"); [|done].
  destruct (read_word _) as [[p s1]|].
  - destruct (read_double s1) as [[a s2]|]; [done|].
    unfold addExpenseExact. by destruct (negb (hasUser (book w) p)).
  - unfold addExpenseExact. by destruct (negb (hasUser (book w) "")).
Qed.

(** *** Saving and loading from the prompt *)

Lemma take_word_whole (w : string) : no_space w = true → take_word w = (w, EmptyString).
Proof.
  induction w as [|x w IH]; [done|]. simpl.
  destruct (is_space x); [done|]. simpl. intros Hw. by rewrite IH.
Qed.

Lemma read_word_whole (w : string) : is_word w = true → read_word w = Some (w, EmptyString).
Proof.
  destruct w as [|x w]; [done|]. intros Hw. unfold read_word. simpl in Hw.
  destruct (is_space x) eqn:Hx; [done|]. simpl in Hw.
  assert (skip_space (String x w) = String x w) as -> by (simpl; by rewrite Hx).
  cbn [take_word]. by rewrite Hx, (take_word_whole w Hw).
Qed.

Lemma read_file_name_word (f : string) :
  is_word f = true → read_file_name (String " " f) = f.
Proof.
  intros Hf. unfold read_file_name.
  by rewrite read_word_skip, read_word_whole.
Qed.

(** [save <file>] writes the ledger to the file when the file can be opened,
    and from then on [load <file>] brings that ledger back, whatever the
    store holds at that moment, as long as the file is not written again
    and the ledger is one that survives the round trip. *)
Theorem saved_ledger_comes_back (can_write : string → bool) (junk : float)
    (w : World) (f : string) :
  is_word f = true → can_write f = true → storable (book w) →
  let w1 := mkWorld (book w) (<[f := save_text (book w)]> (files w)) in
  exec_line can_write junk w ("save " +:+ f) = Next w1 ("Saved to " +:+ f +:+ newline) ∧
  ∀ b2 fs2, fs2 !! f = Some (save_text (book w)) →
    exec_line can_write junk (mkWorld b2 fs2) ("load " +:+ f)
    = Next (mkWorld (book w) fs2) ("Loaded from " +:+ f +:+ newline).
Proof.
  intros Hf Hcw Hb w1. split.
  - unfold exec_line.
    change ("save " +:+ f) with ("save" +:+ String " " f).
    rewrite read_word_app by done.
    change (String.eqb "save" "exit" || String.eqb "save" "quit") with false.
    change (String.eqb "save" "help") with false.
    change (String.eqb "save" "add-user") with false.
    change (String.eqb "save" "add-expense") with false.
    change (String.eqb "save" "balances") with false.
    change (String.eqb "save" "settle") with false.
    change (String.eqb "save" "save") with true.
    cbv iota zeta. rewrite read_file_name_word by done.
    destruct f as [|c f]; [done|]. unfold save. by rewrite Hcw.
  - intros b2 fs2 Hfs. unfold exec_line.
    change ("load " +:+ f) with ("load" +:+ String " " f).
    rewrite read_word_app by done.
    change (String.eqb "load" "exit" || String.eqb "load" "quit") with false.
    change (String.eqb "load" "help") with false.
    change (String.eqb "load" "add-user") with false.
    change (String.eqb "load" "add-expense") with false.
    change (String.eqb "load" "balances") with false.
    change (String.eqb "load" "settle") with false.
    change (String.eqb "load" "save") with false.
    change (String.eqb "load" "load") with true.
    cbv iota zeta. rewrite read_file_name_word by done.
    destruct f as [|c f]; [done|]. cbn [book files]. rewrite Hfs.
    unfold load. by rewrite load_text_save_text.
Qed.

(** *** What [settle] prints *)

Lemma printTxns_settled (txns : list (Txn float)) :
  printTxns txns = "Everyone is settled." +:+ newline ↔ txns = [].
Proof.
  split; [|by intros ->]. by destruct txns.
Qed.

(** The command [settle] changes nothing and answers "Everyone is settled."
    exactly when no balance is above [EPS] or no balance is below [-EPS];
    it says so as well when somebody is owed and nobody owes. *)
Theorem settle_command_message (can_write : string → bool) (junk : float) (w : World) :
  ∃ out, exec_line can_write junk w "settle" = Next w out ∧
    (out = "Everyone is settled." +:+ newline ↔
     (∀ u, ¬ is_creditor (computeNet (book w)) u) ∨
     (∀ u, ¬ is_debtor (computeNet (book w)) u)).
Proof.
  unfold exec_line.
  change (read_word "settle") with (Some ("settle", EmptyString)).
  change (String.eqb "settle" "exit" || String.eqb "settle" "quit") with false.
  change (String.eqb "settle" "help") with false.
  change (String.eqb "settle" "add-user") with false.
  change (String.eqb "settle" "add-expense") with false.
  change (String.eqb "settle" "balances") with false.
  change (String.eqb "settle" "settle") with true.
  cbv iota zeta. unfold settle.
  destruct (settle_net_total (computeNet (book w))) as [[[C D] txns] E].
  rewrite E. simpl. exists (printTxns txns). split; [done|].
  by rewrite printTxns_settled, (settle_net_nobody _ _ _ _ E), creditors_nil, debtors_nil.
Qed.

(** *** The names a session leaves in the ledger *)

Lemma is_word_line_no_space (k : string) :
  is_line k = true → no_space k = true → is_word k = true.
Proof. by destruct k. Qed.

Lemma is_word_no_space (k : string) : is_word k = true → no_space k = true.
Proof. by destruct k. Qed.

Lemma split_colon_no_space (t n v : string) :
  split_colon t = Some (n, v) → no_space t = true → no_space n = true.
Proof.
  revert n. induction t as [|c t IH]; intros n; [done|]. simpl.
  destruct (Ascii.eqb c ":").
  - by intros [= <- <-].
  - destruct (split_colon t) as [[n' v']|]; [|done]. intros [= <- <-].
    intros [Hc Ht]%andb_prop. simpl. rewrite Hc. by apply IH.
Qed.

Lemma token_shares_names {R : Type} `{Stod R} (ts : list string) :
  ∀ l : list (string * R), token_shares ts = Some l →
  Forall (λ t, no_space t = true) ts → Forall (λ kv, no_space kv.1 = true) l.
Proof.
  induction ts as [|t ts IH]; intros l; simpl.
  - intros [= <-]. constructor.
  - destruct (split_colon t) as [[n text]|] eqn:Ht; [|done].
    destruct (stod text) as [v|]; [|done].
    destruct (token_shares ts) as [l'|]; [|done]. intros [= <-] Hts.
    inversion Hts as [|? ? Hn Hts']; subst. constructor.
    + simpl. by apply (split_colon_no_space t n text).
    + by apply IH.
Qed.

Lemma plain_names_push (b : Book float) (e : Expense float) :
  plain_names b → is_word (payer e) = true →
  (∀ k, k ∈ dom (shares e) → is_word k = true) →
  plain_names (push_expense b e).
Proof.
  intros [Hu He] Hp Hs. split; [done|]. simpl.
  apply Forall_app. split; [done|]. by repeat constructor.
Qed.

Lemma plain_names_equal (b : Book float) p a ps :
  plain_names b → (ps ≠ [] → is_word p = true ∧ Forall (λ q, is_word q = true) ps) →
  plain_names (store_after (addExpenseEqual b p a ps)).
Proof.
  intros Hb Hps. unfold addExpenseEqual. destruct (negb (hasUser b p)); [done|].
  destruct ps as [|q ps]; [done|]. destruct (first_unknown b (q :: ps)); [done|].
  destruct Hps as [Hp Hqs]; [done|]. simpl.
  apply plain_names_push; [done..|]. simpl. unfold equal_shares.
  rewrite dom_equal_shares, dom_empty_L. intros k Hk.
  apply elem_of_union in Hk as [Hk|Hk]; [set_solver|].
  apply elem_of_list_to_set in Hk. rewrite Forall_forall in Hqs. by apply Hqs.
Qed.

Lemma plain_names_exact (b : Book float) p a ts :
  plain_names b → (ts ≠ [] → is_word p = true ∧ Forall (λ q, is_word q = true) ts) →
  plain_names (store_after (addExpenseExact b p a ts)).
Proof.
  intros Hb Hts. unfold addExpenseExact. destruct (negb (hasUser b p)); [done|].
  destruct ts as [|t ts]; [done|].
  destruct (exact_tokens b (t :: ts) ∅ r_zero) as [sh sum|e|x] eqn:Ht; [|done..].
  destruct (r_gt _ _); [done|]. destruct Hts as [Hp Hws]; [done|]. simpl.
  apply exact_tokens_ok in Ht as (l & Hl & Husers & -> & _).
  apply plain_names_push; [done..|]. simpl.
  rewrite dom_exact_shares, dom_empty_L. intros k Hk.
  apply elem_of_union in Hk as [Hk|Hk]; [set_solver|].
  apply elem_of_list_to_set, list_elem_of_fmap in Hk as ([k' v] & -> & Hin).
  apply (token_shares_names (t :: ts)) in Hl.
  2:{ eapply Forall_impl; [exact Hws|]. intros. by apply is_word_no_space. }
  rewrite Forall_forall in Hl, Husers. simpl.
  apply is_word_line_no_space; [|by apply (Hl _ Hin)].
  destruct Hb as [Hu _]. apply Hu. by apply hasUser_true, (Husers _ Hin).
Qed.

Lemma skip_empty_lines_found (s : string) (c : ascii) (r : string) :
  skip_empty_lines s = String c r → Ascii.eqb c (ascii_of_N 10) = false.
Proof.
  induction s as [|x s IH]; [done|]. simpl.
  destruct (Ascii.eqb x _) eqn:Hx; [done|]. by intros [= <- <-].
Qed.

Lemma take_line_is_line (c : ascii) (r : string) :
  Ascii.eqb c (ascii_of_N 10) = false → is_line (take_line (String c r)).1 = true.
Proof.
  intros Hc. pose proof (take_line_no_newline (String c r)) as Hn.
  simpl in *. rewrite Hc in *. by destruct (take_line r).
Qed.

Lemma read_users_lines (n : nat) :
  ∀ s (us us' : gset string) r,
  read_users n s us = Some (us', r) →
  (∀ u, u ∈ us → is_line u = true) → ∀ u, u ∈ us' → is_line u = true.
Proof.
  induction n as [|n IH]; intros s us us' r; cbn [read_users].
  - by intros [= <- <-].
  - destruct (skip_empty_lines s) as [|c s1] eqn:E; [done|].
    apply skip_empty_lines_found in E.
    pose proof (take_line_is_line c s1 E) as Hline.
    destruct (take_line (String c s1)) as [u1 rest]. intros Hread Hus.
    apply (IH _ _ _ _ Hread). intros u Hu.
    apply elem_of_union in Hu as [Hu|Hu]; [|by apply Hus].
    apply elem_of_singleton in Hu. by subst u.
Qed.

Lemma read_shares_words (m : nat) :
  ∀ s (sh sh' : gmap string float) r,
  read_shares m s sh = Some (sh', r) →
  (∀ k, k ∈ dom sh → is_word k = true) → ∀ k, k ∈ dom sh' → is_word k = true.
Proof.
  induction m as [|m IH]; intros s sh sh' r; simpl.
  - by intros [= <- <-].
  - destruct (read_word s) as [[k1 s1]|] eqn:Hk; [|done].
    destruct (read_double s1) as [[x s2]|]; [|done].
    intros Hread Hsh. apply (IH _ _ _ _ Hread). intros k.
    rewrite dom_insert_L. intros Hin.
    apply elem_of_union in Hin as [Hin|Hin]; [|by apply Hsh].
    apply elem_of_singleton in Hin. subst k. by apply read_word_is_word in Hk.
Qed.

Lemma read_expenses_plain (n : nat) :
  ∀ s b, plain_names b → plain_names (store_after (read_expenses n s b)).
Proof.
  induction n as [|n IH]; intros s b Hb; simpl; [done|].
  destruct (read_word s) as [[tag1 s1]|]; [|done].
  destruct (read_word s1) as [[p s2]|] eqn:Hp; [|done].
  destruct (read_word s2) as [[tag2 s3]|]; [|done].
  destruct (read_double s3) as [[a s4]|]; [|done].
  destruct (negb _); [done|].
  destruct (read_word s4) as [[tag3 s5]|]; [|done].
  destruct (read_size s5) as [[m s6]|]; [|done].
  destruct (negb _); [done|].
  destruct (read_shares (N.to_nat m) s6 ∅) as [[sh s7]|] eqn:Hsh; [|done].
  apply IH, plain_names_push; [done|..]; simpl.
  - by apply read_word_is_word in Hp.
  - apply (read_shares_words _ _ _ _ _ Hsh). intros k. by rewrite dom_empty_L.
Qed.

Lemma load_plain (b : Book float) (file : option string) :
  plain_names b → plain_names (store_after (load b file)).
Proof.
  intros Hb. destruct file as [text|]; [|done]. unfold load, load_text.
  assert (Hclear : plain_names (mkBook (R:=float) ∅ [])) by (split; [set_solver|constructor]).
  destruct (read_word text) as [[tag s1]|]; [|done].
  destruct (read_size s1) as [[n s2]|]; [|done].
  destruct (negb _); [done|].
  destruct (read_users _ _ _) as [[us s3]|] eqn:Hus; [|done].
  assert (Hb1 : plain_names (mkBook (R:=float) us [])).
  { split; [|constructor]. simpl. apply (read_users_lines _ _ _ _ _ Hus). set_solver. }
  destruct (read_word s3) as [[tag' s4]|]; [|done].
  destruct (read_size s4) as [[k s5]|]; [|done].
  destruct (negb _); [done|]. by apply read_expenses_plain.
Qed.

Lemma read_expense_args_words (junk : float) (s : string) p a parts :
  read_expense_args junk s = (p, a, parts) →
  parts ≠ [] → is_word p = true ∧ Forall (λ q, is_word q = true) parts.
Proof.
  unfold read_expense_args. destruct (read_word s) as [[p' s1]|] eqn:Hp.
  - destruct (read_double s1) as [[a' s2]|].
    + intros [= <- <- <-] _. split; [by apply read_word_is_word in Hp|].
      apply read_words_words.
    + by intros [= <- <- <-].
  - by intros [= <- <- <-].
Qed.

Lemma report_store (fs : gmap string string) (ok : string) (o : outcome float) w' out :
  report fs ok o = Next w' out → book w' = store_after o.
Proof. destruct o; simpl; by intros [= <- <-]. Qed.

Lemma exec_line_plain (can_write : string → bool) (junk : float)
    (w : World) (line : string) (w' : World) (out : string) :
  plain_names (book w) → exec_line can_write junk w line = Next w' out →
  plain_names (book w').
Proof.
  intros Hb. unfold exec_line.
  destruct (read_word line) as [[cmd rest]|]; [|by intros [= <- <-]].
  destruct (String.eqb cmd "exit" || String.eqb cmd "quit"); [done|].
  destruct (String.eqb cmd "help"); [by intros [= <- <-]|].
  destruct (String.eqb cmd "add-user").
  { cbv zeta.
    pose proof (take_line_no_newline rest) as Hline.
    destruct (take_line rest).1 as [|c n]; [by intros [= <- <-]|].
    assert (Hname : ∀ c' n', (if Ascii.eqb c " " then n else String c n) = String c' n' →
                    is_line (String c' n') = true).
    { intros c' n'. destruct (Ascii.eqb c " ").
      - intros ->. simpl in Hline. by apply andb_prop in Hline as [_ ?].
      - by intros [= <- <-]. }
    destruct (if Ascii.eqb c " " then n else String c n) as [|c' n'];
      [by intros [= <- <-]|].
    specialize (Hname c' n' eq_refl). intros [= <- <-]. destruct Hb as [Hu He].
    split; [|done]. simpl. intros u Hin.
    apply elem_of_union in Hin as [Hin|Hin]; [|by apply Hu].
    apply elem_of_singleton in Hin. by subst u. }
  destruct (String.eqb cmd "add-expense").
  { cbv zeta. destruct (String.eqb _ "equal").
    - destruct (read_expense_args junk _) as [[p a] parts] eqn:Hargs.
      intros Hrep. apply report_store in Hrep as ->.
      apply plain_names_equal; [done|]. by eapply read_expense_args_words.
    - destruct (String.eqb _ "exact"); [|by intros [= <- <-]].
      destruct (read_expense_args junk _) as [[p a] tokens] eqn:Hargs.
      intros Hrep. apply report_store in Hrep as ->.
      apply plain_names_exact; [done|]. by eapply read_expense_args_words. }
  destruct (String.eqb cmd "balances"); [by intros [= <- <-]|].
  destruct (String.eqb cmd "settle").
  { destruct (settle (book w)); [|done]. by intros [= <- <-]. }
  destruct (String.eqb cmd "save").
  { cbv zeta. destruct (read_file_name rest) as [|c f]; [by intros [= <- <-]|].
    unfold save. destruct (can_write (String c f)); simpl; by intros [= <- <-]. }
  destruct (String.eqb cmd "load"); [|by intros [= <- <-]].
  cbv zeta. destruct (read_file_name rest) as [|c f]; [by intros [= <- <-]|].
  intros Hrep. apply report_store in Hrep as ->. by apply load_plain.
Qed.

Lemma run_plain (can_write : string → bool) (junk : float) (lines : list string) :
  ∀ w out w' out', plain_names (book w) →
  run can_write junk w lines out = Finished w' out' → plain_names (book w').
Proof.
  induction lines as [|line lines IH]; intros w out w' out' Hb; simpl.
  - by intros [= <- <-].
  - destruct line as [|c line]; [by apply IH|].
    destruct (exec_line can_write junk w (String c line)) as [w1 o| | |] eqn:E; try done.
    + apply IH. by apply (exec_line_plain can_write junk w (String c line) w1 o).
    + by intros [= <- <-].
Qed.

(** Whatever is typed, the ledger at the end of a session has plain names:
    every user name is a non-empty line, and every payer and participant
    name is a non-empty word without white space. These are the names that
    [save] and [load] give back as they were. *)
Theorem session_names_are_plain (can_write : string → bool) (junk : float)
    (fs : gmap string string) (input : string) (w : World) (out : string) :
  main can_write junk fs input = Finished w out → plain_names (book w).
Proof.
  unfold main. apply run_plain. split; [set_solver|constructor].
Qed.

Lemma session_names_are_plain_witness :
  ∃ w out, main (λ _, true) 0%float ∅ session_abc = Finished w out ∧
           plain_names (book w).
Proof.
  assert (E : ∃ w out, main (λ _, true) 0%float ∅ session_abc = Finished w out).
  { vm_compute. eexists _, _. reflexivity. }
  destruct E as (w & out & E). exists w, out. split; [exact E|].
  exact (session_names_are_plain (λ _, true) 0%float ∅ session_abc w out E).
Defined.

(** ** Registering users *)

(** [addUser] is an idempotent insertion: afterwards the user is known, who
    was known still is, nobody else is, and the expenses are untouched.
    Adding the same name again changes nothing. *)
Theorem addUser_registers {R : Type} (b : Book R) (u : string) :
  (∀ v, hasUser (addUser b u) v = true ↔ v = u ∨ hasUser b v = true) ∧
  expenses (addUser b u) = expenses b ∧
  addUser (addUser b u) u = addUser b u.
Proof.
  split; [|split].
  - intros v. unfold hasUser, addUser. rewrite !bool_decide_eq_true. simpl. set_solver.
  - done.
  - unfold addUser. simpl. f_equal. set_solver.
Qed.

(** ** The balance of a user in exact arithmetic *)

Section ClosedForm.
Local Open Scope Qc_scope.

Lemma apply_expense_value (net : gmap string Qc) (e : Expense Qc) (u : string) :
  map_at (apply_expense net e) u =
    map_at net u + (if decide (payer e = u) then amount e else 0) - map_at (shares e) u.
Proof.
  assert (Hsh : map_at (shares e) u
                = match shares e !! u with Some v => v | None => 0 end).
  { unfold map_at. by destruct (shares e !! u). }
  rewrite Hsh. clear Hsh.
  assert (Hnet : map_at (apply_expense net e) u
                 = match shares e !! u with
                   | Some v => map_at (map_add (payer e) (amount e) net) u - v
                   | None => map_at (map_add (payer e) (amount e) net) u
                   end).
  { unfold map_at at 1. rewrite apply_expense_lookup. by destruct (shares e !! u). }
  rewrite Hnet, map_at_map_add. clear Hnet.
  change (r_add ?a ?b) with (a + b).
  destruct (shares e !! u); case_decide; subst; ring.
Qed.

Lemma paid_cons (u : string) (e : Expense Qc) (es : list (Expense Qc)) :
  paid u (e :: es) = (if decide (payer e = u) then amount e else 0) + paid u es.
Proof. reflexivity. Qed.

Lemma owed_cons (u : string) (e : Expense Qc) (es : list (Expense Qc)) :
  owed u (e :: es) = map_at (shares e) u + owed u es.
Proof. reflexivity. Qed.

Lemma fold_apply_expense_value (es : list (Expense Qc)) (u : string) :
  ∀ net : gmap string Qc,
  map_at (foldl apply_expense net es) u = map_at net u + paid u es - owed u es.
Proof.
  induction es as [|e es IH]; intros net.
  - unfold paid, owed. cbn [foldl foldr]. change (r_zero (R:=Qc)) with 0. ring.
  - cbn [foldl]. rewrite IH, apply_expense_value, paid_cons, owed_cons. ring.
Qed.

End ClosedForm.

(** ** The first token that fails *)

Section FirstFailure.
Context {R : Type} `{Arith R} `{Stod R}.

Lemma exact_tokens_good (b : Book R) (good : list string) (tokens : list string) :
  Forall (good_token b) good →
  ∀ sh sum, ∃ sh' sum',
    exact_tokens b (good ++ tokens) sh sum = exact_tokens b tokens sh' sum'.
Proof.
  induction 1 as [|t good (name & text & v & Hs & Hv & Hu) _ IH]; intros sh sum.
  - by exists sh, sum.
  - cbn [app exact_tokens]. rewrite Hs, Hv.
    apply hasUser_true in Hu. rewrite Hu. simpl. apply IH.
Qed.

End FirstFailure.

(** [addExpenseExact] goes through the tokens from the left and stops at the
    first one it cannot take, leaving the store as it was. For that token
    it looks for the colon first, then converts the amount, and asks only
    then whether the name is a user: a token without a colon gives the
    error "Bad token", an amount that [stod] rejects ends the call with
    the exception of [stod] even when the name is unknown, and an unknown
    name with a good amount gives "Unknown participant". *)
Theorem addExpenseExact_first_failure {R : Type} `{Arith R} `{Stod R}
    (b : Book R) (p : string) (a : R) (good : list string) (t : string)
    (rest : list string) :
  p ∈ users b → Forall (good_token b) good →
  match split_colon t with
  | None => addExpenseExact b p a (good ++ t :: rest) = Fail (BadToken t) b
  | Some (name, text) =>
    match stod (R:=R) text with
    | StodThrows x => addExpenseExact b p a (good ++ t :: rest) = Throw x b
    | StodValue _ =>
      name ∉ users b →
      addExpenseExact b p a (good ++ t :: rest) = Fail (UnknownParticipant name) b
    end
  end.
Proof.
  intros Hp Hgood. apply hasUser_true in Hp.
  destruct (exact_tokens_good b good (t :: rest) Hgood ∅ r_zero) as (sh & sum & Heq).
  unfold addExpenseExact. rewrite Hp. simpl.
  destruct (good ++ t :: rest) as [|t0 l] eqn:El; [by destruct good|].
  rewrite Heq. cbn [exact_tokens].
  destruct (split_colon t) as [[name text]|]; [|done].
  destruct (stod text) as [v|x]; [|done].
  intros Hname. apply hasUser_false in Hname. by rewrite Hname.
Qed.

Lemma addExpenseExact_first_failure_witness :
  addExpenseExact book_ab "A" 10%float ["B:4"; "Z:abc"; "A:6"]
  = Throw invalid_argument book_ab.
Proof.
  assert (Hp : "A" ∈ users book_ab) by (vm_compute; set_solver).
  assert (Hgood : Forall (good_token book_ab) ["B:4"]).
  { constructor; [|constructor]. exists "B", "4", 4%float.
    split; [reflexivity|]. split; [vm_compute; reflexivity|]. vm_compute. set_solver. }
  exact (addExpenseExact_first_failure book_ab "A" 10%float ["B:4"] "Z:abc" ["A:6"]
           Hp Hgood).
Defined.

(** ** The prompt *)

(** [add-user] takes the rest of the line after one blank as the name, white
    space included, and registers it: the user is known afterwards. *)
Theorem add_user_command (can_write : string → bool) (junk : float)
    (w : World) (name : string) :
  is_line name = true →
  exec_line can_write junk w ("add-user " +:+ name)
  = Next (mkWorld (addUser (book w) name) (files w))
         ("Added user: " +:+ name +:+ newline) ∧
  hasUser (addUser (book w) name) name = true.
Proof.
  intros Hname. split.
  - unfold exec_line.
    change ("add-user " +:+ name) with ("add-user" +:+ String " " name).
    rewrite read_word_app by done.
    change (String.eqb "add-user" "exit" || String.eqb "add-user" "quit") with false.
    change (String.eqb "add-user" "help") with false.
    change (String.eqb "add-user" "add-user") with true.
    cbv iota zeta.
    assert (Hline : take_line (String " " name) = (String " " name, EmptyString)).
    { rewrite <- (append_nil_r name) at 1.
      change (String " " (name +:+ "")) with ((String " " name) +:+ "").
      assert (Hnl : no_newline (String " " name) = true) by (by destruct name).
      clear Hname. revert Hnl. generalize (String " " name). intros s Hs.
      induction s as [|c s IH]; [done|]. rewrite append_cons. simpl in Hs |- *.
      destruct (Ascii.eqb c _); [done|]. by rewrite IH. }
    rewrite Hline. cbn [fst]. change (Ascii.eqb " " " ") with true. cbv iota.
    by destruct name.
  - unfold hasUser, addUser. simpl. apply bool_decide_eq_true. set_solver.
Qed.

Lemma add_user_command_witness :
  exec_line (λ _, true) 0%float (mkWorld empty_book ∅) ("add-user " +:+ "Ann Lee")
  = Next (mkWorld (addUser empty_book "Ann Lee") ∅)
         ("Added user: " +:+ "Ann Lee" +:+ newline) ∧
  hasUser (addUser (empty_book (R:=float)) "Ann Lee") "Ann Lee" = true.
Proof.
  apply (add_user_command (λ _, true) 0%float (mkWorld empty_book ∅) "Ann Lee").
  reflexivity.
Defined.

Lemma book_cents_storable : storable book_cents.
Proof.
  unfold storable.
  assert (elements (users book_cents) = ["A"; "B"]) as -> by (vm_compute; reflexivity).
  assert (expenses book_cents
          = [mkExpense "A" 12.5%float (list_to_map [("A", 5.25%float); ("B", 7.25%float)])])
    as -> by (vm_compute; reflexivity).
  split; [by repeat constructor|]. split; [vm_compute; reflexivity|].
  split; [vm_compute; reflexivity|].
  constructor; [|constructor]. unfold storable_expense.
  assert (items (shares (mkExpense "A" 12.5%float
            (list_to_map [("A", 5.25%float); ("B", 7.25%float)])))
          = [("A", 5.25%float); ("B", 7.25%float)]) as -> by (vm_compute; reflexivity).
  split; [reflexivity|]. split; [vm_compute; reflexivity|].
  split; [vm_compute; reflexivity|].
  repeat constructor; vm_compute; reflexivity.
Qed.

Lemma load_ignores_what_follows_witness :
  load empty_book (Some (save_text book_cents +:+ "EXPENSES 7")) = Done book_cents.
Proof.
  apply (load_ignores_what_follows book_cents empty_book "EXPENSES 7").
  apply book_cents_storable.
Defined.

Lemma saved_ledger_comes_back_witness :
  exec_line (λ _, true) 0%float (mkWorld book_cents ∅) ("save " +:+ "ledger.txt")
  = Next (mkWorld book_cents (<["ledger.txt" := save_text book_cents]> ∅))
         ("Saved to " +:+ "ledger.txt" +:+ newline) ∧
  ∀ b2 fs2, fs2 !! "ledger.txt" = Some (save_text book_cents) →
    exec_line (λ _, true) 0%float (mkWorld b2 fs2) ("load " +:+ "ledger.txt")
    = Next (mkWorld book_cents fs2) ("Loaded from " +:+ "ledger.txt" +:+ newline).
Proof.
  apply (saved_ledger_comes_back (λ _, true) 0%float (mkWorld book_cents ∅) "ledger.txt").
  - reflexivity.
  - reflexivity.
  - apply book_cents_storable.
Defined.

(** ** What [balances] prints *)

#[export] Instance entry_le_total {A} : Total (@entry_le A).
Proof. intros x y. unfold entry_le. apply String.leb_total. Qed.

Lemma items_sorted {A} (m : gmap string A) : Sorted entry_le (items m).
Proof. apply Sorted_merge_sort. apply _. Qed.

Lemma items_keys {A} (m : gmap string A) : (items m).*1 ≡ₚ elements (dom m).
Proof.
  apply NoDup_Permutation; [apply items_NoDup|apply NoDup_elements|].
  intros k. rewrite elem_of_elements, elem_of_dom, list_elem_of_fmap. split.
  - intros ([k' v] & -> & Hin). apply elem_of_items in Hin. by exists v.
  - intros [v Hv]. exists (k, v). split; [done|]. by apply elem_of_items.
Qed.

Lemma write_all_ext {A} (f g : A → string) (l : list A) :
  (∀ x, f x = g x) → write_all f l = write_all g l.
Proof. intros Hfg. induction l as [|x l IH]; [done|]. simpl. by rewrite Hfg, IH. Qed.

(** For a ledger built by the three operations in which no balance is a
    NaN, [balances] changes nothing and prints the heading and then one line
    for each registered user, in the order of the names (byte by byte): two
    blanks, the name, the blanks that fill the name up to twelve characters,
    blank, colon, blank, the balance with two decimals (0.00 for a balance
    within [EPS] of zero), and the end of the line. *)
Theorem balances_lists_the_users (can_write : string → bool) (junk : float) (w : World) :
  reachable (book w) →
  (∀ u v, computeNet (book w) !! u = Some v → Prim2SF v ≠ S754_nan) →
  ∃ entries,
    exec_line can_write junk w "balances"
    = Next w ("Balances (+ receive, - pay)" +:+ newline +:+
              write_all
                (λ kv, "  " +:+ kv.1 +:+ spaces (12 - String.length kv.1) +:+ " : " +:+
                       show_fixed2 (if (abs kv.2 <? 1e-6)%float then 0%float else kv.2) +:+
                       newline)
                entries) ∧
    entries.*1 ≡ₚ elements (users (book w)) ∧
    Sorted entry_le entries ∧
    (∀ u v, (u, v) ∈ entries ↔ computeNet (book w) !! u = Some v) ∧
    Forall (λ kv, Prim2SF (if (abs kv.2 <? 1e-6)%float then 0%float else kv.2) ≠ S754_nan)
           entries.
Proof.
  intros Hb Hnan. exists (items (computeNet (book w))).
  split; [|split; [|split; [|split]]].
  - unfold exec_line.
    change (read_word "balances") with (Some ("balances", EmptyString)).
    change (String.eqb "balances" "exit" || String.eqb "balances" "quit") with false.
    change (String.eqb "balances" "help") with false.
    change (String.eqb "balances" "add-user") with false.
    change (String.eqb "balances" "add-expense") with false.
    change (String.eqb "balances" "balances") with true.
    cbv iota. unfold printBalances. do 3 f_equal. apply write_all_ext.
    intros kv. unfold show_balance, left_in. by rewrite !append_assoc.
  - rewrite items_keys.
    by rewrite (dom_computeNet_well_formed _ (reachable_well_formed _ Hb)).
  - apply items_sorted.
  - intros u v. apply elem_of_items.
  - apply Forall_forall. intros [u v] Hin%elem_of_items. simpl.
    destruct (abs v <? 1e-6)%float; [discriminate|]. by apply (Hnan u).
Qed.

Lemma balances_lists_the_users_witness :
  (∃ entries,
    exec_line (λ _, true) 0%float (mkWorld book_abc ∅) "balances"
    = Next (mkWorld book_abc ∅)
           ("Balances (+ receive, - pay)" +:+ newline +:+
            write_all
              (λ kv, "  " +:+ kv.1 +:+ spaces (12 - String.length kv.1) +:+ " : " +:+
                     show_fixed2 (if (abs kv.2 <? 1e-6)%float then 0%float else kv.2) +:+
                     newline)
              entries) ∧
    entries.*1 ≡ₚ elements (users book_abc) ∧
    Sorted entry_le entries ∧
    (∀ u v, (u, v) ∈ entries ↔ computeNet book_abc !! u = Some v) ∧
    Forall (λ kv, Prim2SF (if (abs kv.2 <? 1e-6)%float then 0%float else kv.2) ≠ S754_nan)
           entries) ∧
  exec_line (λ _, true) 0%float (mkWorld book_abc ∅) "balances"
  = Next (mkWorld book_abc ∅)
         ("Balances (+ receive, - pay)" +:+ newline +:+
          "  A            : 60.00" +:+ newline +:+
          "  B            : -30.00" +:+ newline +:+
          "  C            : -30.00" +:+ newline).
Proof.
  split; [|vm_compute; reflexivity].
  apply (balances_lists_the_users (λ _, true) 0%float (mkWorld book_abc ∅)).
  - apply book_abc_reachable.
  - intros u v Hv.
    assert (Hin : (u, v) ∈ items (computeNet book_abc)) by (by apply elem_of_items).
    assert (items (computeNet book_abc)
            = [("A", 60%float); ("B", (-30)%float); ("C", (-30)%float)]) as Hitems
      by (vm_compute; reflexivity).
    cbn [book] in Hin. rewrite Hitems in Hin.
    repeat (apply elem_of_cons in Hin as [[= -> ->]|Hin]; [discriminate|]).
    by apply elem_of_nil in Hin.
Defined.

(** ** Runs of [computeNet] without rounding

    When no addition and no subtraction rounds, the balances that the
    program computes in binary64 stand for the balances of the same ledger
    in exact arithmetic. *)

Section Values.
Local Open Scope Qc_scope.

Lemma Q2Qc_units_add (a b : Z) (d : positive) :
  Q2Qc ((a + b) # d) = Q2Qc (a # d) + Q2Qc (b # d).
Proof.
  apply Qc_is_canon. simpl. rewrite !Qred_correct.
  unfold Qeq, Qplus. simpl. rewrite Pos2Z.inj_mul. ring.
Qed.

Lemma Q2Qc_units_sub (a b : Z) (d : positive) :
  Q2Qc ((a - b) # d) = Q2Qc (a # d) - Q2Qc (b # d).
Proof.
  apply Qc_is_canon. simpl. rewrite !Qred_correct.
  unfold Qeq, Qminus, Qplus, Qopp. simpl. rewrite Pos2Z.inj_mul. ring.
Qed.




Lemma value_zero : value 0 = 0.
Proof. apply Qc_is_canon. reflexivity. Qed.

Lemma value_add (x y z : float) :
  units z = (units x + units y)%Z → value z = value x + value y.
Proof. intros Hz. unfold value. rewrite Hz. apply Q2Qc_units_add. Qed.

Lemma value_sub (x y z : float) :
  units z = (units x - units y)%Z → value z = value x - value y.
Proof. intros Hz. unfold value. rewrite Hz. apply Q2Qc_units_sub. Qed.

Lemma exact_add_value (x y : float) :
  exact_add x y = true →
  is_finite (x + y) = true ∧ value (x + y) = value x + value y.
Proof.
  unfold exact_add. intros [[_ Hf]%andb_prop Hu]%andb_prop.
  apply Z.eqb_eq in Hu. split; [done|]. by apply value_add.
Qed.

Lemma exact_sub_value (x y : float) :
  exact_sub x y = true →
  is_finite (x - y) = true ∧ value (x - y) = value x - value y.
Proof.
  unfold exact_sub. intros [[_ Hf]%andb_prop Hu]%andb_prop.
  apply Z.eqb_eq in Hu. split; [done|]. by apply value_sub.
Qed.









End Values.

Section Transfer.

Lemma map_at_value (m : gmap string float) (k : string) :
  map_at (value <$> m) k = value (map_at m k).
Proof.
  unfold map_at. rewrite lookup_fmap. destruct (m !! k); [done|].
  simpl. symmetry. apply value_zero.
Qed.

Lemma map_add_value (k : string) (v : float) (m : gmap string float) :
  exact_add (map_at m k) v = true →
  value <$> map_add k v m = map_add k (value v) (value <$> m).
Proof.
  intros [_ Hv]%exact_add_value. unfold map_add. rewrite fmap_insert. f_equal.
  change (r_add (map_at m k) v) with (map_at m k + v)%float.
  by rewrite Hv, map_at_value.
Qed.

Lemma exact_expense_spec (net : gmap string float) (e : Expense float) :
  exact_expense net e = true →
  exact_add (map_at net (payer e)) (amount e) = true ∧
  ∀ k v, shares e !! k = Some v →
         exact_sub (map_at (map_add (payer e) (amount e) net) k) v = true.
Proof.
  unfold exact_expense. intros [Ha Hs]%andb_prop. split; [done|].
  intros k v Hkv. rewrite forallb_forall in Hs.
  apply (Hs (k, v)). apply list_elem_of_In. by apply elem_of_items.
Qed.

Lemma apply_expense_transfer (net : gmap string float) (e : Expense float) :
  exact_expense net e = true →
  value <$> apply_expense net e = apply_expense (value <$> net) (expense_value e).
Proof.
  intros [Ha Hs]%exact_expense_spec. apply map_eq. intros k.
  rewrite lookup_fmap, !apply_expense_lookup. cbn [shares payer amount expense_value].
  rewrite lookup_fmap, <- (map_add_value _ _ _ Ha).
  destruct (shares e !! k) as [v|] eqn:Hk; simpl.
  - f_equal. destruct (exact_sub_value _ _ (Hs k v Hk)) as [_ Hv].
    by rewrite Hv, map_at_value.
  - by rewrite lookup_fmap.
Qed.

Lemma exact_fold_transfer (es : list (Expense float)) :
  ∀ net : gmap string float, exact_fold net es = true →
  value <$> foldl apply_expense net es
  = foldl apply_expense (value <$> net) (expense_value <$> es).
Proof.
  induction es as [|e es IH]; intros net; [done|].
  cbn [exact_fold foldl fmap list_fmap]. intros [He Hes]%andb_prop.
  by rewrite (IH _ Hes), (apply_expense_transfer _ _ He).
Qed.

Lemma raw_net_transfer (b : Book float) :
  no_rounding b = true → value <$> raw_net b = raw_net (book_value b).
Proof.
  intros Hb. unfold raw_net.
  change (r_zero (R:=float)) with 0%float. rewrite (exact_fold_transfer _ _ Hb).
  cbn [book_value users expenses]. f_equal.
  rewrite fmap_gset_to_gmap. f_equal. apply value_zero.
Qed.

Lemma apply_expense_finite (net : gmap string float) (e : Expense float) :
  exact_expense net e = true →
  map_Forall (λ _ x, is_finite x = true) net →
  map_Forall (λ _ x, is_finite x = true) (apply_expense net e).
Proof.
  intros [Ha Hs]%exact_expense_spec Hnet k x. rewrite apply_expense_lookup.
  destruct (shares e !! k) as [v|] eqn:Hk.
  - intros [= <-]. by destruct (exact_sub_value _ _ (Hs k v Hk)).
  - rewrite map_add_lookup. case_decide.
    + intros [= <-]. by destruct (exact_add_value _ _ Ha).
    + apply Hnet.
Qed.

Lemma exact_fold_finite (es : list (Expense float)) :
  ∀ net : gmap string float, exact_fold net es = true →
  map_Forall (λ _ x, is_finite x = true) net →
  map_Forall (λ _ x, is_finite x = true) (foldl apply_expense net es).
Proof.
  induction es as [|e es IH]; intros net; [done|].
  cbn [exact_fold foldl]. intros [He Hes]%andb_prop Hnet.
  apply (IH _ Hes). by apply apply_expense_finite.
Qed.

Lemma raw_net_finite (b : Book float) :
  no_rounding b = true → map_Forall (λ _ x, is_finite x = true) (raw_net b).
Proof.
  intros Hb. unfold raw_net. change (r_zero (R:=float)) with 0%float.
  apply (exact_fold_finite _ _ Hb). intros k x.
  rewrite lookup_gset_to_gmap. destruct (guard _); [|done]. by intros [= <-].
Qed.

End Transfer.

(** ** Conservation and order of the expenses in binary64 *)

Section Conservation.
Local Open Scope Qc_scope.






End Conservation.





(** Without rounding, the balance that [computeNet] has for a user before
    the clamp stands for what the user paid less what the user owes, and the
    balance it returns is that number clamped. *)
Theorem computeNet_balance_double (b : Book float) (u : string) :
  no_rounding b = true → u ∈ dom (computeNet b) →
  ∃ x, raw_net b !! u = Some x ∧ is_finite x = true ∧
       value x = (paid u (expenses (book_value b)) - owed u (expenses (book_value b)))%Qc ∧
       computeNet b !! u = Some (clamp x).
Proof.
  intros Hb Hu. unfold computeNet in *. rewrite dom_fmap_L in Hu.
  apply elem_of_dom in Hu as [x Hx]. exists x. split; [done|].
  split; [by apply (raw_net_finite b Hb u)|]. split; [|by rewrite lookup_fmap, Hx].
  assert (Hval : map_at (value <$> raw_net b) u = value x).
  { unfold map_at. by rewrite lookup_fmap, Hx. }
  rewrite <- Hval, (raw_net_transfer b Hb). unfold raw_net.
  rewrite fold_apply_expense_value.
  assert (Hz : map_at (gset_to_gmap (r_zero (R:=Qc)) (users (book_value b))) u = 0%Qc).
  { unfold map_at. rewrite lookup_gset_to_gmap. by destruct (guard _). }
  rewrite Hz. ring.
Qed.

Lemma computeNet_balance_double_witness :
  (∃ x, raw_net book_abc !! "A" = Some x ∧ is_finite x = true ∧
        value x = (paid "A" (expenses (book_value book_abc))
                   - owed "A" (expenses (book_value book_abc)))%Qc ∧
        computeNet book_abc !! "A" = Some (clamp x)) ∧
  (paid "A" (expenses (book_value book_abc))
   - owed "A" (expenses (book_value book_abc)))%Qc = Q2Qc 60 ∧
  computeNet book_abc !! "A" = Some 60%float.
Proof.
  split; [|split].
  - apply (computeNet_balance_double book_abc "A").
    + vm_compute. reflexivity.
    + apply elem_of_dom. exists 60%float. vm_compute. reflexivity.
  - apply Qc_is_canon. vm_compute. reflexivity.
  - vm_compute. reflexivity.
Defined.

(** ** Amounts and shares of any sign *)

Lemma exact_split_built {R : Type} `{Arith R} `{Stod R}
    (b : Book R) (p : string) (a : R) (l : list (string * R)) (q : string) :
  shares (mkExpense p a (exact_shares l)) !! q =
    if decide (q ∈ l.*1) then Some (named_total q l r_zero) else None.
Proof.
  cbn [shares]. unfold exact_shares. rewrite exact_shares_lookup.
  case_decide; [|done]. unfold map_at. by rewrite lookup_empty.
Qed.

(** C10. Neither construction operation looks at the sign of the amount or
    of a share. With a registered payer and registered participants,
    [addExpenseEqual] succeeds for every amount, zero and negative ones
    included: the users stay, and one expense is put at the end of the
    expenses, with that payer, that amount and, for a participant named [k]
    times, the share [amount / n] added [k] times to 0.0. With a registered
    payer and tokens that name registered users, [addExpenseExact] succeeds
    for every amount and shares whose sum is within 0.01 of the amount: the
    users stay, and one expense is put at the end, with that payer, that
    amount and, for each name, the amounts given for it added up. *)
Theorem no_positivity_check {R : Type} `{Arith R} `{Stod R}
    (b : Book R) (p : string) (a : R) :
  (∀ ps, hasUser b p = true → ps ≠ [] →
         Forall (λ q, hasUser b q = true) ps →
         ∃ b' e,
           addExpenseEqual b p a ps = Done b' ∧
           users b' = users b ∧ expenses b' = expenses b ++ [e] ∧
           payer e = p ∧ amount e = a ∧
           ∀ q, shares e !! q =
                match occurrences q ps with
                | 0 => None
                | S k => Some (added_up (S k) (r_div a (r_of_size (length ps))) r_zero)
                end) ∧
  (∀ tokens l, hasUser b p = true → tokens ≠ [] →
         token_shares tokens = Some l →
         Forall (λ kv, hasUser b kv.1 = true) l →
         share_mismatch (share_sum l) a = false →
         ∃ b' e,
           addExpenseExact b p a tokens = Done b' ∧
           users b' = users b ∧ expenses b' = expenses b ++ [e] ∧
           payer e = p ∧ amount e = a ∧
           ∀ q, shares e !! q =
                if decide (q ∈ l.*1) then Some (named_total q l r_zero) else None).
Proof.
  split.
  - intros ps Hp Hne Hall.
    pose proof (addExpenseEqual_ok b p a ps Hp Hne Hall) as Hadd.
    destruct (equal_split_built b p a ps _ Hadd) as (e & He & Hshares).
    cbn [push_expense expenses] in He. apply app_inj_tail in He as [_ <-].
    eexists _, _. split; [exact Hadd|]. by repeat split.
  - intros tokens l Hp Hne Hl Hall Hm.
    pose proof (addExpenseExact_checked b p a tokens l Hp Hne Hl Hall) as Hadd.
    rewrite Hm in Hadd. eexists _, _. split; [exact Hadd|].
    repeat split. intros q. by apply exact_split_built.
Qed.

Lemma no_positivity_check_witness :
  (∃ b' e,
     addExpenseEqual book_ab "A" (-90)%float ["A"; "B"] = Done b' ∧
     users b' = users book_ab ∧ expenses b' = expenses book_ab ++ [e] ∧
     payer e = "A" ∧ amount e = (-90)%float ∧
     shares e !! "A" = Some (-45)%float ∧ shares e !! "B" = Some (-45)%float) ∧
  (∃ b' e,
     addExpenseEqual book_ab "A" 0%float ["B"] = Done b' ∧
     users b' = users book_ab ∧ expenses b' = expenses book_ab ++ [e] ∧
     payer e = "A" ∧ amount e = 0%float ∧ shares e !! "B" = Some 0%float) ∧
  (∃ b' e,
     addExpenseExact book_ab "A" (-10)%float ["A:-4"; "B:-6"] = Done b' ∧
     users b' = users book_ab ∧ expenses b' = expenses book_ab ++ [e] ∧
     payer e = "A" ∧ amount e = (-10)%float ∧
     shares e !! "A" = Some (-4)%float ∧ shares e !! "B" = Some (-6)%float) ∧
  (∃ b' e,
     addExpenseExact book_ab "A" 0%float ["B:0"] = Done b' ∧
     users b' = users book_ab ∧ expenses b' = expenses book_ab ++ [e] ∧
     payer e = "A" ∧ amount e = 0%float ∧ shares e !! "B" = Some 0%float).
Proof.
  split; [|split; [|split]].
  - destruct (proj1 (no_positivity_check book_ab "A" (-90)%float) ["A"; "B"])
      as (b' & e & Hadd & Hu & He & Hp & Ha & Hs);
      [vm_compute; reflexivity|discriminate|repeat constructor|].
    exists b', e. repeat split; try done; by rewrite Hs.
  - destruct (proj1 (no_positivity_check book_ab "A" 0%float) ["B"])
      as (b' & e & Hadd & Hu & He & Hp & Ha & Hs);
      [vm_compute; reflexivity|discriminate|repeat constructor|].
    exists b', e. repeat split; try done; by rewrite Hs.
  - destruct (proj2 (no_positivity_check book_ab "A" (-10)%float) ["A:-4"; "B:-6"]
                [("A", (-4)%float); ("B", (-6)%float)])
      as (b' & e & Hadd & Hu & He & Hp & Ha & Hs);
      [vm_compute; reflexivity|discriminate|vm_compute; reflexivity
      |repeat constructor|vm_compute; reflexivity|].
    exists b', e. repeat split; try done; by rewrite Hs.
  - destruct (proj2 (no_positivity_check book_ab "A" 0%float) ["B:0"] [("B", 0%float)])
      as (b' & e & Hadd & Hu & He & Hp & Ha & Hs);
      [vm_compute; reflexivity|discriminate|vm_compute; reflexivity
      |repeat constructor|vm_compute; reflexivity|].
    exists b', e. repeat split; try done; by rewrite Hs.
Defined.

(** ** What a failed [load] leaves *)







(** ** Nobody pays too much *)

Section Overpay.

Lemma SFltb_zero_not_neg (x : spec_float) :
  sf_not_neg x = true → SFltb x (S754_zero false) = false.
Proof. by destruct x as [[]|[]| |[] ? ?]. Qed.

Lemma SFltb_zero_not_pos (x : spec_float) :
  sf_not_pos x = true → SFltb (S754_zero false) x = false.
Proof. by destruct x as [[]|[]| |[] ? ?]. Qed.

(** What is left of a credit after the payment is not below zero. *)
Lemma credit_left_not_neg (c d : float) :
  (c - r_min c (- d) <? 0)%float = false.
Proof.
  unfold r_min, r_lt; simpl. rewrite ltb_spec.
  change (Prim2SF 0) with (S754_zero false).
  destruct (- d <? c)%float eqn:E; rewrite sub_spec.
  - rewrite ltb_spec in E.
    apply SFltb_zero_not_neg, SFsub_not_neg; [apply Prim2SF_valid..|done].
  - destruct (SFsub_diag (Prim2SF c)) as [-> | [s ->]]; [done|by destruct s].
Qed.

(** What is left of a debt after the payment is not above zero. *)
Lemma debt_left_not_pos (c d : float) :
  (0 <? d + r_min c (- d))%float = false.
Proof.
  unfold r_min, r_lt; simpl. rewrite ltb_spec.
  change (Prim2SF 0) with (S754_zero false).
  destruct (- d <? c)%float eqn:E; rewrite add_spec.
  - rewrite opp_spec.
    destruct (SFadd_opp (Prim2SF d)) as [-> | [s ->]]; [done|by destruct s].
  - rewrite ltb_spec, opp_spec in E.
    apply SFltb_zero_not_pos, SFadd_not_pos; [apply Prim2SF_valid..|done].
Qed.

Lemma above_EPS_positive (x : float) : r_gt x EPS = true → (0 <? x)%float = true.
Proof.
  unfold r_gt, r_lt, EPS; simpl. apply double_ltb_trans. reflexivity.
Qed.

Lemma below_neg_EPS_negative (x : float) :
  r_lt x (r_neg EPS) = true → (x <? 0)%float = true.
Proof.
  unfold r_lt, r_neg, EPS; simpl. intros Hx.
  apply (double_ltb_trans x (- 1e-6) 0 Hx). reflexivity.
Qed.

Lemma settle_iter_sides (net : gmap string float) (C D : list (Node float))
    (txns : list (Txn float)) C' D' txns' :
  settle_inv net C D txns →
  (∀ u x y, net !! u = Some x → foldl apply_txn net txns !! u = Some y →
            not_past_zero x y) →
  settle_iter C D txns = Some (C', D', txns') →
  ∀ u x y, net !! u = Some x → foldl apply_txn net txns' !! u = Some y →
           not_past_zero x y.
Proof.
  intros [Hnd Htr Hleft Hcred Hdebt Hst Hunt Hdom] HK. unfold settle_iter.
  destruct (pq_pop CmpCred C) as [[c C0]|] eqn:EC; [|done].
  destruct (pq_pop CmpDebt D) as [[d D0]|] eqn:ED; [|done].
  apply pq_pop_perm in EC, ED. unfold settle_step. cbv zeta.
  set (pay := r_min (amt c) (r_neg (amt d))).
  set (bal := foldl apply_txn net txns) in *.
  assert (Hc : c ∈ C) by (rewrite EC; left).
  assert (Hd : d ∈ D) by (rewrite ED; left).
  destruct (r_gt pay EPS) eqn:Hpay; intros [= _ _ <-]; [|exact HK].
  assert (Hcd : name d ≠ name c).
  { rewrite EC, ED in Hnd. revert Hnd. rewrite !fmap_app, !fmap_cons. simpl.
    rewrite <- (Permutation_middle (name <$> C0) (name <$> D0) (name d)).
    intros [Hnc _]%NoDup_cons. intros Heq. apply Hnc. rewrite Heq. left. }
  assert (Hbc : bal !! name c = Some (amt c)) by (apply Htr, elem_of_app; by left).
  assert (Hbd : bal !! name d = Some (amt d)) by (apply Htr, elem_of_app; by right).
  pose proof (above_EPS_positive _ (Hcred c Hc)) as Hcpos.
  pose proof (below_neg_EPS_negative _ (Hdebt d Hd)) as Hdneg.
  intros u x y Hx. rewrite foldl_snoc. fold bal.
  rewrite apply_txn_lookup by done. unfold map_at. rewrite Hbc, Hbd. simpl.
  destruct (decide (u = name c)) as [->|Huc].
  - intros [= <-]. destruct (HK _ _ _ Hx Hbc) as [_ Hpos]. split.
    + intros _. apply credit_left_not_neg.
    + intros Hx0. rewrite (Hpos Hx0) in Hcpos. discriminate.
  - destruct (decide (u = name d)) as [->|Hud].
    + intros [= <-]. destruct (HK _ _ _ Hx Hbd) as [Hneg _]. split.
      * intros Hx0. rewrite (Hneg Hx0) in Hdneg. discriminate.
      * intros _. apply debt_left_not_pos.
    + by apply HK.
Qed.

Lemma settle_loop_sides (net : gmap string float) (fuel : nat) :
  ∀ (C D : list (Node float)) (txns : list (Txn float)) C' D' txns',
  settle_inv net C D txns →
  (∀ u x y, net !! u = Some x → foldl apply_txn net txns !! u = Some y →
            not_past_zero x y) →
  settle_loop fuel C D txns = Some (C', D', txns') →
  ∀ u x y, net !! u = Some x → foldl apply_txn net txns' !! u = Some y →
           not_past_zero x y.
Proof.
  induction fuel as [|fuel IH]; intros C D txns C' D' txns' Hinv HK; simpl;
    destruct (settle_iter C D txns) as [[[C1 D1] t1]|] eqn:E; try discriminate.
  - by intros [= <- <- <-].
  - apply IH.
    + by apply (settle_iter_inv net C D txns).
    + by apply (settle_iter_sides net C D txns C1 D1 t1).
  - by intros [= <- <- <-].
Qed.

End Overpay.

(** The transactions of [settle] make nobody pay or receive too much, in
    binary64 and on every ledger: applied to the balances of [computeNet],
    they leave every user who has a balance with one, and no balance on the
    other side of zero. Who was not owed anything is not owed anything
    afterwards, and who did not owe anything does not owe anything
    afterwards: a creditor is never paid more than the credit, and a debtor
    never pays more than the debt. *)
Theorem settle_nobody_overpays (b : Book float) :
  ∃ txns, settle b = Some txns ∧
    dom (foldl apply_txn (computeNet b) txns) = dom (computeNet b) ∧
    ∀ u x y, computeNet b !! u = Some x →
             foldl apply_txn (computeNet b) txns !! u = Some y →
             not_past_zero x y.
Proof.
  unfold settle. destruct (settle_net_total (computeNet b)) as [[[C D] txns] E].
  rewrite E. exists txns. split; [done|]. unfold settle_net in E. split.
  - apply (settle_loop_inv (computeNet b)) in E; [|apply settle_inv_init].
    apply (inv_dom _ _ _ _ E).
  - assert (Hstart : ∀ u x y, computeNet b !! u = Some x →
              foldl apply_txn (computeNet b) [] !! u = Some y → not_past_zero x y).
    { simpl. intros u x y Hx Hy. assert (y = x) as -> by congruence. by split. }
    exact (settle_loop_sides (computeNet b) _ _ _ [] C D txns
             (settle_inv_init (computeNet b)) Hstart E).
Qed.
